(** * nerf-edge-kit: the rendering core

    A shallow embedding of the inference path of [nerf_edge_kit]:
    the volume integrators of [models/nerf.py] and [models/instant_ngp.py],
    the inverse-CDF sampler, the multiresolution hash encoder, the
    spherical-harmonics direction encoder and the configuration
    validators of [core/config.py].

    Conventions of the embedding.
    - A float tensor is a list of real numbers ([R]); a batch is a list
      of rows.  Rounding is not modelled there: those statements are
      about the exact-arithmetic reading of the Python code.  The
      transmittance of the plain integrator is also read in float32,
      with every operation rounded ([Float], [Nerf32]).
    - An integer tensor ([int64]) is a list of [Z], with the 64-bit
      wrap-around written out where the code multiplies.
    - Elementwise operations on two tensors are [map2], which stops at
      the shorter operand.  On the shapes that occur here this is what
      broadcasting does: the operands have equal length, or one has
      length one and the other length zero.
    - Indexing that raises in Python returns [None]. *)

From Stdlib Require Import Reals Lra Lia List ZArith Bool Sorted.
From Stdlib Require String.
Import ListNotations.
Open Scope R_scope.

(* ------------------------------------------------------------------ *)
(** * Tensor primitives *)

Module Tensor.

(** A point, a direction or an RGB colour: the last axis of size 3. *)
Definition vec3 : Type := (R * R * R)%type.

Definition vzero : vec3 := (0, 0, 0).

Definition vadd (a b : vec3) : vec3 :=
  let '(a0, a1, a2) := a in
  let '(b0, b1, b2) := b in
  (a0 + b0, a1 + b1, a2 + b2).

Definition vscale (k : R) (a : vec3) : vec3 :=
  let '(a0, a1, a2) := a in (k * a0, k * a1, k * a2).

(** Elementwise binary operation. *)
Fixpoint map2 {A B C : Type} (f : A -> B -> C) (l1 : list A) (l2 : list B)
  : list C :=
  match l1, l2 with
  | a :: r1, b :: r2 => f a b :: map2 f r1 r2
  | _, _ => []
  end.

(** [torch.sum] along the sample axis. *)
Definition sum (l : list R) : R := fold_right Rplus 0 l.

Definition vsum (l : list vec3) : vec3 := fold_right vadd vzero l.

(** Running fold that emits every intermediate value. *)
Fixpoint scan (op : R -> R -> R) (acc : R) (l : list R) : list R :=
  match l with
  | [] => []
  | x :: r => let acc' := op acc x in acc' :: scan op acc' r
  end.

(** [torch.cumprod] and [torch.cumsum] along the last axis. *)
Definition cumprod (l : list R) : list R :=
  match l with
  | [] => []
  | x :: r => x :: scan Rmult x r
  end.

Definition cumsum (l : list R) : list R :=
  match l with
  | [] => []
  | x :: r => x :: scan Rplus x r
  end.

(** [x[..., :1]], [torch.ones_like], [torch.zeros_like], [torch.full_like]. *)
Definition first1 {A : Type} (l : list A) : list A := firstn 1 l.

Definition full_like {A : Type} (l : list A) (v : R) : list R :=
  map (fun _ => v) l.

Definition ones_like {A : Type} (l : list A) : list R := full_like l 1.

Definition zeros_like {A : Type} (l : list A) : list R := full_like l 0.

(** [t[..., 1:] - t[..., :-1]]. *)
Definition diffs (t : list R) : list R :=
  map2 Rminus (tl t) (removelast t).

(** [torch.clamp] on integers: [min(max(x, lo), hi)]. *)
Definition clampZ (x lo hi : Z) : Z := Z.min (Z.max x lo) hi.

(** [torch.gather] along the last axis: an index outside the source raises. *)
Fixpoint gather {A : Type} (src : list A) (idx : list Z) : option (list A) :=
  match idx with
  | [] => Some []
  | i :: rest =>
      if (i <? 0)%Z then None
      else match nth_error src (Z.to_nat i), gather src rest with
           | Some v, Some vs => Some (v :: vs)
           | _, _ => None
           end
  end.

(** [torch.searchsorted(seq, v, right=True)] on a sorted [seq]: the
    number of leading entries that are [<= v]. *)
Fixpoint searchsorted_right (seq : list R) (v : R) : Z :=
  match seq with
  | [] => 0%Z
  | c :: r => if Rle_dec c v then (1 + searchsorted_right r v)%Z else 0%Z
  end.

(** [torch.where(cond, a, b)] applied to one entry. *)
Definition where_ (c : bool) (a b : R) : R := if c then a else b.

Definition Rltb (a b : R) : bool := if Rlt_dec a b then true else false.
Definition Rgtb (a b : R) : bool := if Rgt_dec a b then true else false.

End Tensor.

Import Tensor.

(* ------------------------------------------------------------------ *)
(** * Configuration objects ([core/config.py]) *)

Module Config.

Inductive result (A : Type) : Type :=
| Ok : A -> result A
| ValueError : result A.

Arguments Ok {A} _.
Arguments ValueError {A}.

(** The fields of [ModelConfig] that the validator or the models read. *)
Record ModelConfig : Type := mkModelConfig {
  network_width : Z;
  network_depth : Z;
  hashmap_size : Z;
  max_resolution : Z;
  base_resolution : Z;
  log2_hashmap_size : nat;
  max_samples : Z;
  near_plane : R;
  far_plane : R;
  use_viewdirs : bool
}.

(** [ModelConfig.__post_init__]: the four checks, in source order. *)
Definition ModelConfig_post_init (c : ModelConfig) : result ModelConfig :=
  if (network_width c <=? 0)%Z then ValueError
  else if (network_depth c <=? 0)%Z then ValueError
  else if (max_samples c <=? 0)%Z then ValueError
  else if Rge_dec (near_plane c) (far_plane c) then ValueError
  else Ok c.

(** The background fields of [SceneConfig]. *)
Record SceneConfig : Type := mkSceneConfig {
  background_color : vec3;
  use_white_background : bool
}.

End Config.

Import Config.

(* ------------------------------------------------------------------ *)
(** * The plain integrator and the sampler ([models/nerf.py]) *)

Module Nerf.

(** The large distance that closes the last interval. *)
Definition sentinel : R := 1e10.

(** The constant added to every transmittance factor. *)
Definition trans_eps : R := 1e-10.

(** [dists]: consecutive differences, then the sentinel, shaped like
    [dists[..., :1]]. *)
Definition dists (t_vals : list R) : list R :=
  let d := diffs t_vals in
  d ++ full_like (first1 d) sentinel.

(** [alpha = 1.0 - torch.exp(-densities * dists)]. *)
Definition alpha (densities t_vals : list R) : list R :=
  map2 (fun sigma d => 1 - exp (- sigma * d)) densities (dists t_vals).

(** [torch.cumprod(cat([ones_like(alpha[..., :1]), 1 - alpha + 1e-10]))[..., :-1]],
    in exact arithmetic, where the added constant is visible in every
    factor; [Nerf32.transmittance] is the float32 reading. *)
Definition transmittance (al : list R) : list R :=
  removelast
    (cumprod (ones_like (first1 al) ++ map (fun a => 1 - a + trans_eps) al)).

(** The recurrence the transmittance follows: it emits [acc], then
    [acc * f a0], then [acc * f a0 * f a1], and so on, one entry per
    sample. *)
Fixpoint running_product (f : R -> R) (acc : R) (al : list R) : list R :=
  match al with
  | [] => []
  | a :: r => acc :: running_product f (acc * f a) r
  end.

(** [_compute_sample_weights]: [alpha * transmittance]. *)
Definition _compute_sample_weights (densities t_vals : list R) : list R :=
  let al := alpha densities t_vals in
  map2 Rmult al (transmittance al).

(** One row of [volume_render]: the list [[r; g; b; acc_alpha]]. *)
Definition volume_render_row (scene : SceneConfig)
  (colors : list vec3) (densities t_vals : list R) : list R :=
  let al := alpha densities t_vals in
  let weights := map2 Rmult al (transmittance al) in
  let rgb := vsum (map2 vscale weights colors) in
  let acc_alpha := sum weights in
  let rgb :=
    if use_white_background scene
    then vadd rgb (1 - acc_alpha, 1 - acc_alpha, 1 - acc_alpha)
    else rgb in
  let '(r, g, b) := rgb in
  [r; g; b; acc_alpha].

(** [NerfModel.volume_render] on a batch of [N] rays. *)
Fixpoint volume_render (scene : SceneConfig)
  (colors : list (list vec3)) (densities t_vals : list (list R))
  : list (list R) :=
  match colors, densities, t_vals with
  | c :: cs, d :: ds, t :: ts =>
      volume_render_row scene c d t :: volume_render scene cs ds ts
  | _, _, _ => []
  end.

(** [searchsorted], the two clamps and the four gathers of [_sample_pdf]
    for one row, given the row's drawn quantiles [u]
    ([torch.rand(N, num_samples)] is an input of the model). *)
Definition pdf_eps : R := 1e-5.

Definition cdf_of (weights : list R) : list R :=
  let weights := map (fun w => w + pdf_eps) weights in
  let pdf := map (fun w => w / sum weights) weights in
  let cdf := cumsum pdf in
  zeros_like (first1 cdf) ++ cdf.

Definition floor_denom (denom : R) : R :=
  where_ (Rltb denom pdf_eps) 1 denom.

Definition _sample_pdf_row (t_vals weights u : list R) : option (list R) :=
  let cdf := cdf_of weights in
  let indices := map (searchsorted_right cdf) u in
  let hi := (Z.of_nat (length cdf) - 1)%Z in
  let below := map (fun i => clampZ (i - 1) 0 hi) indices in
  let above := map (fun i => clampZ i 0 hi) indices in
  match gather cdf below with
  | None => None
  | Some cdf_g0 =>
  match gather cdf above with
  | None => None
  | Some cdf_g1 =>
  match gather t_vals below with
  | None => None
  | Some t_g0 =>
  match gather t_vals above with
  | None => None
  | Some t_g1 =>
      let denom := map floor_denom (map2 Rminus cdf_g1 cdf_g0) in
      Some (map2 Rplus t_g0
              (map2 Rmult (map2 Rdiv (map2 Rminus u cdf_g0) denom)
                          (map2 Rminus t_g1 t_g0)))
  end end end end.

(** [NerfModel._sample_pdf] on a batch; [None] when a row raises. *)
Fixpoint _sample_pdf (t_vals weights u : list (list R))
  : option (list (list R)) :=
  match t_vals, weights, u with
  | t :: ts, w :: ws, q :: qs =>
      match _sample_pdf_row t w q, _sample_pdf ts ws qs with
      | Some r, Some rs => Some (r :: rs)
      | _, _ => None
      end
  | _, _, _ => Some []
  end.

(** [torch.linspace(start, end, steps)]: entry [i] is
    [start + i * (end - start) / (steps - 1)]. *)
Definition linspace_entry (start stop : R) (steps i : nat) : R :=
  start + INR i * ((stop - start) / (INR steps - 1)).

Definition linspace (start stop : R) (steps : nat) : list R :=
  map (linspace_entry start stop steps) (seq 0 steps).

(** [rand * (far - near) / num_samples] on one entry. *)
Definition jitter (near far : R) (num_samples : nat) (r : R) : R :=
  r * (far - near) / INR num_samples.

(** The sample distances of one ray in [NerfModel.forward]: the
    linspace, plus in training mode the noise
    [rand * (far - near) / num_samples], [rand] being the row of
    [torch.rand_like(t_vals)]. *)
Definition forward_t_vals (training : bool) (near far : R)
  (num_samples : nat) (rand : list R) : list R :=
  let t_vals := linspace near far num_samples in
  if training
  then map2 Rplus t_vals (map (jitter near far num_samples) rand)
  else t_vals.

End Nerf.

(* ------------------------------------------------------------------ *)
(** * Hash encoder, direction encoder and the early-terminating
      integrator ([models/instant_ngp.py]) *)

Module InstantNGP.

(** Signed 64-bit wrap-around of [int64] arithmetic. *)
Definition wrap64 (z : Z) : Z :=
  ((z + 2 ^ 63) mod 2 ^ 64 - 2 ^ 63)%Z.

(** [int(x)] on a float: truncation towards zero. *)
Definition trunc (x : R) : Z :=
  if Rle_dec 0 x then Int_part x else (- Int_part (- x))%Z.

Record HashEncoding : Type := mkHashEncoding {
  num_levels : Z;
  base_resolution : Z;
  max_resolution : Z;
  feature_dim : Z;
  hashmap_size : Z;
  growth_factor : R;
  hash_table : list (list R);
  resolutions : list Z;
  primes : Z * Z * Z
}.

(** [HashEncoding.__init__].  [randn] is the draw of
    [torch.randn(hashmap_size, feature_dim)].  The growth factor and
    the resolutions are read over the reals.  The float computation
    can land just below an integer that the exact product reaches,
    which lowers that resolution by one, and with a single level it
    divides by zero and stores an infinite growth factor; the number
    of resolutions, which is what the statements below use, is the
    same. *)
Definition HashEncoding_init (num_levels base_resolution max_resolution : Z)
  (log2_hashmap_size : nat) (feature_dim : Z) (randn : list (list R))
  : result HashEncoding :=
  let hashmap_size := (2 ^ Z.of_nat log2_hashmap_size)%Z in
  let growth_factor :=
    exp ((ln (IZR max_resolution) - ln (IZR base_resolution))
         / IZR (num_levels - 1)) in
  let hash_table := map (map (fun x => x * 1e-4)) randn in
  let resolutions :=
    map (fun level =>
           Z.min (trunc (IZR base_resolution * growth_factor ^ level))
                 max_resolution)
        (seq 0 (Z.to_nat num_levels)) in
  Ok (mkHashEncoding num_levels base_resolution max_resolution feature_dim
        hashmap_size growth_factor hash_table resolutions
        (1, 2654435761, 805459861)%Z).

(** The encoder that [InstantNGP.__init__] builds from a validated
    configuration: sixteen levels, two features per entry, and a table
    sized by [log2_hashmap_size]. *)
Definition InstantNGP_init (config : ModelConfig) (randn : list (list R))
  : result HashEncoding :=
  HashEncoding_init 16 (Config.base_resolution config)
    (Config.max_resolution config) (log2_hashmap_size config) 2 randn.

(** [HashEncoding._hash_position] on one corner. *)
Definition _hash_position (h : HashEncoding) (positions : Z * Z * Z)
  (resolution : Z) : Z :=
  let '(x, y, z) := positions in
  let '(p0, p1, p2) := primes h in
  let x := clampZ x 0 (resolution - 1) in
  let y := clampZ y 0 (resolution - 1) in
  let z := clampZ z 0 (resolution - 1) in
  let hash_val := wrap64 (x * p0) in
  let hash_val := Z.lxor hash_val (wrap64 (y * p1)) in
  let hash_val := Z.lxor hash_val (wrap64 (z * p2)) in
  (hash_val mod hashmap_size h)%Z.

(** [self.hash_table[hash_idx]]: a negative index counts from the end,
    an index outside the table raises. *)
Definition index_row (table : list (list R)) (idx : Z) : option (list R) :=
  let n := Z.of_nat (length table) in
  if (0 <=? idx)%Z then nth_error table (Z.to_nat idx)
  else if (- n <=? idx)%Z then nth_error table (Z.to_nat (n + idx))
  else None.

(** [c_a * (1 - w) + c_b * w] on feature rows. *)
Definition lerp (ca cb : list R) (w : R) : list R :=
  map2 Rplus (map (fun c => c * (1 - w)) ca) (map (fun c => c * w) cb).

(** [HashEncoding._trilinear_interpolate]. *)
Definition _trilinear_interpolate (corner_features : list (list R))
  (weights : vec3) : option (list R) :=
  let '(wx, wy, wz) := weights in
  match corner_features with
  | c000 :: c001 :: c010 :: c011 :: c100 :: c101 :: c110 :: c111 :: _ =>
      let c00 := lerp c000 c100 wx in
      let c01 := lerp c001 c101 wx in
      let c10 := lerp c010 c110 wx in
      let c11 := lerp c011 c111 wx in
      let c0 := lerp c00 c10 wy in
      let c1 := lerp c01 c11 wy in
      Some (lerp c0 c1 wz)
  | _ => None
  end.

(** Sequencing of lookups that may raise. *)
Fixpoint all_some {A : Type} (l : list (option A)) : option (list A) :=
  match l with
  | [] => Some []
  | None :: _ => None
  | Some a :: r =>
      match all_some r with
      | Some rs => Some (a :: rs)
      | None => None
      end
  end.

(** The eight corners, in the order of the three nested loops. *)
Definition corners_of (grid_pos : Z * Z * Z) : list (Z * Z * Z) :=
  let '(gx, gy, gz) := grid_pos in
  flat_map (fun i =>
    flat_map (fun j =>
      map (fun k => (gx + i, gy + j, gz + k)%Z) [0; 1]%Z) [0; 1]%Z)
    [0; 1]%Z.

(** One iteration of the level loop of [HashEncoding.forward], on a
    position already mapped to the unit cube.
    [torch.floor(scaled_pos).long()] is read as the integer floor,
    which is the int64 the code holds when the scaled coordinates lie
    in [[-2^63, 2^63)]. *)
Definition forward_level (h : HashEncoding) (resolution : Z)
  (positions : vec3) : option (list R) :=
  let '(px, py, pz) := positions in
  let sx := px * IZR (resolution - 1) in
  let sy := py * IZR (resolution - 1) in
  let sz := pz * IZR (resolution - 1) in
  let grid_pos := (Int_part sx, Int_part sy, Int_part sz) in
  let weights :=
    (sx - IZR (Int_part sx), sy - IZR (Int_part sy), sz - IZR (Int_part sz)) in
  match all_some
          (map (fun corner =>
                  index_row (hash_table h)
                            (_hash_position h corner resolution))
               (corners_of grid_pos)) with
  | Some corner_features => _trilinear_interpolate corner_features weights
  | None => None
  end.

(** The positions on which [torch.floor(scaled_pos).long()] is the
    integer floor that [forward_level] takes: an int64 holds the
    integers of [[-2^63, 2^63)]. *)
Definition in_long_range (resolution : Z) (positions : vec3) : Prop :=
  let '(px, py, pz) := positions in
  (- 2 ^ 63 <= px * IZR (resolution - 1) < 2 ^ 63) /\
  (- 2 ^ 63 <= py * IZR (resolution - 1) < 2 ^ 63) /\
  (- 2 ^ 63 <= pz * IZR (resolution - 1) < 2 ^ 63).

(** [HashEncoding.forward] on one position in [[-1, 1]^3];
    [torch.cat] of an empty list raises. *)
Definition HashEncoding_forward (h : HashEncoding) (positions : vec3)
  : option (list R) :=
  let '(x, y, z) := positions in
  let positions := ((x + 1) * 0.5, (y + 1) * 0.5, (z + 1) * 0.5) in
  match all_some
          (map (fun resolution => forward_level h resolution positions)
               (resolutions h)) with
  | Some (f :: fs) => Some (concat (f :: fs))
  | _ => None
  end.

(** [F.normalize(directions, dim=-1)]: division by
    [max(norm, 1e-12)] (torch's default [eps]). *)
Definition norm_eps : R := 1e-12.

Definition norm (v : vec3) : R :=
  let '(x, y, z) := v in sqrt (x * x + y * y + z * z).

Definition normalize (v : vec3) : vec3 :=
  let '(x, y, z) := v in
  let d := Rmax (norm v) norm_eps in
  (x / d, y / d, z / d).

Record SphericalHarmonicsEncoding : Type := mkSH {
  degree : Z;
  output_dim : Z
}.

(** [SphericalHarmonicsEncoding.__init__]. *)
Definition SphericalHarmonicsEncoding_init (degree : Z)
  : SphericalHarmonicsEncoding :=
  mkSH degree ((degree + 1) ^ 2)%Z.

(** The feature list built by [SphericalHarmonicsEncoding.forward],
    band by band, before the final slice. *)
Definition sh_features (degree : Z) (x y z : R) : list R :=
  [1 * 0.28209479177387814]
  ++ (if (1 <=? degree)%Z then
        [-0.48860251190291987 * y;
         0.48860251190291987 * z;
         -0.48860251190291987 * x]
      else [])
  ++ (if (2 <=? degree)%Z then
        [1.0925484305920792 * x * y;
         -1.0925484305920792 * y * z;
         0.31539156525252005 * (3 * z ^ 2 - 1);
         -1.0925484305920792 * x * z;
         0.5462742152960396 * (x ^ 2 - y ^ 2)]
      else [])
  ++ (if (3 <=? degree)%Z then
        [-0.5900435899266435 * y * (3 * x ^ 2 - y ^ 2);
         2.890611442640554 * x * y * z;
         -0.4570457994644658 * y * (5 * z ^ 2 - 1);
         0.3731763325901154 * z * (5 * z ^ 2 - 3);
         -0.4570457994644658 * x * (5 * z ^ 2 - 1);
         1.445305721320277 * z * (x ^ 2 - y ^ 2);
         -0.5900435899266435 * x * (x ^ 2 - 3 * y ^ 2)]
      else [])
  ++ (if (4 <=? degree)%Z then
        [2.5033429417967046 * x * y * (x ^ 2 - y ^ 2);
         -1.7701307697799304 * y * z * (3 * x ^ 2 - y ^ 2);
         0.9461746957575601 * x * y * (7 * z ^ 2 - 1);
         -0.6690465435572892 * y * z * (7 * z ^ 2 - 3);
         0.10578554691520431 * (35 * z ^ 4 - 30 * z ^ 2 + 3);
         -0.6690465435572892 * x * z * (7 * z ^ 2 - 3);
         0.47308734787878004 * (x ^ 2 - y ^ 2) * (7 * z ^ 2 - 1);
         -1.7701307697799304 * x * z * (x ^ 2 - 3 * y ^ 2);
         0.6258357354491761 * (x ^ 4 - 6 * x ^ 2 * y ^ 2 + y ^ 4)]
      else []).

(** [SphericalHarmonicsEncoding.forward] on one direction:
    [torch.stack(features[:self.output_dim])]; stacking an empty list
    raises. *)
Definition SphericalHarmonicsEncoding_forward
  (e : SphericalHarmonicsEncoding) (directions : vec3) : option (list R) :=
  let '(x, y, z) := normalize directions in
  match firstn (Z.to_nat (output_dim e)) (sh_features (degree e) x y z) with
  | [] => None
  | fs => Some fs
  end.

(** Loops with [break]. *)
Inductive control : Type := Next | Break.

Fixpoint for_range {St : Type} (body : nat -> St -> St * control)
  (range : list nat) (s : St) : St :=
  match range with
  | [] => s
  | i :: rest =>
      match body i s with
      | (s', Break) => s'
      | (s', Next) => for_range body rest s'
      end
  end.

(** [transmittance[..., i] = v]. *)
Fixpoint set_nth (i : nat) (v : R) (l : list R) : list R :=
  match l, i with
  | [], _ => []
  | _ :: r, O => v :: r
  | x :: r, S i' => x :: set_nth i' v r
  end.

(** [transmittance[early_term_mask, i:] = 0.0] on a row whose mask
    entry is [mask]. *)
Definition zero_from (mask : bool) (i : nat) (l : list R) : list R :=
  if mask then firstn i l ++ zeros_like (skipn i l) else l.

(** The body of the loop of [volume_render_optimized] for one row:
    the update for [i > 0], the mask test on [accumulated_alpha], the
    masked assignment, and the [break] that ends the body. *)
Definition early_term_body (al : list R) (accumulated_alpha : R)
  (i : nat) (tr : list R) : list R * control :=
  let tr :=
    if (0 <? i)%nat
    then set_nth i (nth (i - 1) tr 0 * (1 - nth (i - 1) al 0)) tr
    else tr in
  let early_term_mask := Rgtb accumulated_alpha 0.99 in
  (zero_from early_term_mask i tr, Break).

(** The transmittance that [volume_render_optimized] uses:
    [ones_like(alpha)] passed through the loop, with
    [accumulated_alpha = zeros_like(alpha[..., 0])]. *)
Definition transmittance_optimized (al : list R) : list R :=
  for_range (early_term_body al 0) (seq 0 (length al)) (ones_like al).

(** One row of [InstantNGP.volume_render_optimized].  The read
    [alpha[..., 0]] raises when the sample axis of [alpha] is empty. *)
Definition volume_render_optimized_row (scene : SceneConfig)
  (colors : list vec3) (densities t_vals : list R) : option (list R) :=
  let al := Nerf.alpha densities t_vals in
  match al with
  | [] => None
  | _ :: _ =>
      let weights := map2 Rmult al (transmittance_optimized al) in
      let rgb := vsum (map2 vscale weights colors) in
      let acc_alpha := sum weights in
      let rgb :=
        if use_white_background scene
        then vadd rgb (1 - acc_alpha, 1 - acc_alpha, 1 - acc_alpha)
        else rgb in
      let '(r, g, b) := rgb in
      Some [r; g; b; acc_alpha]
  end.

(** [InstantNGP.volume_render_optimized] on a batch of [N] rays. *)
Fixpoint volume_render_optimized (scene : SceneConfig)
  (colors : list (list vec3)) (densities t_vals : list (list R))
  : option (list (list R)) :=
  match colors, densities, t_vals with
  | c :: cs, d :: ds, t :: ts =>
      match volume_render_optimized_row scene c d t,
            volume_render_optimized scene cs ds ts with
      | Some r, Some rs => Some (r :: rs)
      | _, _ => None
      end
  | _, _, _ => Some []
  end.

End InstantNGP.

(* ------------------------------------------------------------------ *)
(** * Specification-side vocabulary *)

Module Spec.

(** The accumulated alpha of a rendered row [[r; g; b; a]]. *)
Definition acc_alpha_of (row : list R) : R := nth 3 row 0.

(** The row an empty scene renders to, as the specification has it:
    the configured background colour, fully transparent. *)
Definition background_row (scene : SceneConfig) : list R :=
  let '(r, g, b) := background_color scene in [r; g; b; 0].

(** The background the integrators composite: white when the flag is
    set, nothing otherwise. *)
Definition flag_background (scene : SceneConfig) : R :=
  if use_white_background scene then 1 else 0.

(** The early-termination tolerance of the specification. *)
Definition early_term_tol : R := 1e-3.

(** Entrywise agreement up to [tol]. *)
Definition close_to (tol : R) (l1 l2 : list R) : Prop :=
  Forall2 (fun a b => Rabs (a - b) <= tol) l1 l2.

End Spec.

(* ------------------------------------------------------------------ *)
(** * Positional encoding, perceptrons and position queries
      ([models/nerf.py]) *)

Module Networks.

(** [SceneConfig.get_bounds_tensor]: the six bounds as a minimum and a
    maximum corner. *)
Definition get_bounds_tensor (bounds : R * R * R * R * R * R) : vec3 * vec3 :=
  let '(b0, b1, b2, b3, b4, b5) := bounds in ((b0, b1, b2), (b3, b4, b5)).

(** [NerfModel.normalize_positions]:
    [2.0 * (positions - min_bound) / (max_bound - min_bound) - 1.0].
    On an axis of zero extent the code divides by zero and returns an
    infinity or a NaN; the values below are those of the code on boxes
    of non-zero extent. *)
Definition normalize_positions (bounds : vec3 * vec3) (positions : vec3)
  : vec3 :=
  let '((lx, ly, lz), (hx, hy, hz)) := bounds in
  let '(x, y, z) := positions in
  (2 * (x - lx) / (hx - lx) - 1,
   2 * (y - ly) / (hy - ly) - 1,
   2 * (z - lz) / (hz - lz) - 1).

(** The scene boxes on which [normalize_positions] divides by a
    non-zero extent on every axis. *)
Definition nondegenerate (bounds : vec3 * vec3) : Prop :=
  let '((lx, ly, lz), (hx, hy, hz)) := bounds in
  lx <> hx /\ ly <> hy /\ lz <> hz.

Record PositionalEncoding : Type := mkPositionalEncoding {
  input_dim : Z;
  num_levels : nat;
  include_input : bool;
  output_dim : Z;
  freq_bands : list R
}.

(** [PositionalEncoding.__init__]: the announced width and the bands
    [2.0 ** torch.linspace(0, num_levels - 1, num_levels)]. *)
Definition PositionalEncoding_init (input_dim : Z) (num_levels : nat)
  (include_input : bool) : PositionalEncoding :=
  let output_dim := (if include_input then input_dim else 0)%Z in
  let output_dim := (output_dim + 2 * input_dim * Z.of_nat num_levels)%Z in
  let freq_bands :=
    map (fun e => Rpower 2 e)
        (Nerf.linspace 0 (IZR (Z.of_nat num_levels - 1)) num_levels) in
  mkPositionalEncoding input_dim num_levels include_input output_dim
    freq_bands.

(** [PositionalEncoding.forward] on one coordinate row; [torch.cat] of
    an empty list raises. *)
Definition PositionalEncoding_forward (pe : PositionalEncoding)
  (coords : list R) : option (list R) :=
  let encoded :=
    (if include_input pe then [coords] else [])
    ++ flat_map (fun freq =>
                   [map (fun c => sin (c * freq)) coords;
                    map (fun c => cos (c * freq)) coords])
                (freq_bands pe) in
  match encoded with
  | [] => None
  | _ :: _ => Some (concat encoded)
  end.

(** The two activations [MLP] accepts. *)
Inductive activation_fn : Type := Relu | LeakyRelu.

(** [F.relu] and [F.leaky_relu] (default slope 0.01). *)
Definition apply_activation (a : activation_fn) (x : R) : R :=
  match a with
  | Relu => Rmax 0 x
  | LeakyRelu => Rmax 0 x + 0.01 * Rmin 0 x
  end.

(** [nn.Linear]: [weight] has [out_features] rows of [in_features]
    entries, [bias] has [out_features] entries. *)
Record Linear : Type := mkLinear {
  in_features : nat;
  out_features : nat;
  weight : list (list R);
  bias : list R
}.

Definition dot (x row : list R) : R := sum (map2 Rmult x row).

(** [F.linear]: [x A^T + b]; an input of the wrong width raises. *)
Definition Linear_forward (l : Linear) (x : list R) : option (list R) :=
  if (length x =? in_features l)%nat
  then Some (map2 (fun row b => dot x row + b) (weight l) (bias l))
  else None.

Record MLP : Type := mkMLP {
  mlp_input_dim : nat;
  mlp_output_dim : nat;
  hidden_dim : nat;
  mlp_num_layers : nat;
  skip_connections : list nat;
  activation : activation_fn;
  layers : list Linear
}.

(** The widths [MLP.__init__] gives to layer [i]. *)
Definition layer_input_dim (input_dim hidden_dim : nat) (skips : list nat)
  (i : nat) : nat :=
  if (i =? 0)%nat then input_dim
  else if existsb (Nat.eqb i) skips then (hidden_dim + input_dim)%nat
  else hidden_dim.

Definition layer_output_dim (output_dim hidden_dim num_layers : nat)
  (i : nat) : nat :=
  if (i =? num_layers - 1)%nat then output_dim else hidden_dim.

(** [skip_connections or []]. *)
Definition or_empty (skip_connections : option (list nat)) : list nat :=
  match skip_connections with Some l => l | None => [] end.

(** The shapes [nn.Linear] gives its parameters: entry [j] of [params]
    belongs to layer [k + j], whose weight has one row per output and
    whose bias has one entry per output. *)
Definition well_shaped (output_dim hidden_dim num_layers k : nat)
  (params : list (list (list R) * list R)) : Prop :=
  forall j w b, nth_error params j = Some (w, b) ->
    length w = layer_output_dim output_dim hidden_dim num_layers (k + j) /\
    length b = layer_output_dim output_dim hidden_dim num_layers (k + j).

(** [MLP.__init__] once the activation name is resolved.  [params] are
    the initial weights and biases of the [nn.Linear] layers, in
    order. *)
Definition MLP_init (input_dim output_dim hidden_dim num_layers : nat)
  (skip_connections : option (list nat)) (activation : activation_fn)
  (params : list (list (list R) * list R)) : MLP :=
  let skips := or_empty skip_connections in
  mkMLP input_dim output_dim hidden_dim num_layers skips activation
    (map2 (fun i wb =>
             mkLinear (layer_input_dim input_dim hidden_dim skips i)
                      (layer_output_dim output_dim hidden_dim num_layers i)
                      (fst wb) (snd wb))
          (seq 0 num_layers) params).

(** The loop of [MLP.forward] from layer [i] on. *)
Fixpoint MLP_forward_from (m : MLP) (input_x : list R) (i : nat)
  (rest : list Linear) (x : list R) : option (list R) :=
  match rest with
  | [] => Some x
  | layer :: rest' =>
      let x :=
        if existsb (Nat.eqb i) (skip_connections m) && (0 <? i)%nat
        then x ++ input_x else x in
      match Linear_forward layer x with
      | None => None
      | Some x =>
          let x :=
            if (S i <? length (layers m))%nat
            then map (apply_activation (activation m)) x else x in
          MLP_forward_from m input_x (S i) rest' x
      end
  end.

(** [MLP.forward]. *)
Definition MLP_forward (m : MLP) (x : list R) : option (list R) :=
  MLP_forward_from m x 0 (layers m) x.

(** [torch.sigmoid] and [F.softplus] (defaults: beta 1, threshold 20). *)
Definition sigmoid (x : R) : R := 1 / (1 + exp (- x)).

Definition softplus (x : R) : R :=
  if Rgt_dec x 20 then x else ln (1 + exp x).

(** The fields of [ModelConfig] that only [NerfModel.__init__] reads. *)
Record NerfArch : Type := mkNerfArch {
  positional_encoding_levels : nat;
  direction_encoding_levels : nat;
  skips : list nat
}.

Record NerfModel : Type := mkNerfModel {
  config : ModelConfig;
  scene_bounds : vec3 * vec3;
  pos_encoding : PositionalEncoding;
  dir_encoding : option PositionalEncoding;
  density_network : MLP;
  color_network : MLP
}.

(** [NerfModel.__init__]; the two parameter lists are the initial
    weights of the density and the colour network. *)
Definition NerfModel_init (config : ModelConfig) (arch : NerfArch)
  (scene_bounds : vec3 * vec3)
  (density_params color_params : list (list (list R) * list R))
  : NerfModel :=
  let pos_encoding :=
    PositionalEncoding_init 3 (positional_encoding_levels arch) true in
  let dir_encoding :=
    if use_viewdirs config
    then Some (PositionalEncoding_init 3 (direction_encoding_levels arch)
                 true)
    else None in
  let width := Z.to_nat (network_width config) in
  let density_network :=
    MLP_init (Z.to_nat (output_dim pos_encoding)) (width + 1) width
      (Z.to_nat (network_depth config)) (Some (skips arch)) Relu
      density_params in
  let color_input_dim :=
    match dir_encoding with
    | Some d => (width + Z.to_nat (output_dim d))%nat
    | None => width
    end in
  let color_network :=
    MLP_init color_input_dim 3 (Z.to_nat (network_width config / 2)) 2
      None Relu color_params in
  mkNerfModel config scene_bounds pos_encoding dir_encoding
    density_network color_network.

(** [NerfModel.query_density_features] on one position. *)
Definition query_density_features (model : NerfModel) (positions : vec3)
  : option (list R) :=
  let '(x, y, z) := normalize_positions (scene_bounds model) positions in
  match PositionalEncoding_forward (pos_encoding model) [x; y; z] with
  | None => None
  | Some pos_encoded =>
      match MLP_forward (density_network model) pos_encoded with
      | None => None
      | Some density_features =>
          Some (map (Rmax 0) (firstn 1 density_features)
                ++ skipn 1 density_features)
      end
  end.

(** [NerfModel.query_colors] on one sample: [directions] is [None]
    when the caller passes no view direction. *)
Definition query_colors (model : NerfModel) (features : list R)
  (directions : option vec3) : option (list R) :=
  let color_input :=
    match directions, dir_encoding model with
    | Some (x, y, z), Some d =>
        if use_viewdirs (config model)
        then match PositionalEncoding_forward d [x; y; z] with
             | Some dir_encoded => Some (features ++ dir_encoded)
             | None => None
             end
        else Some features
    | Some _, None =>
        if use_viewdirs (config model) then None else Some features
    | None, _ => Some features
    end in
  match color_input with
  | None => None
  | Some color_input =>
      match MLP_forward (color_network model) color_input with
      | None => None
      | Some colors => Some (map sigmoid colors)
      end
  end.

End Networks.

(* ------------------------------------------------------------------ *)
(** * The Instant-NGP model: networks, queries and the forward pass
      ([models/instant_ngp.py]) *)

Module NGP.

Import Networks.

(** The modules of an [nn.Sequential]. *)
Inductive module : Type :=
| Lin : Linear -> module
| ReLU : module.

(** [nn.Sequential.forward]. *)
Fixpoint sequential_forward (ms : list module) (x : list R)
  : option (list R) :=
  match ms with
  | [] => Some x
  | Lin l :: rest =>
      match Linear_forward l x with
      | Some y => sequential_forward rest y
      | None => None
      end
  | ReLU :: rest => sequential_forward rest (map (Rmax 0) x)
  end.

Record InstantNGP : Type := mkInstantNGP {
  config : ModelConfig;
  scene_config : SceneConfig;
  scene_bounds : vec3 * vec3;
  hash_encoding : InstantNGP.HashEncoding;
  direction_encoding : InstantNGP.SphericalHarmonicsEncoding;
  sigma_network : list module;
  color_network : list module
}.

(** The shapes [nn.Linear] gives the parameters of a layer with
    [out] outputs. *)
Definition layer_shape (out : nat) (wb : list (list R) * list R) : Prop :=
  length (fst wb) = out /\ length (snd wb) = out.

(** [InstantNGP.__init__].  [randn] is the draw of the hash table, and
    the parameter pairs are the weights and biases of the two layers of
    the density network and of the three layers of the colour
    network. *)
Definition InstantNGP_model_init (config : ModelConfig)
  (scene_config : SceneConfig) (scene_bounds : vec3 * vec3)
  (randn : list (list R))
  (sigma0 sigma1 color0 color1 color2 : list (list R) * list R)
  : result InstantNGP :=
  match InstantNGP.InstantNGP_init config randn with
  | ValueError => ValueError
  | Ok hash_encoding =>
      let direction_encoding :=
        InstantNGP.SphericalHarmonicsEncoding_init 4 in
      let hash_features :=
        Z.to_nat (InstantNGP.num_levels hash_encoding
                  * InstantNGP.feature_dim hash_encoding) in
      let width := Z.to_nat (network_width config) in
      let sigma_network :=
        [Lin (mkLinear hash_features width (fst sigma0) (snd sigma0));
         ReLU;
         Lin (mkLinear width 16 (fst sigma1) (snd sigma1))] in
      let color_input_dim :=
        if use_viewdirs config
        then (15 + Z.to_nat (InstantNGP.output_dim direction_encoding))%nat
        else 15%nat in
      let color_network :=
        [Lin (mkLinear color_input_dim width (fst color0) (snd color0));
         ReLU;
         Lin (mkLinear width width (fst color1) (snd color1));
         ReLU;
         Lin (mkLinear width 3 (fst color2) (snd color2))] in
      Ok (mkInstantNGP config scene_config scene_bounds hash_encoding
            direction_encoding sigma_network color_network)
  end.

(** [InstantNGP.query_density_geometry] on one position. *)
Definition query_density_geometry (model : InstantNGP) (positions : vec3)
  : option (list R) :=
  let positions_norm := normalize_positions (scene_bounds model) positions in
  match InstantNGP.HashEncoding_forward (hash_encoding model)
          positions_norm with
  | None => None
  | Some hash_features =>
      match sequential_forward (sigma_network model) hash_features with
      | None => None
      | Some density_geo =>
          Some (map (fun d => softplus (d - 1)) (firstn 1 density_geo)
                ++ skipn 1 density_geo)
      end
  end.

(** [InstantNGP.query_colors_ngp] on one sample. *)
Definition query_colors_ngp (model : InstantNGP) (geo_features : list R)
  (directions : option vec3) : option (list R) :=
  let color_input :=
    match directions with
    | Some d =>
        if use_viewdirs (config model)
        then match InstantNGP.SphericalHarmonicsEncoding_forward
                     (direction_encoding model) d with
             | Some dir_encoded => Some (geo_features ++ dir_encoded)
             | None => None
             end
        else Some geo_features
    | None => Some geo_features
    end in
  match color_input with
  | None => None
  | Some color_input =>
      match sequential_forward (color_network model) color_input with
      | None => None
      | Some colors => Some (map sigmoid colors)
      end
  end.

(** Sequencing of per-sample queries that may raise. *)
Definition for_each_sample {A B : Type} (f : A -> option B) (l : list A)
  : option (list B) :=
  InstantNGP.all_some (map f l).

(** [density_geo[..., 0]] and [density_geo[..., 1:]] on one sample;
    indexing an empty row raises. *)
Definition split_density (density_geo : list R) : option (R * list R) :=
  match density_geo with
  | [] => None
  | d :: geo => Some (d, geo)
  end.

(** A colour row as an RGB triple; the reshape to [(N, S, 3)] raises on
    any other width. *)
Definition as_rgb (c : list R) : option vec3 :=
  match c with
  | [r; g; b] => Some (r, g, b)
  | _ => None
  end.

(** [InstantNGP.forward] on one ray.  [training] is [self.training]
    and [rand] the ray's row of [torch.rand_like(t_vals)]. *)
Definition forward_ray (model : InstantNGP) (training : bool)
  (ray_origin ray_direction : vec3) (near far : R) (num_samples : nat)
  (use_viewdirs_arg : bool) (rand : list R) : option (list R) :=
  let t_vals := Nerf.forward_t_vals training near far num_samples rand in
  let ray_directions_norm := InstantNGP.normalize ray_direction in
  let sample_positions :=
    map (fun t =>
           let '(o0, o1, o2) := ray_origin in
           let '(d0, d1, d2) := ray_directions_norm in
           (o0 + d0 * t, o1 + d1 * t, o2 + d2 * t))
        t_vals in
  match for_each_sample (query_density_geometry model) sample_positions with
  | None => None
  | Some density_geo =>
      match for_each_sample split_density density_geo with
      | None => None
      | Some split =>
          let densities := map fst split in
          let geo_features := map snd split in
          let directions :=
            if use_viewdirs_arg && use_viewdirs (config model)
            then Some ray_directions_norm else None in
          match for_each_sample
                  (fun g => query_colors_ngp model g directions)
                  geo_features with
          | None => None
          | Some colors =>
              match for_each_sample as_rgb colors with
              | None => None
              | Some colors =>
                  InstantNGP.volume_render_optimized_row
                    (scene_config model) colors densities t_vals
              end
          end
      end
  end.

End NGP.

(* ------------------------------------------------------------------ *)
(** * Quality presets, training configuration and image size
      ([models/nerf.py], [core/config.py]) *)

Module Settings.

Import String.

Definition with_max_samples (c : ModelConfig) (n : Z) : ModelConfig :=
  mkModelConfig (network_width c) (network_depth c) (Config.hashmap_size c)
    (Config.max_resolution c) (Config.base_resolution c)
    (log2_hashmap_size c) n (near_plane c) (far_plane c) (use_viewdirs c).

(** [NerfModel.set_quality], on the configuration it mutates. *)
Definition set_quality (quality : string) (c : ModelConfig)
  : result ModelConfig :=
  if (quality =? "low")%string then Ok (with_max_samples c 32)
  else if (quality =? "medium")%string then Ok (with_max_samples c 64)
  else if (quality =? "high")%string then Ok (with_max_samples c 128)
  else ValueError.

(** The fields of [TrainingConfig] that its validator reads. *)
Record TrainingConfig : Type := mkTrainingConfig {
  max_epochs : Z;
  batch_size : Z;
  learning_rate : R;
  device : string
}.

(** [TrainingConfig.__post_init__]; the two flags are
    [torch.cuda.is_available()] and
    [torch.backends.mps.is_available()]. *)
Definition TrainingConfig_post_init (cuda_available mps_available : bool)
  (c : TrainingConfig) : result TrainingConfig :=
  let device :=
    if (device c =? "auto")%string
    then if cuda_available then "cuda"%string
         else if mps_available then "mps"%string
         else "cpu"%string
    else device c in
  let c :=
    mkTrainingConfig (max_epochs c) (batch_size c) (learning_rate c) device in
  if (batch_size c <=? 0)%Z then ValueError
  else if Rle_dec (learning_rate c) 0 then ValueError
  else if (max_epochs c <=? 0)%Z then ValueError
  else Ok c.

(** [SceneConfig.get_image_size]:
    [(int(width * resize_factor), int(height * resize_factor))], with
    the product taken exactly; the float product can fall on the other
    side of an integer, which moves the result by one. *)
Definition get_image_size (image_width image_height : Z)
  (resize_factor : R) : Z * Z :=
  (InstantNGP.trunc (IZR image_width * resize_factor),
   InstantNGP.trunc (IZR image_height * resize_factor)).

End Settings.

(* ------------------------------------------------------------------ *)
(** * Scene geometry ([core/scene.py]) *)

Module SceneGeometry.

Definition vsub (a b : vec3) : vec3 :=
  let '(a0, a1, a2) := a in
  let '(b0, b1, b2) := b in
  (a0 - b0, a1 - b1, a2 - b2).

Definition vmin (a b : vec3) : vec3 :=
  let '(a0, a1, a2) := a in
  let '(b0, b1, b2) := b in
  (Rmin a0 b0, Rmin a1 b1, Rmin a2 b2).

Definition vmax (a b : vec3) : vec3 :=
  let '(a0, a1, a2) := a in
  let '(b0, b1, b2) := b in
  (Rmax a0 b0, Rmax a1 b1, Rmax a2 b2).

(** Componentwise order. *)
Definition vle (a b : vec3) : Prop :=
  let '(a0, a1, a2) := a in
  let '(b0, b1, b2) := b in
  a0 <= b0 /\ a1 <= b1 /\ a2 <= b2.

(** [Scene._quat_to_rotmat]: the three rows of the matrix. *)
Definition _quat_to_rotmat (quat : R * R * R * R) : vec3 * vec3 * vec3 :=
  let '(w, x, y, z) := quat in
  ((1 - 2*y*y - 2*z*z, 2*x*y - 2*z*w, 2*x*z + 2*y*w),
   (2*x*y + 2*z*w, 1 - 2*x*x - 2*z*z, 2*y*z - 2*x*w),
   (2*x*z - 2*y*w, 2*y*z + 2*x*w, 1 - 2*x*x - 2*y*y)).

Definition vdot (a b : vec3) : R :=
  let '(a0, a1, a2) := a in
  let '(b0, b1, b2) := b in
  a0 * b0 + a1 * b1 + a2 * b2.

(** [Scene._compute_scene_bounds] on the camera centres: without
    cameras the bounds stay, otherwise they become the box of the
    centres widened by a tenth of its extent on each side. *)
Definition _compute_scene_bounds (bounds : vec3 * vec3)
  (camera_centers : list vec3) : vec3 * vec3 :=
  match camera_centers with
  | [] => bounds
  | c :: rest =>
      let min_bounds := fold_left vmin rest c in
      let max_bounds := fold_left vmax rest c in
      let margin := vscale 0.1 (vsub max_bounds min_bounds) in
      (vsub min_bounds margin, vadd max_bounds margin)
  end.




End SceneGeometry.

(* ------------------------------------------------------------------ *)
(** * Early stopping ([training/trainer.py]) *)

Module Trainer.

(** The training state the stopping rule reads and writes;
    [best_val_loss = None] is the initial [float('inf')]. *)
Record TrainerState : Type := mkTrainerState {
  best_val_loss : option R;
  patience_counter : Z
}.

(** [NerfTrainer._check_early_stopping]: the new state and the
    returned flag. *)
Definition _check_early_stopping (min_delta : R) (patience : Z)
  (val_loss : R) (st : TrainerState) : TrainerState * bool :=
  let improved :=
    match best_val_loss st with
    | None => true
    | Some best => Rltb val_loss (best - min_delta)
    end in
  let counter := if improved then 0%Z else (patience_counter st + 1)%Z in
  (mkTrainerState (best_val_loss st) counter, (patience <=? counter)%Z).

(** The update of [best_val_loss] at the end of
    [NerfTrainer._save_checkpoint]. *)
Definition save_best (val_loss : R) (st : TrainerState) : TrainerState :=
  match best_val_loss st with
  | None => mkTrainerState (Some val_loss) (patience_counter st)
  | Some best =>
      if Rltb val_loss best
      then mkTrainerState (Some val_loss) (patience_counter st)
      else st
  end.

(** The part of the epoch loop of [NerfTrainer.train] that decides
    when training ends.  [losses] holds the validation loss of each
    epoch still to run (the training loss when there is no validation
    set).  Every [save_frequency] epochs the checkpoint updates the
    best loss; then, if enabled, the stopping rule is consulted and a
    positive answer leaves the loop.  The result is the final state and
    the epoch at which the loop was left early, if it was;
    [(epoch + 1) % 0] raises. *)
Fixpoint train_epochs (save_frequency : Z) (use_early_stopping : bool)
  (min_delta : R) (patience : Z) (epoch : Z) (losses : list R)
  (st : TrainerState) : option (TrainerState * option Z) :=
  match losses with
  | [] => Some (st, None)
  | val_loss :: rest =>
      if (save_frequency =? 0)%Z then None
      else
        let st :=
          if ((epoch + 1) mod save_frequency =? 0)%Z
          then save_best val_loss st else st in
        if use_early_stopping
        then match _check_early_stopping min_delta patience val_loss st with
             | (st', true) => Some (st', Some epoch)
             | (st', false) =>
                 train_epochs save_frequency use_early_stopping min_delta
                   patience (epoch + 1) rest st'
             end
        else train_epochs save_frequency use_early_stopping min_delta
               patience (epoch + 1) rest st
  end.

End Trainer.

(* ------------------------------------------------------------------ *)
(** * Floating-point arithmetic and the float32 transmittance *)

Module Float.

(** Binary floating-point formats, read over the reals: a finite
    number of a format with precision [p] is an integer multiple
    [m * 2^e] with [|m| < 2^p] and [emin <= e].  All arithmetic
    rounds to the nearest such number, ties to even. *)

Definition pow2 (e : Z) : R := powerRZ 2 e.

(** Round to the nearest integer, ties to even. *)
Definition rne (z : R) : Z :=
  let f := Int_part z in
  let r := z - IZR f in
  if Rlt_dec r (1 / 2) then f
  else if Rlt_dec (1 / 2) r then (f + 1)%Z
  else if Z.even f then f else (f + 1)%Z.

(** The binade of a positive real: [2^(mag x) <= x < 2^(mag x + 1)]. *)
Definition mag (x : R) : Z := Int_part (ln x / ln 2).

(** A format: its precision, the exponent of its smallest subnormal
    and the exponent of its largest binade. *)
Record format : Type := mkFormat { prec : Z; emin : Z; emax : Z }.

(** [torch.float32] and [torch.float64]. *)
Definition binary32 : format := mkFormat 24 (-149) 127.
Definition binary64 : format := mkFormat 53 (-1074) 1023.

(** The largest finite number. *)
Definition fmax (f : format) : R :=
  (pow2 (prec f) - 1) * pow2 (emax f - prec f + 1).

(** The exponent of the unit in the last place at [x]. *)
Definition ulp_exp (f : format) (x : R) : Z :=
  Z.max (mag x - prec f + 1) (emin f).

Definition round_pos (f : format) (x : R) : R :=
  IZR (rne (x / pow2 (ulp_exp f x))) * pow2 (ulp_exp f x).

(** Rounding to nearest, ties to even, with an unbounded exponent
    range above. *)
Definition round (f : format) (x : R) : R :=
  if Rle_dec 0 x then round_pos f x else - round_pos f (- x).

(** A floating-point datum: a finite number, an infinity or a NaN. *)
Inductive fval : Type :=
| Fin : R -> fval
| PInf : fval
| NInf : fval
| NaN : fval.

(** Rounding of a real result into a format: overflow past the largest
    finite number gives the infinity of its sign. *)
Definition of_R (f : format) (x : R) : fval :=
  let r := round f x in
  if Rle_dec (Rabs r) (fmax f) then Fin r
  else if Rlt_dec 0 x then PInf else NInf.

Definition fneg (v : fval) : fval :=
  match v with
  | Fin r => Fin (- r)
  | PInf => NInf
  | NInf => PInf
  | NaN => NaN
  end.

(** An infinity times a finite number. *)
Definition finf_scale (i : fval) (x : R) : fval :=
  if Req_dec_T x 0 then NaN
  else if Rlt_dec 0 x then i else fneg i.

Definition fmul (f : format) (a b : fval) : fval :=
  match a, b with
  | Fin x, Fin y => of_R f (x * y)
  | NaN, _ => NaN
  | _, NaN => NaN
  | Fin x, i => finf_scale i x
  | i, Fin y => finf_scale i y
  | PInf, PInf => PInf
  | NInf, NInf => PInf
  | PInf, NInf => NInf
  | NInf, PInf => NInf
  end.

Definition fadd (f : format) (a b : fval) : fval :=
  match a, b with
  | Fin x, Fin y => of_R f (x + y)
  | NaN, _ => NaN
  | _, NaN => NaN
  | PInf, NInf => NaN
  | NInf, PInf => NaN
  | PInf, _ => PInf
  | _, PInf => PInf
  | NInf, _ => NInf
  | _, NInf => NInf
  end.

Definition fsub (f : format) (a b : fval) : fval := fadd f a (fneg b).

(** [torch.exp]: [exp_impl] is the library's value on a finite
    argument. *)
Definition fexp (exp_impl : R -> fval) (v : fval) : fval :=
  match v with
  | Fin x => exp_impl x
  | NInf => Fin 0
  | PInf => PInf
  | NaN => NaN
  end.

(** Conversion of a datum to another format. *)
Definition fcast (f : format) (v : fval) : fval :=
  match v with
  | Fin r => of_R f r
  | other => other
  end.


(** The formats in which 1 is a finite number. *)
Definition unit_format (f : format) : Prop :=
  (1 <= prec f)%Z /\ (emin f <= 0)%Z /\ 1 <= fmax f.

End Float.

Module Nerf32.

Import Float.

(** The transmittance of [NerfModel.volume_render] on float32 tensors.
    Every elementwise operation rounds to [binary32].  [acc] is the
    format in which [torch.cumprod] keeps its running product (float
    tensors accumulate in double on CPU and in float on CUDA); each
    running product is stored back as a float32. *)

(** [t[..., 1:] - t[..., :-1]]. *)
Definition diffs (t : list fval) : list fval :=
  map2 (fun a b => fsub binary32 a b) (tl t) (removelast t).

(** [torch.cat([dists, torch.full_like(dists[..., :1], 1e10)])]. *)
Definition dists (t_vals : list fval) : list fval :=
  let d := diffs t_vals in
  d ++ map (fun _ => of_R binary32 1e10) (firstn 1 d).

(** [alpha = 1.0 - torch.exp(-densities * dists)]. *)
Definition alpha (exp_impl : R -> fval) (densities t_vals : list fval)
  : list fval :=
  map2 (fun sigma d =>
          fsub binary32 (Fin 1)
            (fexp exp_impl (fmul binary32 (fneg sigma) d)))
       densities (dists t_vals).

(** [torch.cumprod] along the last axis. *)
Fixpoint cumprod_from (acc : format) (cum : fval) (l : list fval)
  : list fval :=
  match l with
  | [] => []
  | x :: r =>
      let cum := fmul acc cum x in
      fcast binary32 cum :: cumprod_from acc cum r
  end.

Definition cumprod (acc : format) (l : list fval) : list fval :=
  cumprod_from acc (Fin 1) l.

(** [torch.cumprod(cat([ones_like(alpha[..., :1]), 1 - alpha + 1e-10]))[..., :-1]]. *)
Definition transmittance (acc : format) (al : list fval) : list fval :=
  removelast
    (cumprod acc
       (map (fun _ => Fin 1) (firstn 1 al)
        ++ map (fun a => fadd binary32 (fsub binary32 (Fin 1) a)
                           (of_R binary32 1e-10)) al)).

End Nerf32.

(* ------------------------------------------------------------------ *)
(** * Facts about the tensor primitives *)

Import Nerf.

Section TensorFacts.

Lemma Rle_dec_true (a b : R) (T : Type) (x y : T) :
  a <= b -> (if Rle_dec a b then x else y) = x.
Proof. intros H; destruct (Rle_dec a b); [reflexivity | contradiction]. Qed.

Lemma Rle_dec_false (a b : R) (T : Type) (x y : T) :
  b < a -> (if Rle_dec a b then x else y) = y.
Proof. intros H; destruct (Rle_dec a b); [lra | reflexivity]. Qed.

Lemma Rgtb_false (a b : R) : a <= b -> Rgtb a b = false.
Proof. intros H; unfold Rgtb; destruct (Rgt_dec a b); [lra | reflexivity]. Qed.


Lemma Rltb_false (a b : R) : b <= a -> Rltb a b = false.
Proof. intros H; unfold Rltb; destruct (Rlt_dec a b); [lra | reflexivity]. Qed.

Lemma map2_length {A B C : Type} (f : A -> B -> C) (l1 : list A) (l2 : list B) :
  length (map2 f l1 l2) = Nat.min (length l1) (length l2).
Proof.
  revert l2; induction l1 as [|a r IH]; intros [|b r2]; simpl; auto.
Qed.

Lemma map2_Forall {A B C : Type} (f : A -> B -> C)
  (P : A -> Prop) (Q : B -> Prop) (S : C -> Prop) :
  (forall a b, P a -> Q b -> S (f a b)) ->
  forall l1 l2, Forall P l1 -> Forall Q l2 -> Forall S (map2 f l1 l2).
Proof.
  intros Hf l1; induction l1 as [|a r IH]; intros [|b r2] H1 H2;
    simpl; try constructor.
  - inversion H1; inversion H2; subst; auto.
  - inversion H1; inversion H2; subst; auto.
Qed.

Lemma map2_Forall_l {A B C : Type} (f : A -> B -> C)
  (P : A -> Prop) (S : C -> Prop) :
  (forall a b, P a -> S (f a b)) ->
  forall l1 l2, Forall P l1 -> Forall S (map2 f l1 l2).
Proof.
  intros Hf l1 l2 H1.
  apply (map2_Forall f P (fun _ => True) S); auto.
  apply Forall_forall; auto.
Qed.

Lemma clampZ_fixed_upper (x hi : Z) :
  (0 <= x <= hi)%Z -> clampZ x 0 hi = x.
Proof. intros H. unfold clampZ. lia. Qed.

Lemma diffs_cons2 (a b : R) (r : list R) :
  diffs (a :: b :: r) = (b - a) :: diffs (b :: r).
Proof. reflexivity. Qed.

Lemma diffs_nonneg (t : list R) :
  Sorted Rle t -> Forall (fun d => 0 <= d) (diffs t).
Proof.
  induction t as [|a [|b r] IH]; intros Hs.
  - constructor.
  - constructor.
  - rewrite diffs_cons2. inversion Hs as [|? ? Hs' Hhd]; subst.
    constructor.
    + inversion Hhd; subst. lra.
    + apply IH, Hs'.
Qed.

Lemma dists_nonneg (t : list R) :
  Sorted Rle t -> Forall (fun d => 0 <= d) (dists t).
Proof.
  intros Hs. unfold dists. apply Forall_app; split.
  - apply diffs_nonneg, Hs.
  - unfold full_like. apply Forall_forall. intros x Hx.
    apply in_map_iff in Hx. destruct Hx as [_ [<- _]].
    unfold sentinel. lra.
Qed.

Lemma dists_length (t : list R) :
  (2 <= length t)%nat -> length (dists t) = length t.
Proof.
  assert (Hrl : forall (x : R) l, length (removelast (x :: l)) = length l).
  { intros x l; revert x; induction l as [|y l IH]; intros x; [reflexivity|].
    change (removelast (x :: y :: l)) with (x :: removelast (y :: l)).
    cbn [length]. rewrite IH. reflexivity. }
  destruct t as [|a [|b r]]; intros H; simpl in H; try lia.
  unfold dists. rewrite diffs_cons2.
  change (first1 ((b - a) :: diffs (b :: r))) with [b - a].
  rewrite length_app. unfold diffs. simpl tl.
  cbn [length]. rewrite map2_length, Hrl. unfold full_like.
  cbn [length map]. lia.
Qed.

Lemma sum_zero (l : list R) : Forall (fun w => w = 0) l -> sum l = 0.
Proof.
  induction 1 as [|w r Hw _ IH]; simpl; [reflexivity|].
  fold (sum r). rewrite Hw, IH. lra.
Qed.

Lemma vsum_zero (ws : list R) (cs : list vec3) :
  Forall (fun w => w = 0) ws -> vsum (map2 vscale ws cs) = vzero.
Proof.
  intros H; revert cs; induction H as [|w r Hw _ IH]; intros [|[[c0 c1] c2] cs];
    simpl; try reflexivity.
  fold (vsum (map2 vscale r cs)). rewrite IH, Hw. unfold vadd, vzero.
  repeat f_equal; lra.
Qed.

End TensorFacts.

(* ------------------------------------------------------------------ *)
(** * The integrator *)

Section Integrator.

Lemma removelast_scan (f : R -> R) (al : list R) (acc : R) :
  removelast (acc :: scan Rmult acc (map f al)) = running_product f acc al.
Proof.
  revert acc; induction al as [|a r IH]; intros acc; [reflexivity|].
  cbn [map scan running_product].
  change (removelast (acc :: acc * f a :: scan Rmult (acc * f a) (map f r)))
    with (acc :: removelast (acc * f a :: scan Rmult (acc * f a) (map f r))).
  rewrite IH. reflexivity.
Qed.

(** The transmittance of [volume_render] follows the recurrence with
    factor [1 - alpha + 1e-10], started at 1. *)
Lemma transmittance_running_product (al : list R) :
  transmittance al = running_product (fun a => 1 - a + trans_eps) 1 al.
Proof.
  destruct al as [|a r]; [reflexivity|].
  unfold transmittance, ones_like, full_like, first1.
  cbn [firstn map app cumprod].
  apply (removelast_scan (fun a => 1 - a + trans_eps) (a :: r) 1).
Qed.

Lemma running_product_step (f : R -> R) (al : list R) :
  forall acc i Ti Tj,
    nth_error (running_product f acc al) i = Some Ti ->
    nth_error (running_product f acc al) (S i) = Some Tj ->
    exists a, nth_error al i = Some a /\ Tj = Ti * f a.
Proof.
  induction al as [|a r IH]; intros acc i Ti Tj Hi Hj.
  - destruct i; discriminate.
  - destruct i as [|i].
    + cbn in Hi. injection Hi as <-.
      destruct r as [|b r]; cbn in Hj; [discriminate|].
      injection Hj as <-. exists a. split; reflexivity.
    + cbn in Hi, Hj. cbn [nth_error]. eapply IH; eassumption.
Qed.

Lemma running_product_pos (f : R -> R) (al : list R) :
  Forall (fun a => 0 < f a) al ->
  forall acc, 0 < acc -> Forall (fun T => 0 < T) (running_product f acc al).
Proof.
  induction 1 as [|a r Ha _ IH]; intros acc Hacc; cbn; constructor; auto.
  apply IH. apply Rmult_lt_0_compat; assumption.
Qed.

Lemma running_product_head (f : R -> R) (a : R) (r : list R) (acc : R) :
  nth_error (running_product f acc (a :: r)) 0 = Some acc.
Proof. reflexivity. Qed.

(** With a non-negative density over a non-negative interval the
    opacity lies in [[0, 1)]. *)
Lemma alpha_entry_range (sigma d : R) :
  0 <= sigma -> 0 <= d -> 0 <= 1 - exp (- sigma * d) < 1.
Proof.
  intros Hs Hd. pose proof (exp_pos (- sigma * d)) as Hp.
  assert (Hle : exp (- sigma * d) <= 1).
  { rewrite <- exp_0.
    destruct (Req_dec (- sigma * d) 0) as [-> | Hne]; [lra|].
    left. apply exp_increasing. nra. }
  lra.
Qed.

Lemma alpha_range (densities t_vals : list R) :
  Forall (fun s => 0 <= s) densities -> Sorted Rle t_vals ->
  Forall (fun a => 0 <= a < 1) (alpha densities t_vals).
Proof.
  intros Hd Ht. unfold alpha.
  apply (map2_Forall _ (fun s => 0 <= s) (fun d => 0 <= d)); auto.
  - intros; apply alpha_entry_range; assumption.
  - apply dists_nonneg, Ht.
Qed.

Lemma alpha_zero (densities t_vals : list R) :
  Forall (fun s => s = 0) densities ->
  Forall (fun a => a = 0) (alpha densities t_vals).
Proof.
  intros Hd. unfold alpha.
  apply (map2_Forall_l _ (fun s => s = 0)); auto.
  intros s d ->. replace (- 0 * d) with 0 by lra. rewrite exp_0. lra.
Qed.

(** The loop of [volume_render_optimized] runs its body once, with the
    mask [0 > 0.99] false everywhere, and leaves [ones_like(alpha)]. *)
Lemma transmittance_optimized_ones (al : list R) :
  InstantNGP.transmittance_optimized al = ones_like al.
Proof.
  unfold InstantNGP.transmittance_optimized.
  destruct al as [|a r]; [reflexivity|].
  cbn [length seq InstantNGP.for_range InstantNGP.early_term_body Nat.ltb Nat.leb].
  rewrite Rgtb_false by lra. reflexivity.
Qed.

(** Row [i] of the batched renderer is the row renderer on the
    [i]-th ray. *)
Lemma volume_render_rows (scene : SceneConfig) (colors : list (list vec3)) :
  forall (densities t_vals : list (list R)) (i : nat) c d t,
    nth_error colors i = Some c ->
    nth_error densities i = Some d ->
    nth_error t_vals i = Some t ->
    nth_error (volume_render scene colors densities t_vals) i
    = Some (volume_render_row scene c d t).
Proof.
  induction colors as [|c0 cs IH]; intros [|d0 ds] [|t0 ts] [|i] c d t Hc Hd Ht;
    try discriminate.
  - cbn in *. congruence.
  - cbn in *. apply IH; assumption.
Qed.

End Integrator.

(* ------------------------------------------------------------------ *)
(** * Claims about the integrator *)

Section IntegratorClaims.

Import Spec.

Lemma alpha_two_unit_samples :
  alpha [1; 1] [0; 1] = [1 - exp (- 1 * (1 - 0)); 1 - exp (- 1 * sentinel)].
Proof. reflexivity. Qed.

Lemma exp_minus_one_lt_half : exp (- 1) < 1 / 2.
Proof.
  assert (H2 : 2 < exp 1) by (pose proof (exp_ineq1 1); lra).
  replace (- 1) with (Ropp 1) by lra.
  rewrite exp_Ropp. pose proof (exp_pos 1) as Hp.
  apply Rmult_lt_reg_r with (exp 1); [assumption|].
  rewrite Rinv_l by lra. lra.
Qed.

Lemma exp_below_minus_one (x : R) : x <= - 1 -> exp x < 1 / 2.
Proof.
  intros Hx. pose proof exp_minus_one_lt_half as H.
  destruct (Req_dec x (- 1)) as [-> | Hne]; [assumption|].
  assert (exp x < exp (- 1)) by (apply exp_increasing; lra). lra.
Qed.

(** C1 (code defect).  On one ray with two unit-density samples at
    distances 0 and 1 the early-terminating renderer returns an
    accumulated alpha more than 1/5 above the plain renderer's, far
    outside the early-termination tolerance of 1e-3: its loop stops
    after the first iteration, so every transmittance stays 1 and the
    weights are the raw opacities. *)
Theorem volume_render_optimized_overshoots :
  let scene := mkSceneConfig (1, 1, 1) false in
  let colors := [[(1, 1, 1); (1, 1, 1)]] in
  let densities := [[1; 1]] in
  let t_vals := [[0; 1]] in
  exists fast plain,
    InstantNGP.volume_render_optimized scene colors densities t_vals
      = Some [fast] /\
    volume_render scene colors densities t_vals = [plain] /\
    acc_alpha_of fast - acc_alpha_of plain > 1 / 5 /\
    ~ close_to early_term_tol fast plain.
Proof.
  cbv zeta.
  unfold InstantNGP.volume_render_optimized, volume_render,
    InstantNGP.volume_render_optimized_row, volume_render_row.
  rewrite alpha_two_unit_samples, transmittance_optimized_ones,
    transmittance_running_product.
  cbn [running_product ones_like full_like map map2 use_white_background
       vsum sum fold_right vscale vadd vzero].
  eexists _, _. split; [reflexivity|]. split; [reflexivity|].
  assert (H0 : exp (- 1 * (1 - 0)) < 1 / 2)
    by (apply exp_below_minus_one; lra).
  assert (H1 : exp (- 1 * sentinel) < 1 / 2)
    by (apply exp_below_minus_one; unfold sentinel; lra).
  pose proof (exp_pos (- 1 * (1 - 0))) as P0.
  pose proof (exp_pos (- 1 * sentinel)) as P1.
  set (e0 := exp (- 1 * (1 - 0))) in *.
  set (e1 := exp (- 1 * sentinel)) in *.
  assert (Hgap :
    (1 - e0) * 1 + ((1 - e1) * 1 + 0)
    - ((1 - e0) * 1 + ((1 - e1) * (1 * (1 - (1 - e0) + trans_eps)) + 0))
    > 1 / 5) by (unfold trans_eps; nra).
  split.
  - unfold acc_alpha_of. cbn [nth]. exact Hgap.
  - intros Hc. unfold close_to in Hc.
    inversion Hc as [|? ? ? ? _ Hc1]; subst.
    inversion Hc1 as [|? ? ? ? _ Hc2]; subst.
    inversion Hc2 as [|? ? ? ? _ Hc3]; subst.
    inversion Hc3 as [|? ? ? ? Hlast _]; subst.
    unfold early_term_tol in Hlast.
    pose proof (Rle_abs
      ((1 - e0) * 1 + ((1 - e1) * 1 + 0)
       - ((1 - e0) * 1 + ((1 - e1) * (1 * (1 - (1 - e0) + trans_eps)) + 0))))
      as Habs.
    lra.
Qed.

Lemma empty_scene_row
  (scene : SceneConfig) (colors : list vec3) (densities t_vals : list R) :
  Forall (fun s => s = 0) densities ->
  volume_render_row scene colors densities t_vals
    = [flag_background scene; flag_background scene;
       flag_background scene; 0].
Proof.
  intros Hd. unfold volume_render_row, flag_background.
  assert (Hw : Forall (fun w => w = 0)
                 (map2 Rmult (alpha densities t_vals)
                    (transmittance (alpha densities t_vals)))).
  { apply (map2_Forall_l _ (fun a => a = 0)).
    - intros a b ->. lra.
    - apply alpha_zero, Hd. }
  rewrite (vsum_zero _ colors Hw), (sum_zero _ Hw).
  destruct (use_white_background scene); unfold vadd, vzero;
    repeat f_equal; lra.
Qed.

(** C2 (amended).  A ray whose densities are all zero renders to
    accumulated alpha 0 and to the colour selected by
    [use_white_background]: white when the flag is set, black
    otherwise.  [background_color] is not read; when the flag is set and
    the configured colour is white (the defaults) the RGB equals it. *)
Theorem empty_scene_renders_flag_background
  (scene : SceneConfig) (colors : list vec3) (densities t_vals : list R) :
  Forall (fun s => s = 0) densities ->
  volume_render_row scene colors densities t_vals
    = [flag_background scene; flag_background scene;
       flag_background scene; 0]
  /\ (use_white_background scene = true ->
      background_color scene = (1, 1, 1) ->
      volume_render_row scene colors densities t_vals
        = background_row scene).
Proof.
  intros Hd.
  pose proof (empty_scene_row scene colors densities t_vals Hd) as Hrow.
  split; [exact Hrow|].
  intros Hflag Hbg. rewrite Hrow. unfold background_row, flag_background.
  rewrite Hflag, Hbg. reflexivity.
Qed.

Lemma empty_scene_renders_flag_background_witness :
  Forall (fun s => s = 0) [0; 0] /\
  volume_render_row (mkSceneConfig (1, 1, 1) true)
    [(1, 0, 0); (0, 1, 0)] [0; 0] [2; 6] = [1; 1; 1; 0].
Proof.
  assert (Hz : Forall (fun s => s = 0) [0; 0]) by (repeat constructor).
  split; [exact Hz|].
  exact (proj1 (empty_scene_renders_flag_background
                  (mkSceneConfig (1, 1, 1) true)
                  [(1, 0, 0); (0, 1, 0)] [0; 0] [2; 6] Hz)).
Defined.

(** C2 as stated fails: with a grey [background_color] an empty scene
    renders black when the flag is off and white when it is on, never
    grey. *)
Lemma empty_scene_ignores_background_color :
  Forall (fun s => s = 0) [0; 0] /\
  volume_render_row (mkSceneConfig (0.5, 0.5, 0.5) false)
    [(1, 0, 0); (0, 1, 0)] [0; 0] [2; 6]
    <> background_row (mkSceneConfig (0.5, 0.5, 0.5) false) /\
  volume_render_row (mkSceneConfig (0.5, 0.5, 0.5) true)
    [(1, 0, 0); (0, 1, 0)] [0; 0] [2; 6]
    <> background_row (mkSceneConfig (0.5, 0.5, 0.5) true).
Proof.
  assert (Hz : Forall (fun s => s = 0) [0; 0]) by (repeat constructor).
  split; [exact Hz|].
  split; intros Heq.
  - rewrite (empty_scene_row
              (mkSceneConfig (0.5, 0.5, 0.5) false) _ _ [2; 6] Hz) in Heq.
    cbn in Heq. injection Heq as H _. lra.
  - rewrite (empty_scene_row
              (mkSceneConfig (0.5, 0.5, 0.5) true) _ _ [2; 6] Hz) in Heq.
    cbn in Heq. injection Heq as H _. lra.
Qed.

End IntegratorClaims.

(* ------------------------------------------------------------------ *)
(** * Rounding to nearest: grid points, idempotence, monotonicity *)

Section PowersOfTwo.

Import Float.

Lemma pow2_gt_0 (e : Z) : 0 < pow2 e.
Proof. apply powerRZ_lt. lra. Qed.

Lemma pow2_add (a b : Z) : pow2 (a + b) = pow2 a * pow2 b.
Proof. apply powerRZ_add. lra. Qed.

Lemma pow2_0 : pow2 0 = 1.
Proof. reflexivity. Qed.

Lemma pow2_1 : pow2 1 = 2.
Proof. unfold pow2. simpl. lra. Qed.

Lemma pow2_IZR (n : Z) : (0 <= n)%Z -> pow2 n = IZR (2 ^ n).
Proof.
  intros Hn. unfold pow2.
  rewrite <- (Z2Nat.id n Hn) at 1. rewrite <- pow_powerRZ.
  rewrite pow_IZR. rewrite Z2Nat.id by exact Hn. reflexivity.
Qed.

Lemma pow2_ge_1 (n : Z) : (0 <= n)%Z -> 1 <= pow2 n.
Proof.
  intros Hn. rewrite pow2_IZR by exact Hn. apply IZR_le.
  pose proof (Z.pow_pos_nonneg 2 n ltac:(lia) Hn). lia.
Qed.

Lemma pow2_le (a b : Z) : (a <= b)%Z -> pow2 a <= pow2 b.
Proof.
  intros H. replace b with (a + (b - a))%Z by lia. rewrite pow2_add.
  pose proof (pow2_gt_0 a). pose proof (pow2_ge_1 (b - a) ltac:(lia)). nra.
Qed.

Lemma pow2_lt (a b : Z) : (a < b)%Z -> pow2 a < pow2 b.
Proof.
  intros H. replace b with (a + 1 + (b - a - 1))%Z by lia.
  rewrite !pow2_add, pow2_1.
  pose proof (pow2_gt_0 a). pose proof (pow2_ge_1 (b - a - 1) ltac:(lia)). nra.
Qed.

Lemma pow2_lt_inv (a b : Z) : pow2 a < pow2 b -> (a < b)%Z.
Proof.
  intros H. destruct (Z_lt_le_dec a b) as [Hlt | Hle]; [exact Hlt|].
  pose proof (pow2_le b a Hle). lra.
Qed.

Lemma pow2_sub (a b : Z) : pow2 a / pow2 b = pow2 (a - b).
Proof.
  replace a with (a - b + b)%Z at 1 by lia. rewrite pow2_add.
  pose proof (pow2_gt_0 b). field. lra.
Qed.

End PowersOfTwo.

Section NearestInteger.

Import Float.

Lemma Int_part_le (x y : R) : x <= y -> (Int_part x <= Int_part y)%Z.
Proof.
  intros H. destruct (base_Int_part x) as [Hx _].
  destruct (base_Int_part y) as [_ Hy].
  assert (IZR (Int_part x) < IZR (Int_part y + 1)) by (rewrite plus_IZR; lra).
  apply lt_IZR in H0. lia.
Qed.

Lemma Int_part_of_Z (k : Z) : Int_part (IZR k) = k.
Proof. symmetry. apply Int_part_spec. lra. Qed.

Lemma rne_IZR (k : Z) : rne (IZR k) = k.
Proof.
  unfold rne. rewrite Int_part_of_Z.
  destruct (Rlt_dec (IZR k - IZR k) (1 / 2)) as [_ | H]; [reflexivity | lra].
Qed.

Lemma rne_floor_ceil (z : R) :
  rne z = Int_part z \/ rne z = (Int_part z + 1)%Z.
Proof.
  unfold rne.
  destruct (Rlt_dec (z - IZR (Int_part z)) (1 / 2)); [left; reflexivity|].
  destruct (Rlt_dec (1 / 2) (z - IZR (Int_part z))); [right; reflexivity|].
  destruct (Z.even (Int_part z)); [left | right]; reflexivity.
Qed.

Lemma rne_mono (x y : R) : x <= y -> (rne x <= rne y)%Z.
Proof.
  intros H. pose proof (Int_part_le x y H) as Hf.
  destruct (Z_lt_le_dec (Int_part x) (Int_part y)) as [Hlt | Hge].
  - destruct (rne_floor_ceil x) as [-> | ->];
      destruct (rne_floor_ceil y) as [-> | ->]; lia.
  - assert (E : Int_part x = Int_part y) by lia.
    unfold rne. rewrite E.
    destruct (Rlt_dec (x - IZR (Int_part y)) (1 / 2)) as [Hx | Hx].
    + destruct (Rlt_dec (y - IZR (Int_part y)) (1 / 2)); [lia|].
      destruct (Rlt_dec (1 / 2) (y - IZR (Int_part y))); [lia|].
      destruct (Z.even (Int_part y)); lia.
    + destruct (Rlt_dec (y - IZR (Int_part y)) (1 / 2)) as [Hy | Hy]; [lra|].
      destruct (Rlt_dec (1 / 2) (x - IZR (Int_part y))) as [Hx' | Hx'].
      * destruct (Rlt_dec (1 / 2) (y - IZR (Int_part y))); [lia | lra].
      * destruct (Rlt_dec (1 / 2) (y - IZR (Int_part y))).
        -- destruct (Z.even (Int_part y)); lia.
        -- lia.
Qed.

Lemma rne_nonneg (x : R) : 0 <= x -> (0 <= rne x)%Z.
Proof. intros H. rewrite <- (rne_IZR 0). apply rne_mono, H. Qed.

End NearestInteger.

Section Magnitude.

Import Float.

Lemma ln2_pos : 0 < ln 2.
Proof. rewrite <- ln_1. apply ln_increasing; lra. Qed.

Lemma ln_pow2 (e : Z) : ln (pow2 e) = IZR e * ln 2.
Proof.
  unfold pow2. rewrite powerRZ_Rpower by lra. unfold Rpower.
  apply ln_exp.
Qed.

Lemma mag_spec (x : R) :
  0 < x -> pow2 (mag x) <= x < pow2 (mag x + 1).
Proof.
  intros Hx. unfold mag. set (t := ln x / ln 2).
  destruct (base_Int_part t) as [Hlo Hhi].
  pose proof ln2_pos as H2.
  assert (Hexp : exp (t * ln 2) = x).
  { replace (t * ln 2) with (ln x) by (unfold t; field; lra).
    apply exp_ln, Hx. }
  clearbody t. rewrite <- Hexp.
  unfold pow2. rewrite !powerRZ_Rpower by lra. unfold Rpower.
  split.
  - destruct (Rle_lt_or_eq_dec _ _ Hlo) as [Hl | He].
    + left. apply exp_increasing. nra.
    + right. rewrite He. reflexivity.
  - apply exp_increasing. rewrite plus_IZR. nra.
Qed.

Lemma mag_unique (x : R) (e : Z) :
  pow2 e <= x < pow2 (e + 1) -> mag x = e.
Proof.
  intros [Hlo Hhi]. pose proof (pow2_gt_0 e) as Hp.
  assert (Hx : 0 < x) by lra.
  destruct (mag_spec x Hx) as [Mlo Mhi].
  assert (pow2 e < pow2 (mag x + 1)) by lra.
  assert (pow2 (mag x) < pow2 (e + 1)) by lra.
  apply pow2_lt_inv in H, H0. lia.
Qed.

Lemma mag_mono (x y : R) : 0 < x -> x <= y -> (mag x <= mag y)%Z.
Proof.
  intros Hx Hxy.
  destruct (mag_spec x Hx) as [Xlo _].
  destruct (mag_spec y ltac:(lra)) as [_ Yhi].
  assert (H : pow2 (mag x) < pow2 (mag y + 1)) by lra.
  apply pow2_lt_inv in H. lia.
Qed.

Lemma mag_pow2 (e : Z) : mag (pow2 e) = e.
Proof.
  apply mag_unique. split; [lra | apply pow2_lt; lia].
Qed.

End Magnitude.

(** Rounding in a format of precision at least 1: multiples
    [k * 2^c] with [0 <= k <= 2^p] and [emin <= c] are fixed, every
    rounded value is such a multiple, and rounding is monotone on the
    non-negative reals. *)

Section Rounding.

Import Float.

Variable f : format.
Hypothesis prec_pos : (1 <= prec f)%Z.

Lemma round_pos_0 : round_pos f 0 = 0.
Proof.
  unfold round_pos, Rdiv. rewrite Rmult_0_l.
  change 0 with (IZR 0) at 1. rewrite rne_IZR. apply Rmult_0_l.
Qed.

Lemma scaled_grid_point (k c c' : Z) :
  (c' <= c)%Z -> IZR k * pow2 c / pow2 c' = IZR (k * 2 ^ (c - c')).
Proof.
  intros H. unfold Rdiv. rewrite Rmult_assoc.
  change (pow2 c * / pow2 c') with (pow2 c / pow2 c').
  rewrite pow2_sub, pow2_IZR by lia. symmetry. apply mult_IZR.
Qed.

Lemma round_pos_grid_lt (k c : Z) :
  (0 < k < 2 ^ prec f)%Z -> (emin f <= c)%Z ->
  round_pos f (IZR k * pow2 c) = IZR k * pow2 c.
Proof.
  intros [Hk0 Hk1] Hc. set (g := IZR k * pow2 c).
  pose proof (pow2_gt_0 c) as Hpc.
  assert (Hk0' : 0 < IZR k) by (apply IZR_lt; exact Hk0).
  assert (Hg : 0 < g) by (unfold g; nra).
  destruct (mag_spec g Hg) as [Mlo _].
  assert (Hup : g < pow2 (prec f + c)).
  { rewrite pow2_add, (pow2_IZR (prec f)) by lia. unfold g.
    apply Rmult_lt_compat_r; [exact Hpc | apply IZR_lt, Hk1]. }
  assert (He : (mag g < prec f + c)%Z) by (apply pow2_lt_inv; lra).
  unfold round_pos. set (c' := ulp_exp f g).
  assert (Hc' : (c' <= c)%Z) by (unfold c', ulp_exp; lia).
  unfold g at 1. rewrite scaled_grid_point by exact Hc'.
  rewrite rne_IZR, mult_IZR, <- pow2_IZR by lia.
  rewrite Rmult_assoc, <- pow2_add. unfold g. f_equal. f_equal. lia.
Qed.

Lemma round_pos_grid (k c : Z) :
  (0 <= k <= 2 ^ prec f)%Z -> (emin f <= c)%Z ->
  round_pos f (IZR k * pow2 c) = IZR k * pow2 c.
Proof.
  intros [Hk0 Hk1] Hc.
  destruct (Z.eq_dec k 0) as [-> | Hnz].
  { rewrite Rmult_0_l. apply round_pos_0. }
  destruct (Z.eq_dec k (2 ^ prec f)) as [-> | Hne].
  - assert (E : IZR (2 ^ prec f) * pow2 c
                = IZR (2 ^ (prec f - 1)) * pow2 (c + 1)).
    { rewrite <- !pow2_IZR by lia. rewrite <- !pow2_add. f_equal. lia. }
    rewrite E. apply round_pos_grid_lt; [|lia].
    split; [apply Z.pow_pos_nonneg; lia|].
    apply Z.pow_lt_mono_r; lia.
  - apply round_pos_grid_lt; [lia | exact Hc].
Qed.

Lemma round_pos_repr (x : R) :
  0 < x ->
  exists k : Z,
    round_pos f x = IZR k * pow2 (ulp_exp f x) /\
    (0 <= k <= 2 ^ prec f)%Z.
Proof.
  intros Hx. exists (rne (x / pow2 (ulp_exp f x))).
  split; [reflexivity|].
  set (c := ulp_exp f x). pose proof (pow2_gt_0 c) as Hpc.
  destruct (mag_spec x Hx) as [_ Mhi].
  split.
  - apply rne_nonneg. apply Rmult_le_pos; [lra|].
    left. apply Rinv_0_lt_compat, Hpc.
  - rewrite <- (rne_IZR (2 ^ prec f)). apply rne_mono.
    rewrite <- pow2_IZR by lia.
    assert (Hle : pow2 (mag x + 1) <= pow2 (prec f + c))
      by (apply pow2_le; unfold c, ulp_exp; lia).
    rewrite (pow2_add (prec f) c) in Hle.
    apply Rmult_le_reg_r with (pow2 c); [exact Hpc|].
    unfold Rdiv. rewrite Rmult_assoc, Rinv_l by lra. lra.
Qed.

Lemma round_pos_nonneg (x : R) : 0 <= x -> 0 <= round_pos f x.
Proof.
  intros Hx. unfold round_pos.
  pose proof (pow2_gt_0 (ulp_exp f x)) as Hp.
  apply Rmult_le_pos; [|lra]. apply IZR_le, rne_nonneg.
  apply Rmult_le_pos; [exact Hx|]. left. apply Rinv_0_lt_compat, Hp.
Qed.

Lemma ulp_exp_ge (x : R) : (emin f <= ulp_exp f x)%Z.
Proof. unfold ulp_exp. lia. Qed.

Lemma round_pos_idem (x : R) :
  0 <= x -> round_pos f (round_pos f x) = round_pos f x.
Proof.
  intros [Hx | <-].
  - destruct (round_pos_repr x Hx) as [k [-> Hk]].
    apply round_pos_grid; [exact Hk | apply ulp_exp_ge].
  - rewrite round_pos_0. apply round_pos_0.
Qed.

Lemma round_pos_mono (x y : R) :
  0 <= x -> x <= y -> round_pos f x <= round_pos f y.
Proof.
  intros [Hx | <-] Hxy.
  2:{ rewrite round_pos_0. apply round_pos_nonneg, Hxy. }
  assert (Hy : 0 < y) by lra.
  pose proof (mag_mono x y Hx Hxy) as Hm.
  destruct (mag_spec x Hx) as [_ Xhi].
  destruct (mag_spec y Hy) as [Ylo _].
  destruct (Z.eq_dec (ulp_exp f x) (ulp_exp f y)) as [E | NE].
  - unfold round_pos. rewrite E.
    pose proof (pow2_gt_0 (ulp_exp f y)) as Hp.
    apply Rmult_le_compat_r; [lra|]. apply IZR_le, rne_mono.
    apply Rmult_le_compat_r; [|exact Hxy].
    left. apply Rinv_0_lt_compat, Hp.
  - assert (Hc : (ulp_exp f x < ulp_exp f y)%Z)
      by (unfold ulp_exp in *; lia).
    assert (Hcy : ulp_exp f y = (mag y - prec f + 1)%Z)
      by (unfold ulp_exp in *; lia).
    assert (Hlt : (mag x < mag y)%Z) by (unfold ulp_exp in *; lia).
    apply Rle_trans with (pow2 (mag y)).
    + unfold round_pos. set (c := ulp_exp f x) in *.
      pose proof (pow2_gt_0 c) as Hp.
      assert (Hq : x / pow2 c <= IZR (2 ^ (mag y - c))).
      { rewrite <- pow2_IZR by lia. rewrite <- pow2_sub.
        apply Rmult_le_compat_r; [left; apply Rinv_0_lt_compat, Hp|].
        pose proof (pow2_le (mag x + 1) (mag y) ltac:(lia)). lra. }
      apply rne_mono in Hq. rewrite rne_IZR in Hq. apply IZR_le in Hq.
      rewrite <- pow2_IZR in Hq by lia.
      replace (pow2 (mag y)) with (pow2 (mag y - c) * pow2 c)
        by (rewrite <- pow2_add; f_equal; lia).
      apply Rmult_le_compat_r; [lra | exact Hq].
    + unfold round_pos. rewrite Hcy.
      set (c := (mag y - prec f + 1)%Z).
      pose proof (pow2_gt_0 c) as Hp.
      assert (Hq : IZR (2 ^ (prec f - 1)) <= y / pow2 c).
      { rewrite <- pow2_IZR by lia.
        replace (prec f - 1)%Z with (mag y - c)%Z by (unfold c; lia).
        rewrite <- pow2_sub.
        apply Rmult_le_compat_r; [left; apply Rinv_0_lt_compat, Hp|].
        exact Ylo. }
      apply rne_mono in Hq. rewrite rne_IZR in Hq. apply IZR_le in Hq.
      rewrite <- pow2_IZR in Hq by lia.
      replace (pow2 (mag y)) with (pow2 (prec f - 1) * pow2 c)
        by (rewrite <- pow2_add; f_equal; unfold c; lia).
      apply Rmult_le_compat_r; [lra | exact Hq].
Qed.

Lemma round_nonneg (x : R) : 0 <= x -> round f x = round_pos f x.
Proof.
  intros H. unfold round. destruct (Rle_dec 0 x); [reflexivity | contradiction].
Qed.

Lemma round_nonpos (x : R) : x <= 0 -> round f x <= 0.
Proof.
  intros H. unfold round. destruct (Rle_dec 0 x) as [H0 | H0].
  - replace x with 0 by lra. rewrite round_pos_0. lra.
  - pose proof (round_pos_nonneg (- x) ltac:(lra)). lra.
Qed.

Lemma round_pow2 (k : Z) : (emin f <= k)%Z -> round f (pow2 k) = pow2 k.
Proof.
  intros Hk. pose proof (pow2_gt_0 k).
  rewrite round_nonneg by lra.
  rewrite <- (Rmult_1_l (pow2 k)). apply (round_pos_grid 1 k); [|exact Hk].
  pose proof (Z.pow_pos_nonneg 2 (prec f) ltac:(lia) ltac:(lia)). lia.
Qed.

Lemma round_range (x : R) (k : Z) :
  (emin f <= k)%Z -> 0 <= x <= pow2 k -> 0 <= round f x <= pow2 k.
Proof.
  intros Hk [H0 H1]. split.
  - rewrite round_nonneg by exact H0. apply round_pos_nonneg, H0.
  - rewrite <- (round_pow2 k Hk). pose proof (pow2_gt_0 k).
    rewrite !round_nonneg by lra. apply round_pos_mono; assumption.
Qed.

Lemma round_mono (x y : R) :
  0 <= x -> x <= y -> round f x <= round f y.
Proof.
  intros Hx Hxy. rewrite !round_nonneg by lra.
  apply round_pos_mono; assumption.
Qed.

Lemma round_idem (x : R) : 0 <= x -> round f (round f x) = round f x.
Proof.
  intros Hx. rewrite (round_nonneg x Hx).
  rewrite round_nonneg by (apply round_pos_nonneg, Hx).
  apply round_pos_idem, Hx.
Qed.

End Rounding.

Section Formats.

Import Float.

Lemma binary32_unit : unit_format binary32.
Proof.
  unfold unit_format, fmax, binary32. cbn [prec emin emax].
  split; [lia|]. split; [lia|].
  pose proof (pow2_le 1 24 ltac:(lia)) as H. rewrite pow2_1 in H.
  pose proof (pow2_ge_1 (127 - 24 + 1) ltac:(lia)). nra.
Qed.

Lemma binary64_unit : unit_format binary64.
Proof.
  unfold unit_format, fmax, binary64. cbn [prec emin emax].
  split; [lia|]. split; [lia|].
  pose proof (pow2_le 1 53 ltac:(lia)) as H. rewrite pow2_1 in H.
  pose proof (pow2_ge_1 (1023 - 53 + 1) ltac:(lia)). nra.
Qed.

Lemma of_R_unit (f : format) (z : R) :
  unit_format f -> 0 <= z <= 1 ->
  of_R f z = Fin (round f z) /\ 0 <= round f z <= 1.
Proof.
  intros (Hp & He & Hm) Hz.
  pose proof (round_range f Hp z 0 He) as Hr. rewrite pow2_0 in Hr.
  specialize (Hr Hz). split; [|exact Hr].
  unfold of_R. cbv zeta. rewrite Rabs_pos_eq by lra.
  destruct (Rle_dec (round f z) (fmax f)); [reflexivity | lra].
Qed.

Lemma fmax32_ge : pow2 127 <= fmax binary32.
Proof.
  unfold fmax, binary32. cbn [prec emax].
  change (127 - 24 + 1)%Z with 104%Z.
  replace 127%Z with (23 + 104)%Z by lia. rewrite pow2_add.
  pose proof (pow2_gt_0 104).
  assert (pow2 24 = 2 * pow2 23).
  { replace 24%Z with (1 + 23)%Z by lia. rewrite pow2_add, pow2_1.
    reflexivity. }
  pose proof (pow2_ge_1 23 ltac:(lia)). nra.
Qed.

Lemma of_R_finite32 (z : R) :
  0 <= z <= pow2 127 ->
  of_R binary32 z = Fin (round binary32 z) /\ 0 <= round binary32 z.
Proof.
  intros Hz.
  pose proof (round_range binary32 ltac:(cbn; lia) z 127 ltac:(cbn; lia) Hz)
    as Hr.
  split; [|lra]. unfold of_R. cbv zeta. rewrite Rabs_pos_eq by lra.
  pose proof fmax32_ge.
  destruct (Rle_dec (round binary32 z) (fmax binary32));
    [reflexivity | lra].
Qed.

Lemma of_R_nonpos (f : format) (x : R) :
  (1 <= prec f)%Z -> x <= 0 ->
  (exists r, of_R f x = Fin r /\ r <= 0) \/ of_R f x = NInf.
Proof.
  intros Hp Hx. unfold of_R. cbv zeta.
  destruct (Rle_dec (Rabs (round f x)) (fmax f)).
  - left. eexists. split; [reflexivity|]. apply round_nonpos; assumption.
  - right. destruct (Rlt_dec 0 x); [lra | reflexivity].
Qed.

(** Just above 1 the binary32 grid has spacing [2^-23]: a real below
    [1 + 2^-24] rounds down to 1. *)
Lemma round32_above_1 (z : R) :
  1 <= z < 1 + pow2 (-24) -> round binary32 z = 1.
Proof.
  intros [Hlo Hhi].
  assert (H24 : pow2 (-24) < 1).
  { rewrite <- pow2_0. apply pow2_lt. lia. }
  rewrite round_nonneg by lra. unfold round_pos.
  assert (Hm : mag z = 0%Z).
  { apply mag_unique. rewrite pow2_0. change (0 + 1)%Z with 1%Z.
    rewrite pow2_1. lra. }
  assert (Hc : ulp_exp binary32 z = (-23)%Z)
    by (unfold ulp_exp; rewrite Hm; reflexivity).
  rewrite Hc.
  assert (Hinv : pow2 (-23) * pow2 23 = 1)
    by (rewrite <- pow2_add; apply pow2_0).
  assert (Hq : z / pow2 (-23) = z * pow2 23).
  { pose proof (pow2_gt_0 (-23)).
    apply Rmult_eq_reg_r with (pow2 (-23)); [|lra].
    unfold Rdiv. rewrite !Rmult_assoc, Rinv_l by lra.
    rewrite (Rmult_comm (pow2 23)), Hinv. reflexivity. }
  rewrite Hq.
  assert (H23 : pow2 23 * pow2 (-24) = 1 / 2).
  { rewrite <- pow2_add. change (23 + -24)%Z with (-1)%Z.
    unfold pow2. simpl. lra. }
  pose proof (pow2_gt_0 23) as Hp23.
  assert (Hr : rne (z * pow2 23) = (2 ^ 23)%Z).
  { unfold rne.
    assert (Hf : Int_part (z * pow2 23) = (2 ^ 23)%Z).
    { symmetry. apply Int_part_spec. rewrite <- pow2_IZR by lia. nra. }
    rewrite Hf. rewrite <- pow2_IZR by lia.
    destruct (Rlt_dec (z * pow2 23 - pow2 23) (1 / 2)) as [_ | H];
      [reflexivity | nra]. }
  rewrite Hr, <- pow2_IZR by lia. rewrite <- pow2_add. apply pow2_0.
Qed.

Lemma round32_unit_plus (z : R) :
  0 <= z < 1 + pow2 (-24) -> 0 <= round binary32 z <= 1.
Proof.
  intros [H0 H1]. destruct (Rle_lt_dec z 1) as [Hle | Hgt].
  - pose proof (round_range binary32 ltac:(cbn; lia) z 0 ltac:(cbn; lia))
      as Hr.
    rewrite pow2_0 in Hr. apply Hr. lra.
  - rewrite round32_above_1 by lra. lra.
Qed.

Lemma eps32_small :
  exists c, of_R binary32 1e-10 = Fin c /\ 0 <= c <= pow2 (-33).
Proof.
  assert (Hb : 0 <= 1e-10 <= pow2 (-33)).
  { split; [lra|]. unfold pow2. simpl. lra. }
  pose proof (round_range binary32 ltac:(cbn; lia) 1e-10 (-33)
                ltac:(cbn; lia) Hb) as Hr.
  exists (round binary32 1e-10). split; [|exact Hr].
  apply of_R_unit; [apply binary32_unit|].
  assert (pow2 (-33) <= 1) by (rewrite <- pow2_0; apply pow2_le; lia). lra.
Qed.

Lemma sentinel32_finite :
  exists d, of_R binary32 1e10 = Fin d /\ 0 <= d.
Proof.
  exists (round binary32 1e10). apply of_R_finite32. split; [lra|].
  apply Rle_trans with (pow2 34); [|apply pow2_le; lia].
  unfold pow2. simpl. lra.
Qed.

End Formats.

(* ------------------------------------------------------------------ *)
(** * The transmittance in float32 *)

(** Every intermediate tensor of the transmittance is finite: the
    intervals are non-negative, the opacities and the factors lie in
    [[0, 1]], and each running product is at most the previous one. *)

Section Float32Transmittance.

Import Float.

Variable acc : format.
Variable exp_impl : R -> fval.
Hypothesis acc_unit : unit_format acc.
Hypothesis exp_range :
  forall x, x <= 0 -> exists e, exp_impl x = Fin e /\ 0 <= e <= 1.

Lemma diffs32_cons2 (a b : fval) (r : list fval) :
  Nerf32.diffs (a :: b :: r) = fsub binary32 b a :: Nerf32.diffs (b :: r).
Proof. reflexivity. Qed.

Lemma diffs32_finite (ts : list R) :
  Sorted Rle ts ->
  Forall (fun t => Rabs t <= pow2 126) ts ->
  exists ds,
    Nerf32.diffs (map Fin ts) = map Fin ds /\
    length ds = (length ts - 1)%nat /\
    Forall (fun d => 0 <= d) ds.
Proof.
  induction ts as [|a [|b r] IH]; intros Hs Hb.
  - exists []. repeat split; constructor.
  - exists []. repeat split; constructor.
  - inversion Hs as [|? ? Hs' Hhd]; subst.
    inversion Hhd as [|? ? Hab]; subst.
    inversion Hb as [|? ? Ha Hb']; subst.
    inversion Hb' as [|? ? Hbb _]; subst.
    destruct (IH Hs' Hb') as [ds [Hds [Hlen Hpos]]].
    assert (Hz : 0 <= b + - a <= pow2 127).
    { split; [lra|]. replace 127%Z with (1 + 126)%Z by lia.
      rewrite pow2_add, pow2_1.
      pose proof (Rle_abs b). pose proof (Rle_abs (- a)).
      rewrite Rabs_Ropp in H0. lra. }
    destruct (of_R_finite32 _ Hz) as [Hfin Hnn].
    exists (round binary32 (b + - a) :: ds).
    change (map Fin (a :: b :: r)) with (Fin a :: Fin b :: map Fin r).
    rewrite diffs32_cons2.
    change (Fin b :: map Fin r) with (map Fin (b :: r)). rewrite Hds.
    cbn [fsub fneg fadd]. rewrite Hfin.
    split; [reflexivity|]. split; [cbn [length] in *; lia|].
    constructor; assumption.
Qed.

Lemma dists32_finite (ts : list R) :
  Sorted Rle ts ->
  Forall (fun t => Rabs t <= pow2 126) ts ->
  exists ds,
    Nerf32.dists (map Fin ts) = map Fin ds /\
    ((2 <= length ts)%nat -> length ds = length ts) /\
    Forall (fun d => 0 <= d) ds.
Proof.
  intros Hs Hb. destruct (diffs32_finite ts Hs Hb) as [ds [Hds [Hlen Hpos]]].
  destruct sentinel32_finite as [s [Hs32 Hs0]].
  unfold Nerf32.dists. cbv zeta. rewrite Hds.
  exists (ds ++ map (fun _ => s) (firstn 1 ds)).
  split; [|split].
  - rewrite map_app. f_equal. rewrite Hs32.
    destruct ds; reflexivity.
  - intros H2. rewrite length_app, length_map.
    destruct ds as [|d ds']; cbn [length firstn] in *; lia.
  - apply Forall_app. split; [exact Hpos|].
    destruct ds; cbn [firstn map]; [constructor|].
    constructor; [exact Hs0 | constructor].
Qed.

Lemma alpha32_entry (sigma d : R) :
  0 <= sigma -> 0 <= d ->
  exists a,
    fsub binary32 (Fin 1)
      (fexp exp_impl (fmul binary32 (fneg (Fin sigma)) (Fin d))) = Fin a /\
    0 <= a <= 1.
Proof.
  intros Hs Hd. cbn [fneg fmul].
  assert (Hprod : - sigma * d <= 0) by nra.
  assert (He : exists e,
             fexp exp_impl (of_R binary32 (- sigma * d)) = Fin e /\
             0 <= e <= 1).
  { destruct (of_R_nonpos binary32 _ ltac:(cbn; lia) Hprod)
      as [[r [-> Hr]] | ->].
    - cbn [fexp]. apply exp_range, Hr.
    - exists 0. split; [reflexivity | lra]. }
  destruct He as [e [-> He]]. cbn [fsub fneg fadd].
  destruct (of_R_unit binary32 (1 + - e) binary32_unit ltac:(lra))
    as [-> Hr].
  eexists. split; [reflexivity | exact Hr].
Qed.

Lemma alpha32_finite (ss ds : list R) :
  Forall (fun s => 0 <= s) ss ->
  Forall (fun d => 0 <= d) ds ->
  exists al,
    map2 (fun sigma d =>
            fsub binary32 (Fin 1)
              (fexp exp_impl (fmul binary32 (fneg sigma) d)))
         (map Fin ss) (map Fin ds) = map Fin al /\
    length al = Nat.min (length ss) (length ds) /\
    Forall (fun a => 0 <= a <= 1) al.
Proof.
  intros Hss. revert ds. induction Hss as [|s ss Hs _ IH]; intros ds Hds.
  - exists []. repeat split; constructor.
  - destruct Hds as [|d ds Hd Hds'].
    + exists []. repeat split; constructor.
    + destruct (IH ds Hds') as [al [Hal [Hlen Hr]]].
      destruct (alpha32_entry s d Hs Hd) as [a [Ha Har]].
      exists (a :: al). cbn [map map2]. rewrite Ha, Hal.
      split; [reflexivity|]. split; [cbn [length]; lia|].
      constructor; assumption.
Qed.

Lemma factor32_entry (a : R) :
  0 <= a <= 1 ->
  exists x,
    fadd binary32 (fsub binary32 (Fin 1) (Fin a)) (of_R binary32 1e-10)
    = Fin x /\ 0 <= x <= 1.
Proof.
  intros Ha. cbn [fsub fneg fadd].
  destruct (of_R_unit binary32 (1 + - a) binary32_unit ltac:(lra))
    as [-> Hy].
  destruct eps32_small as [c [-> Hc]]. cbn [fadd].
  assert (H33 : pow2 (-33) < pow2 (-24)) by (apply pow2_lt; lia).
  assert (Hz : 0 <= round binary32 (1 + - a) + c < 1 + pow2 (-24)) by lra.
  pose proof (round32_unit_plus _ Hz) as Hr.
  exists (round binary32 (round binary32 (1 + - a) + c)).
  split; [|exact Hr].
  unfold of_R. cbv zeta. rewrite Rabs_pos_eq by lra.
  destruct binary32_unit as (_ & _ & Hm).
  destruct (Rle_dec _ (fmax binary32)); [reflexivity | lra].
Qed.

Lemma factors32_finite (al : list R) :
  Forall (fun a => 0 <= a <= 1) al ->
  exists xs,
    map (fun a => fadd binary32 (fsub binary32 (Fin 1) a)
                    (of_R binary32 1e-10)) (map Fin al) = map Fin xs /\
    length xs = length al /\
    Forall (fun x => 0 <= x <= 1) xs.
Proof.
  induction 1 as [|a al Ha _ [xs [Hxs [Hlen Hr]]]].
  - exists []. repeat split; constructor.
  - destruct (factor32_entry a Ha) as [x [Hx Hxr]].
    exists (x :: xs). cbn [map]. rewrite Hx.
    cbn [map] in Hxs. rewrite Hxs.
    split; [reflexivity|]. split; [cbn [length]; lia|].
    constructor; assumption.
Qed.

Lemma cumprod32_from (xs : list R) :
  Forall (fun x => 0 <= x <= 1) xs ->
  forall P,
    0 <= P <= 1 -> round acc P = P ->
    exists outs,
      Nerf32.cumprod_from acc (Fin P) (map Fin xs) = map Fin outs /\
      length outs = length xs /\
      Forall (fun o => 0 <= o <= round binary32 P) outs /\
      Sorted Rge outs.
Proof.
  destruct acc_unit as (Hp & He & Hm).
  induction 1 as [|x xs Hx _ IH]; intros P HP Hfix.
  - exists []. repeat split; constructor.
  - assert (Hprod : 0 <= P * x <= P) by nra.
    destruct (of_R_unit acc (P * x) acc_unit ltac:(lra)) as [Hacc Hr].
    set (P' := round acc (P * x)) in *.
    assert (HP' : P' <= P).
    { rewrite <- Hfix. apply round_mono; [exact Hp | lra | lra]. }
    assert (Hfix' : round acc P' = P')
      by (apply round_idem; [exact Hp | lra]).
    destruct (IH P' ltac:(lra) Hfix') as [outs [Houts [Hlen [Hb Hsorted]]]].
    destruct (of_R_unit binary32 P' binary32_unit ltac:(lra)) as [Hcast Hc].
    assert (Hmono : round binary32 P' <= round binary32 P)
      by (apply round_mono; [cbn; lia | lra | lra]).
    exists (round binary32 P' :: outs).
    cbn [map Nerf32.cumprod_from fmul]. rewrite Hacc. cbn [fcast].
    rewrite Hcast, Houts.
    split; [reflexivity|]. split; [cbn [length]; lia|]. split.
    + constructor; [lra|]. eapply Forall_impl; [|exact Hb].
      cbv beta. intros o Ho. lra.
    + constructor; [exact Hsorted|].
      destruct outs as [|o outs']; constructor.
      inversion Hb as [|? ? Ho _]; subst. lra.
Qed.

Lemma removelast_map {A B : Type} (g : A -> B) (l : list A) :
  removelast (map g l) = map g (removelast l).
Proof.
  induction l as [|a [|b r] IH]; [reflexivity | reflexivity|].
  change (map g (a :: b :: r)) with (g a :: map g (b :: r)).
  change (removelast (a :: b :: r)) with (a :: removelast (b :: r)).
  cbn [map]. rewrite <- IH. reflexivity.
Qed.

Lemma removelast_Forall {A : Type} (P : A -> Prop) (l : list A) :
  Forall P l -> Forall P (removelast l).
Proof.
  induction l as [|a [|b r] IH]; intros H; [constructor | constructor|].
  change (removelast (a :: b :: r)) with (a :: removelast (b :: r)).
  inversion H; subst. constructor; [assumption | apply IH; assumption].
Qed.

Lemma removelast_Sorted (l : list R) :
  Sorted Rge l -> Sorted Rge (removelast l).
Proof.
  induction l as [|a [|b r] IH]; intros H; [constructor | constructor|].
  change (removelast (a :: b :: r)) with (a :: removelast (b :: r)).
  inversion H as [|? ? Hs Hhd]; subst. constructor; [apply IH, Hs|].
  destruct r as [|c r']; [constructor|].
  change (removelast (b :: c :: r')) with (b :: removelast (c :: r')).
  constructor. inversion Hhd; subst. assumption.
Qed.

Lemma transmittance32_finite (al : list R) :
  Forall (fun a => 0 <= a <= 1) al ->
  exists T,
    Nerf32.transmittance acc (map Fin al) = map Fin T /\
    length T = length al /\
    (al <> [] -> nth_error T 0 = Some 1) /\
    Forall (fun x => 0 <= x <= 1) T /\
    Sorted Rge T.
Proof.
  intros Hal. destruct acc_unit as (Hp & He & Hm).
  destruct (factors32_finite al Hal) as [xs [Hxs [Hxlen Hxr]]].
  unfold Nerf32.transmittance, Nerf32.cumprod. rewrite Hxs.
  destruct al as [|a al'].
  - destruct xs as [|x xs']; [|discriminate Hxlen].
    exists []. split; [reflexivity|]. split; [reflexivity|].
    split; [intros H; contradiction|]. split; constructor.
  - cbn [map firstn app].
    change (Fin 1 :: map Fin xs) with (map Fin (1 :: xs)).
    assert (H1 : round acc 1 = 1).
    { rewrite <- pow2_0. apply round_pow2; assumption. }
    destruct (cumprod32_from (1 :: xs)
                ltac:(constructor; [lra | exact Hxr]) 1 ltac:(lra) H1)
      as [outs [Houts [Hlen [Hb Hsorted]]]].
    rewrite Houts, removelast_map.
    assert (H32 : round binary32 1 = 1).
    { rewrite <- pow2_0. apply round_pow2; cbn; lia. }
    rewrite H32 in Hb.
    exists (removelast outs). split; [reflexivity|].
    assert (Hhead : exists rest, outs = 1 :: rest /\ rest <> []).
    { revert Houts.
      cbn [map Nerf32.cumprod_from fmul]. rewrite Rmult_1_l.
      destruct (of_R_unit acc 1 acc_unit ltac:(lra)) as [-> _].
      rewrite H1. cbn [fcast].
      destruct (of_R_unit binary32 1 binary32_unit ltac:(lra)) as [-> _].
      rewrite H32. intros Houts.
      destruct outs as [|o rest]; [discriminate|].
      cbn [map] in Houts. injection Houts as Ho Hrest.
      exists rest. split; [f_equal; congruence|].
      intros ->. cbn [length] in Hlen, Hxlen.
      destruct xs; cbn [length] in *; lia. }
    destruct Hhead as [rest [-> Hrest]].
    split; [|split; [|split]].
    + destruct rest as [|r0 rest']; [contradiction|].
      change (removelast (1 :: r0 :: rest'))
        with (1 :: removelast (r0 :: rest')).
      cbn [length] in *.
      assert (length (removelast (r0 :: rest')) = length rest').
      { clear. revert r0. induction rest' as [|b r IH]; intros r0;
          [reflexivity|].
        change (removelast (r0 :: b :: r)) with (r0 :: removelast (b :: r)).
        cbn [length]. rewrite IH. reflexivity. }
      lia.
    + intros _. destruct rest as [|r0 rest']; [contradiction|]. reflexivity.
    + apply removelast_Forall, Hb.
    + apply removelast_Sorted, Hsorted.
Qed.

End Float32Transmittance.

Section TransmittanceClaims.

Import Float.

Lemma exp_unit_range (x : R) : x <= 0 -> 0 <= exp x <= 1.
Proof.
  intros Hx. pose proof (exp_pos x). split; [lra|].
  destruct Hx as [Hlt | ->]; [|rewrite exp_0; lra].
  rewrite <- exp_0. left. apply exp_increasing, Hlt.
Qed.

(** C3.  Read in float32, the dtype of the tensors the repository
    builds, the transmittance of [volume_render] starts at 1, stays in
    [[0, 1]] and is non-increasing along the sample index, for every
    ray with finite non-negative densities and ascending distances (of
    magnitude at most [2^126], so that their differences are finite).
    The constant [1e-10] added to each factor never lifts a factor
    above 1, because [1 + 1e-10] rounds to 1.  This holds whether
    [cumprod] accumulates in float or in double, and for every [exp]
    whose values on non-positive arguments lie in [[0, 1]]. *)
Theorem transmittance_non_increasing_float32
  (acc : format) (exp_impl : R -> fval) (densities t_vals : list R) :
  acc = binary32 \/ acc = binary64 ->
  (forall x, x <= 0 -> exists e, exp_impl x = Fin e /\ 0 <= e <= 1) ->
  length densities = length t_vals ->
  Forall (fun s => 0 <= s) densities ->
  Sorted Rle t_vals ->
  Forall (fun t => Rabs t <= pow2 126) t_vals ->
  exists T : list R,
    Nerf32.transmittance acc
      (Nerf32.alpha exp_impl (map Fin densities) (map Fin t_vals))
    = map Fin T /\
    ((2 <= length t_vals)%nat ->
     length T = length t_vals /\ nth_error T 0 = Some 1) /\
    Forall (fun x => 0 <= x <= 1) T /\
    Sorted Rge T.
Proof.
  intros Hacc Hexp Hlen Hd Hs Hb.
  assert (Hunit : unit_format acc)
    by (destruct Hacc as [-> | ->];
        [apply binary32_unit | apply binary64_unit]).
  destruct (dists32_finite t_vals Hs Hb) as [ds [Hds [Hdl Hdpos]]].
  unfold Nerf32.alpha. rewrite Hds.
  destruct (alpha32_finite exp_impl Hexp densities ds Hd Hdpos)
    as [al [Hal [Hall Halr]]].
  rewrite Hal.
  destruct (transmittance32_finite acc Hunit al Halr)
    as [T [HT [HTl [Hhead [Hr Hsorted]]]]].
  exists T. split; [exact HT|]. split; [|split; assumption].
  intros H2. specialize (Hdl H2).
  assert (Hlen_al : length al = length t_vals) by lia.
  split; [lia|]. apply Hhead. intros ->. cbn [length] in Hlen_al. lia.
Qed.

(** On three empty samples, where exact arithmetic gives
    [1; 1 + 1e-10; (1 + 1e-10)^2], the float32 transmittance is
    [1; 1; 1]: the added constant is rounded away. *)
Lemma transmittance32_empty_samples (acc : format) (exp_impl : R -> fval) :
  acc = binary32 \/ acc = binary64 ->
  exp_impl 0 = Fin 1 ->
  Nerf32.transmittance acc
    (Nerf32.alpha exp_impl (map Fin [0; 0; 0]) (map Fin [0; 1; 2]))
  = map Fin [1; 1; 1].
Proof.
  intros Hacc Hexp0.
  assert (Hunit : unit_format acc)
    by (destruct Hacc as [-> | ->];
        [apply binary32_unit | apply binary64_unit]).
  assert (H2 : 2 <= pow2 126) by (rewrite <- pow2_1; apply pow2_le; lia).
  destruct (dists32_finite [0; 1; 2]) as [ds [Hds [Hdl _]]].
  { repeat constructor; lra. }
  { repeat (constructor; [rewrite Rabs_pos_eq by lra; lra|]). constructor. }
  specialize (Hdl ltac:(cbn [length]; lia)).
  destruct ds as [|d0 [|d1 [|d2 [|d3 ds']]]]; try discriminate Hdl.
  unfold Nerf32.alpha. rewrite Hds.
  assert (Hzero : of_R binary32 0 = Fin 0).
  { destruct (of_R_unit binary32 0 binary32_unit ltac:(lra)) as [-> _].
    f_equal. rewrite round_nonneg by lra. apply round_pos_0. }
  assert (Hone32 : of_R binary32 1 = Fin 1).
  { destruct (of_R_unit binary32 1 binary32_unit ltac:(lra)) as [-> _].
    f_equal. rewrite <- pow2_0. apply round_pow2; cbn; lia. }
  assert (Hone : of_R acc 1 = Fin 1).
  { destruct Hunit as (Hp & He & Hm).
    destruct (of_R_unit acc 1 (conj Hp (conj He Hm)) ltac:(lra)) as [-> _].
    f_equal. rewrite <- pow2_0. apply round_pow2; assumption. }
  assert (Ha : forall d,
             fsub binary32 (Fin 1)
               (fexp exp_impl (fmul binary32 (fneg (Fin 0)) (Fin d)))
             = Fin 0).
  { intros d. cbn [fneg fmul].
    replace (Ropp 0 * d) with 0 by ring. rewrite Hzero. cbn [fexp].
    rewrite Hexp0. cbn [fsub fneg fadd].
    replace (1 + Ropp 1) with 0 by ring. exact Hzero. }
  cbn [map map2]. rewrite !Ha.
  assert (Hf : fadd binary32 (fsub binary32 (Fin 1) (Fin 0))
                 (of_R binary32 1e-10) = Fin 1).
  { cbn [fsub fneg fadd]. replace (1 + Ropp 0) with 1 by ring.
    rewrite Hone32. destruct eps32_small as [c [-> Hc]]. cbn [fadd].
    assert (H33 : pow2 (-33) < pow2 (-24)) by (apply pow2_lt; lia).
    unfold of_R. cbv zeta.
    rewrite (round32_above_1 (1 + c)) by lra.
    rewrite Rabs_pos_eq by lra.
    destruct binary32_unit as (_ & _ & Hm).
    destruct (Rle_dec 1 (fmax binary32)); [reflexivity | lra]. }
  unfold Nerf32.transmittance, Nerf32.cumprod.
  cbn [firstn map app]. rewrite Hf.
  assert (Hmul : fmul acc (Fin 1) (Fin 1) = Fin 1)
    by (cbn [fmul]; rewrite Rmult_1_l; exact Hone).
  assert (Hcast : fcast binary32 (Fin 1) = Fin 1) by exact Hone32.
  cbn [Nerf32.cumprod_from]. rewrite !Hmul, !Hcast. reflexivity.
Qed.

Lemma transmittance_non_increasing_float32_witness :
  exists T : list R,
    Nerf32.transmittance binary64
      (Nerf32.alpha (fun x => of_R binary32 (exp x))
         (map Fin [0; 0; 0]) (map Fin [0; 1; 2]))
    = map Fin T /\
    Sorted Rge T.
Proof.
  destruct (transmittance_non_increasing_float32 binary64
              (fun x => of_R binary32 (exp x)) [0; 0; 0] [0; 1; 2])
    as [T [HT [_ [_ Hs]]]].
  - right. reflexivity.
  - intros x Hx.
    destruct (of_R_unit binary32 (exp x) binary32_unit (exp_unit_range x Hx))
      as [-> Hr].
    eexists. split; [reflexivity | exact Hr].
  - reflexivity.
  - repeat constructor; lra.
  - repeat constructor; lra.
  - assert (H2 : 2 <= pow2 126) by (rewrite <- pow2_1; apply pow2_le; lia).
    repeat (constructor; [rewrite Rabs_pos_eq by lra; lra|]). constructor.
  - exists T. split; assumption.
Defined.

End TransmittanceClaims.


(* ------------------------------------------------------------------ *)
(** * Stratified sampling with jitter *)

Section Jitter.

Variables near far : R.
Variable num_samples : nat.
Hypothesis near_lt_far : near < far.
Hypothesis two_samples : (2 <= num_samples)%nat.

Lemma num_samples_ge_2 : 2 <= INR num_samples.
Proof. change 2 with (INR 2). apply le_INR, two_samples. Qed.


Lemma grid_succ (k : nat) :
  linspace_entry near far num_samples (S k)
  = linspace_entry near far num_samples k
    + (far - near) / (INR num_samples - 1).
Proof. unfold linspace_entry. rewrite S_INR. lra. Qed.




End Jitter.


(* ------------------------------------------------------------------ *)
(** * Inverse-CDF sampling *)

Section SamplePdf.

Lemma cdf_of_two_equal_weights :
  cdf_of [1; 1]
  = [0; (1 + pdf_eps) / ((1 + pdf_eps) + ((1 + pdf_eps) + 0));
     (1 + pdf_eps) / ((1 + pdf_eps) + ((1 + pdf_eps) + 0))
     + (1 + pdf_eps) / ((1 + pdf_eps) + ((1 + pdf_eps) + 0))].
Proof. reflexivity. Qed.

Lemma half_of_two_equal_weights :
  (1 + pdf_eps) / ((1 + pdf_eps) + ((1 + pdf_eps) + 0)) = 1 / 2.
Proof. unfold pdf_eps. lra. Qed.

(** C4 (code defect).  Two coarse samples with equal weights and the
    quantile 0.75: [searchsorted] returns 2, the clamp against
    [cdf.shape[-1] - 1 = 2] leaves [above = 2], and the gather from the
    two-entry [t_vals] is out of bounds, so the call raises. *)
Theorem sample_pdf_last_bin_out_of_bounds :
  let t_vals := [2; 6] in
  let weights := [1; 1] in
  let u := [0.75] in
  0 <= 0.75 < 1 /\
  map (searchsorted_right (cdf_of weights)) u = [2%Z] /\
  gather t_vals [2%Z] = None /\
  _sample_pdf_row t_vals weights u = None /\
  _sample_pdf [t_vals] [weights] [u] = None.
Proof.
  cbv zeta.
  assert (Hidx : map (searchsorted_right (cdf_of [1; 1])) [0.75] = [2%Z]).
  { rewrite cdf_of_two_equal_weights, half_of_two_equal_weights.
    cbn [map searchsorted_right].
    rewrite (Rle_dec_true 0 0.75) by lra.
    rewrite (Rle_dec_true (1 / 2) 0.75) by lra.
    rewrite (Rle_dec_false (1 / 2 + 1 / 2) 0.75) by lra.
    reflexivity. }
  assert (Hrow : _sample_pdf_row [2; 6] [1; 1] [0.75] = None).
  { unfold _sample_pdf_row. rewrite Hidx.
    rewrite cdf_of_two_equal_weights. reflexivity. }
  split; [lra|]. split; [exact Hidx|]. split; [reflexivity|].
  split; [exact Hrow|].
  unfold _sample_pdf. rewrite Hrow. reflexivity.
Qed.

(** The floor on the denominators holds for every bin. *)
Lemma floor_denom_floored (d : R) : pdf_eps <= floor_denom d.
Proof.
  unfold floor_denom, where_, Rltb.
  destruct (Rlt_dec d pdf_eps); unfold pdf_eps in *; lra.
Qed.

Lemma sum_scaled (W : R) (l : list R) :
  sum (map (fun w => w / W) l) = sum l / W.
Proof.
  induction l as [|a r IH]; cbn [map sum fold_right]; [lra|].
  fold (sum (map (fun w => w / W) r)). fold (sum r). rewrite IH. lra.
Qed.

Lemma sum_pos (l : list R) : Forall (fun w => 0 < w) l -> l <> [] -> 0 < sum l.
Proof.
  induction 1 as [|a r Ha Hr IH]; intros Hne; [contradiction|].
  cbn [sum fold_right]. fold (sum r).
  destruct r as [|b r']; [cbn; lra|].
  assert (0 < sum (b :: r')) by (apply IH; discriminate). lra.
Qed.

Lemma searchsorted_right_cons (c : R) (r : list R) (v : R) :
  searchsorted_right (c :: r) v
  = if Rle_dec c v then (1 + searchsorted_right r v)%Z else 0%Z.
Proof. reflexivity. Qed.

(** In a strictly increasing list of partial sums some value reaches
    the last bin: [searchsorted] then returns the index of the last
    entry. *)
Lemma searchsorted_reaches_last_bin (r : list R) :
  Forall (fun w => 0 < w) r -> r <> [] ->
  forall acc, exists u,
    acc <= u < acc + sum r /\
    searchsorted_right (acc :: scan Rplus acc r) u = Z.of_nat (length r).
Proof.
  induction 1 as [|y r Hy Hr IH]; intros Hne acc; [contradiction|].
  destruct r as [|y' r'].
  - exists acc. cbn [sum fold_right scan searchsorted_right length].
    split; [lra|].
    rewrite (Rle_dec_true acc acc) by lra.
    rewrite (Rle_dec_false (acc + y) acc) by lra. reflexivity.
  - destruct (IH ltac:(discriminate) (acc + y)) as [u [[Hlo Hhi] Hidx]].
    exists u. split.
    + cbn [sum fold_right] in *. lra.
    + change (scan Rplus acc (y :: y' :: r'))
        with ((acc + y) :: scan Rplus (acc + y) (y' :: r')).
      rewrite searchsorted_right_cons, (Rle_dec_true acc u) by lra.
      rewrite Hidx. cbn [length]. lia.
Qed.

Lemma gather_past_end (t_vals : list R) :
  gather t_vals [Z.of_nat (length t_vals)] = None.
Proof.
  cbn [gather].
  destruct (Z.of_nat (length t_vals) <? 0)%Z; [reflexivity|].
  rewrite Nat2Z.id.
  destruct (nth_error t_vals (length t_vals)) eqn:E; [|reflexivity].
  assert (Hn : nth_error t_vals (length t_vals) <> None) by congruence.
  apply nth_error_Some in Hn. lia.
Qed.

(** The defect is not confined to one input: whatever the non-negative
    weights, some quantile in [[0, 1)] lands in the last bin and makes
    the call raise. *)
Lemma sample_pdf_raises_in_last_bin (t_vals weights : list R) :
  length t_vals = length weights -> weights <> [] ->
  Forall (fun w => 0 <= w) weights ->
  exists u, 0 <= u < 1 /\ _sample_pdf_row t_vals weights [u] = None.
Proof.
  intros Hlen Hne Hw.
  set (ws := map (fun w => w + pdf_eps) weights).
  assert (Hws : Forall (fun w => 0 < w) ws).
  { unfold ws. rewrite Forall_forall in *. intros w' Hin.
    apply in_map_iff in Hin. destruct Hin as [w [<- Hin]].
    specialize (Hw w Hin). unfold pdf_eps. lra. }
  assert (Hwsne : ws <> [])
    by (unfold ws; destruct weights; [contradiction|discriminate]).
  pose proof (sum_pos ws Hws Hwsne) as HW.
  set (pdf := map (fun w => w / sum ws) ws).
  assert (Hpdf : Forall (fun p => 0 < p) pdf).
  { unfold pdf. rewrite Forall_forall in *. intros p' Hin.
    apply in_map_iff in Hin. destruct Hin as [w [<- Hin]].
    apply Rdiv_lt_0_compat; auto. }
  assert (Hone : sum pdf = 1)
    by (unfold pdf; rewrite sum_scaled; field; lra).
  assert (Hplen : length pdf = length t_vals)
    by (unfold pdf, ws; rewrite !length_map; auto).
  assert (Hpne : pdf <> []).
  { intros E. apply (f_equal (@length R)) in E. rewrite Hplen, Hlen in E.
    destruct weights; [contradiction|discriminate]. }
  assert (Hcdf : cdf_of weights = 0 :: cumsum pdf).
  { assert (Hgen : forall p : list R, p <> [] ->
              zeros_like (first1 (cumsum p)) ++ cumsum p = 0 :: cumsum p)
      by (intros [|x r] H; [contradiction|reflexivity]).
    unfold cdf_of. apply Hgen, Hpne. }
  clearbody pdf.
  assert (Hu : exists u, 0 <= u < 1 /\
             searchsorted_right (0 :: cumsum pdf) u
             = Z.of_nat (length t_vals)).
  { rewrite <- Hplen. destruct pdf as [|x r]; [contradiction|].
    inversion Hpdf as [|? ? Hx Hr]; subst.
    cbn [sum fold_right] in Hone. fold (sum r) in Hone.
    destruct r as [|y r'].
    - exists 0. split; [lra|]. cbn [cumsum scan searchsorted_right length].
      rewrite (Rle_dec_true 0 0) by lra.
      rewrite (Rle_dec_false x 0) by lra. reflexivity.
    - destruct (searchsorted_reaches_last_bin (y :: r') Hr
                  ltac:(discriminate) x) as [u [[Hlo Hhi] Hidx]].
      exists u. split; [lra|].
      cbn [cumsum].
      rewrite searchsorted_right_cons, (Rle_dec_true 0 u) by lra.
      rewrite Hidx. cbn [length]. lia. }
  destruct Hu as [u [Hrange Hidx]]. exists u. split; [exact Hrange|].
  unfold _sample_pdf_row. rewrite Hcdf. cbn [map]. rewrite Hidx.
  assert (Habove :
    clampZ (Z.of_nat (length t_vals)) 0
      (Z.of_nat (length (0 :: cumsum pdf)) - 1)
    = Z.of_nat (length t_vals)).
  { apply clampZ_fixed_upper. cbn [length].
    assert (length (cumsum pdf) = length pdf).
    { destruct pdf as [|x r]; [reflexivity|]. cbn [cumsum length].
      f_equal. clear. revert x. induction r as [|y r IH]; intros x;
        [reflexivity|]. cbn [scan length]. f_equal. apply IH. }
    lia. }
  rewrite Habove, gather_past_end.
  destruct (gather (0 :: cumsum pdf) _); [|reflexivity].
  destruct (gather (0 :: cumsum pdf) _); [|reflexivity].
  destruct (gather t_vals _); reflexivity.
Qed.

End SamplePdf.

(* ------------------------------------------------------------------ *)
(** * The spatial hash *)

Section SpatialHash.

Import InstantNGP.

Open Scope Z_scope.

Lemma wrap64_small (z : Z) : - 2 ^ 63 <= z < 2 ^ 63 -> wrap64 z = z.
Proof. intros H. unfold wrap64. rewrite Z.mod_small; lia. Qed.

Lemma clampZ_range (x hi : Z) : 0 <= hi -> 0 <= clampZ x 0 hi <= hi.
Proof. intros H. unfold clampZ. lia. Qed.

Lemma init_fields (L base maxr : Z) (log2T : nat) (F : Z)
  (randn : list (list R)) (h : HashEncoding) :
  HashEncoding_init L base maxr log2T F randn = Ok h ->
  primes h = (1, 2654435761, 805459861) /\
  hashmap_size h = 2 ^ Z.of_nat log2T /\
  length (hash_table h) = length randn /\
  hash_table h = map (map (fun x => (x * 1e-4)%R)) randn.
Proof.
  unfold HashEncoding_init. intros Hinit. injection Hinit as <-.
  cbn [primes hashmap_size hash_table]. rewrite length_map. auto.
Qed.

Lemma pow2_pos (n : nat) : 0 < 2 ^ Z.of_nat n.
Proof. apply Z.pow_pos_nonneg; lia. Qed.

(** The index is a residue of a positive modulus, whatever the corner
    and the resolution. *)
Lemma hash_position_range (h : HashEncoding) (c : Z * Z * Z) (res : Z) :
  0 < hashmap_size h -> 0 <= _hash_position h c res < hashmap_size h.
Proof.
  intros HT. destruct c as [[x y] z]. unfold _hash_position.
  destruct (primes h) as [[p0 p1] p2]. apply Z.mod_pos_bound, HT.
Qed.

Lemma index_row_in_bounds (table : list (list R)) (idx : Z) :
  0 <= idx < Z.of_nat (length table) ->
  exists row, index_row table idx = Some row.
Proof.
  intros [H0 H1]. unfold index_row.
  destruct (0 <=? idx) eqn:E; [|lia].
  destruct (nth_error table (Z.to_nat idx)) as [row|] eqn:En;
    [exists row; reflexivity|].
  apply nth_error_None in En. lia.
Qed.

(** C5.  For an encoder built by the constructor, any corner and any
    level resolution that fits [int32]: the components are clamped into
    [[0, N_l - 1]], the index is
    [((cx * 1) xor (cy * 2654435761) xor (cz * 805459861)) mod T], it
    lies in [[0, T)], the table lookup succeeds, and corners with equal
    indices read the same row. *)
Theorem hash_position_clamped_in_bounds
  (L base maxr : Z) (log2T : nat) (F : Z) (randn : list (list R))
  (h : HashEncoding) (x y z res : Z) :
  HashEncoding_init L base maxr log2T F randn = Ok h ->
  Z.of_nat (length randn) = 2 ^ Z.of_nat log2T ->
  1 <= res < 2 ^ 31 ->
  let T := 2 ^ Z.of_nat log2T in
  let cx := clampZ x 0 (res - 1) in
  let cy := clampZ y 0 (res - 1) in
  let cz := clampZ z 0 (res - 1) in
  let idx := _hash_position h (x, y, z) res in
  (0 <= cx <= res - 1 /\ 0 <= cy <= res - 1 /\ 0 <= cz <= res - 1) /\
  idx = Z.lxor (Z.lxor (cx * 1) (cy * 2654435761)) (cz * 805459861) mod T /\
  0 <= idx < T /\
  (exists row, index_row (hash_table h) idx = Some row) /\
  forall x' y' z',
    _hash_position h (x', y', z') res = idx ->
    index_row (hash_table h) (_hash_position h (x', y', z') res)
    = index_row (hash_table h) idx.
Proof.
  intros Hinit Hlen Hres T cx cy cz idx.
  destruct (init_fields _ _ _ _ _ _ _ Hinit) as (Hp & HT & Hlt & _).
  pose proof (pow2_pos log2T) as HTpos.
  assert (Hcx : 0 <= cx <= res - 1) by (apply clampZ_range; lia).
  assert (Hcy : 0 <= cy <= res - 1) by (apply clampZ_range; lia).
  assert (Hcz : 0 <= cz <= res - 1) by (apply clampZ_range; lia).
  assert (Hrange : 0 <= idx < T).
  { unfold idx, T. rewrite <- HT. apply hash_position_range. lia. }
  split; [auto|]. split; [|split; [exact Hrange|split]].
  - unfold idx, _hash_position. rewrite Hp, HT.
    fold cx cy cz T.
    rewrite !wrap64_small by nia. reflexivity.
  - apply index_row_in_bounds. rewrite Hlt, Hlen. exact Hrange.
  - intros x' y' z' ->. reflexivity.
Qed.

Lemma hash_position_clamped_in_bounds_witness :
  exists row,
    index_row (map (map (fun x => (x * 1e-4)%R)) [[1%R; 2%R]; [3%R; 4%R]])
      (Z.lxor (Z.lxor (clampZ 7 0 (4 - 1) * 1)
                      (clampZ (- 3) 0 (4 - 1) * 2654435761))
              (clampZ 2 0 (4 - 1) * 805459861) mod 2 ^ Z.of_nat 1)
    = Some row.
Proof.
  pose proof (hash_position_clamped_in_bounds 16 16 2048 1 2
                [[1%R; 2%R]; [3%R; 4%R]] _ 7 (- 3) 2 4
                eq_refl eq_refl ltac:(lia)) as H.
  cbv zeta in H.
  destruct H as (_ & Hidx & _ & Hrow & _).
  rewrite Hidx in Hrow. exact Hrow.
Defined.

End SpatialHash.

(* ------------------------------------------------------------------ *)
(** * Interpolation at a lattice corner *)

Section LatticeCorner.

Import InstantNGP.

Lemma Int_part_IZR (c : Z) : Int_part (IZR c) = c.
Proof. symmetry. apply Int_part_spec. lra. Qed.

Lemma lerp_zero (ca cb : list R) :
  length ca = length cb -> lerp ca cb 0 = ca.
Proof.
  revert cb; induction ca as [|a r IH]; intros [|b r2] Hlen;
    try discriminate; [reflexivity|].
  unfold lerp in *. cbn [map map2]. injection Hlen as Hlen.
  rewrite (IH r2 Hlen). f_equal. lra.
Qed.

Lemma index_row_width (table : list (list R)) (W : nat) (idx : Z)
  (row : list R) :
  Forall (fun r => length r = W) table ->
  index_row table idx = Some row -> length row = W.
Proof.
  intros Hall Hrow. rewrite Forall_forall in Hall. apply Hall.
  unfold index_row in Hrow.
  destruct (0 <=? idx)%Z; [eapply nth_error_In; eassumption|].
  destruct (- Z.of_nat (length table) <=? idx)%Z; [|discriminate].
  eapply nth_error_In; eassumption.
Qed.

(** With all three interpolation weights zero the result is the first
    corner's row. *)
Lemma trilinear_zero_weights (W : nat) (c000 c001 c010 c011 : list R)
  (c100 c101 c110 c111 : list R) :
  Forall (fun r => length r = W)
         [c000; c001; c010; c011; c100; c101; c110; c111] ->
  _trilinear_interpolate [c000; c001; c010; c011; c100; c101; c110; c111]
    (0, 0, 0) = Some c000.
Proof.
  intros Hall.
  repeat match goal with
         | H : Forall _ (_ :: _) |- _ =>
             let Hh := fresh "Hw" in
             let Ht := fresh "Hall" in
             inversion H as [|? ? Hh Ht]; subst; clear H
         end.
  unfold _trilinear_interpolate.
  rewrite (lerp_zero c000 c100), (lerp_zero c001 c101),
    (lerp_zero c010 c110), (lerp_zero c011 c111),
    (lerp_zero c000 c010), (lerp_zero c001 c011),
    (lerp_zero c000 c001) by congruence.
  reflexivity.
Qed.

(** C9.  For an encoder built by the constructor over a table of [T]
    rows of equal width, a level resolution [N_l] and an integer corner
    [c] in [[0, N_l - 1]^3]: at the position whose scaled coordinates
    are exactly [c], the level's output is the table row addressed by
    the hash of [c], unchanged. *)
Theorem forward_level_at_lattice_corner
  (L base maxr : Z) (log2T : nat) (F : Z) (randn : list (list R))
  (W : nat) (h : HashEncoding) (res cx cy cz : Z) (x y z : R) :
  HashEncoding_init L base maxr log2T F randn = Ok h ->
  Z.of_nat (length randn) = (2 ^ Z.of_nat log2T)%Z ->
  Forall (fun r => length r = W) randn ->
  (1 <= res < 2 ^ 31)%Z ->
  (0 <= cx <= res - 1)%Z ->
  (0 <= cy <= res - 1)%Z ->
  (0 <= cz <= res - 1)%Z ->
  (x + 1) * 0.5 * IZR (res - 1) = IZR cx ->
  (y + 1) * 0.5 * IZR (res - 1) = IZR cy ->
  (z + 1) * 0.5 * IZR (res - 1) = IZR cz ->
  exists row,
    index_row (hash_table h) (_hash_position h (cx, cy, cz) res) = Some row /\
    forward_level h res ((x + 1) * 0.5, (y + 1) * 0.5, (z + 1) * 0.5)
      = Some row.
Proof.
  intros Hinit Hlen Hwid Hres Hcx Hcy Hcz Hx Hy Hz.
  destruct (init_fields _ _ _ _ _ _ _ Hinit) as (_ & HT & Hlt & Htab).
  assert (Hlook : forall c, exists row,
             index_row (hash_table h) (_hash_position h c res) = Some row).
  { intros c. apply index_row_in_bounds. rewrite Hlt, Hlen, <- HT.
    apply hash_position_range. rewrite HT. apply pow2_pos. }
  assert (Hrows : Forall (fun r => length r = W) (hash_table h)).
  { rewrite Htab. rewrite Forall_forall in *. intros r Hr.
    apply in_map_iff in Hr. destruct Hr as [r0 [<- Hr0]].
    rewrite length_map. auto. }
  unfold forward_level. rewrite Hx, Hy, Hz, !Int_part_IZR.
  replace (IZR cx - IZR cx) with 0 by lra.
  replace (IZR cy - IZR cy) with 0 by lra.
  replace (IZR cz - IZR cz) with 0 by lra.
  cbn [corners_of flat_map map app]. rewrite !Z.add_0_r.
  repeat match goal with
         | |- context [index_row (hash_table h) (_hash_position h ?c res)] =>
             let r := fresh "row" in
             let Hr := fresh "Hrow" in
             destruct (Hlook c) as [r Hr]; rewrite Hr;
             pose proof (index_row_width _ W _ _ Hrows Hr)
         end.
  cbn [all_some]. exists row. split; [reflexivity|].
  apply (trilinear_zero_weights W). repeat constructor; assumption.
Qed.

Lemma forward_level_at_lattice_corner_witness :
  exists row,
    forward_level
      (mkHashEncoding 16 16 2048 2 (2 ^ Z.of_nat 1)
         (exp ((ln (IZR 2048) - ln (IZR 16)) / IZR (16 - 1)))
         (map (map (fun x => x * 1e-4)) [[1; 2]; [3; 4]])
         (map (fun level =>
                 Z.min (trunc (IZR 16
                                * exp ((ln (IZR 2048) - ln (IZR 16))
                                       / IZR (16 - 1)) ^ level))
                       2048)
              (seq 0 (Z.to_nat 16)))
         (1, 2654435761, 805459861)%Z)
      3 ((0 + 1) * 0.5, (-1 + 1) * 0.5, (1 + 1) * 0.5)
    = Some row.
Proof.
  destruct (forward_level_at_lattice_corner 16 16 2048 1 2
              [[1; 2]; [3; 4]] 2 _ 3 1 0 2 0 (-1) 1
              eq_refl eq_refl
              ltac:(repeat constructor) ltac:(lia) ltac:(lia) ltac:(lia)
              ltac:(lia) ltac:(simpl; lra) ltac:(simpl; lra)
              ltac:(simpl; lra))
    as [row [_ Hrow]].
  exists row. exact Hrow.
Defined.

End LatticeCorner.

(* ------------------------------------------------------------------ *)
(** * The direction encoder *)

Section DirectionEncoder.

Import InstantNGP.
Import Spec.

Lemma norm_nonneg (v : vec3) : 0 <= norm v.
Proof. destruct v as [[x y] z]. apply sqrt_pos. Qed.

Lemma norm_vscale (k : R) (v : vec3) :
  0 <= k -> norm (vscale k v) = k * norm v.
Proof.
  intros Hk. destruct v as [[x y] z]. unfold norm, vscale.
  replace (k * x * (k * x) + k * y * (k * y) + k * z * (k * z))
    with (k * k * (x * x + y * y + z * z)) by ring.
  rewrite sqrt_mult; [|nra|nra].
  rewrite sqrt_square by exact Hk. reflexivity.
Qed.

(** Above the floor of [F.normalize] the unit vector does not depend
    on the scale. *)
Lemma normalize_vscale (k : R) (v : vec3) :
  0 < k -> norm_eps <= norm v -> norm_eps <= k * norm v ->
  normalize (vscale k v) = normalize v.
Proof.
  intros Hk Hv Hkv.
  assert (Hn : 0 < norm v) by (unfold norm_eps in Hv; lra).
  pose proof (norm_vscale k v (Rlt_le _ _ Hk)) as Hs.
  destruct v as [[x y] z]. unfold normalize.
  cbn [vscale] in Hs |- *.
  rewrite Hs, !Rmax_left by lra.
  set (n := norm (x, y, z)) in *.
  f_equal; [f_equal|]; field; lra.
Qed.

(** C6 (amended).  For a direction [v] whose norm is at least the
    floor 1e-12 of [F.normalize], and a scale [k > 0] that keeps
    [k * norm v] at least that floor, the encoder returns the same
    features for [v] and [k * v]. *)
Theorem direction_encoding_scale_invariant
  (e : SphericalHarmonicsEncoding) (k : R) (v : vec3) :
  0 < k -> norm_eps <= norm v -> norm_eps <= k * norm v ->
  SphericalHarmonicsEncoding_forward e (vscale k v)
  = SphericalHarmonicsEncoding_forward e v.
Proof.
  intros Hk Hv Hkv. unfold SphericalHarmonicsEncoding_forward.
  rewrite (normalize_vscale k v Hk Hv Hkv). reflexivity.
Qed.

Lemma norm_axis (a : R) : 0 <= a -> norm (a, 0, 0) = a.
Proof.
  intros Ha. unfold norm.
  replace (a * a + 0 * 0 + 0 * 0) with (a * a) by ring.
  apply sqrt_square, Ha.
Qed.

Lemma direction_encoding_scale_invariant_witness :
  0 < 2 /\ norm_eps <= norm (3, 0, 0) /\ norm_eps <= 2 * norm (3, 0, 0) /\
  SphericalHarmonicsEncoding_forward (SphericalHarmonicsEncoding_init 4)
    (vscale 2 (3, 0, 0))
  = SphericalHarmonicsEncoding_forward (SphericalHarmonicsEncoding_init 4)
      (3, 0, 0).
Proof.
  assert (Hk : 0 < 2) by lra.
  assert (Hv : norm_eps <= norm (3, 0, 0))
    by (rewrite norm_axis by lra; unfold norm_eps; lra).
  assert (Hkv : norm_eps <= 2 * norm (3, 0, 0))
    by (rewrite norm_axis by lra; unfold norm_eps; lra).
  split; [exact Hk|]. split; [exact Hv|]. split; [exact Hkv|].
  exact (direction_encoding_scale_invariant
           (SphericalHarmonicsEncoding_init 4) 2 (3, 0, 0) Hk Hv Hkv).
Defined.

Lemma normalize_tiny : normalize (1e-13, 0, 0) = (1 / 10, 0 / norm_eps, 0 / norm_eps).
Proof.
  unfold normalize. rewrite norm_axis by lra.
  rewrite Rmax_right by (unfold norm_eps; lra).
  f_equal. f_equal. unfold norm_eps. lra.
Qed.

Lemma normalize_tiny_scaled :
  normalize (vscale 10 (1e-13, 0, 0)) = (1, 10 * 0 / norm_eps, 10 * 0 / norm_eps).
Proof.
  unfold vscale, normalize, norm.
  replace (10 * 1e-13 * (10 * 1e-13) + 10 * 0 * (10 * 0) + 10 * 0 * (10 * 0))
    with (1e-12 * 1e-12) by lra.
  rewrite sqrt_square by lra.
  rewrite Rmax_left by (unfold norm_eps; lra).
  f_equal. f_equal. unfold norm_eps. lra.
Qed.

Lemma close_to_nth (tol : R) (l1 l2 : list R) :
  close_to tol l1 l2 ->
  forall i a b, nth_error l1 i = Some a -> nth_error l2 i = Some b ->
                Rabs (a - b) <= tol.
Proof.
  induction 1 as [|a0 b0 r1 r2 Hab _ IH]; intros [|i] a b Ha Hb;
    try discriminate.
  - cbn in Ha, Hb. injection Ha as <-. injection Hb as <-. exact Hab.
  - cbn in Ha, Hb. eapply IH; eassumption.
Qed.

(** C6 as stated fails below the floor: the direction
    [(1e-13, 0, 0)] has positive norm, yet scaling it by 10 moves the
    fourth feature from [-0.0489] to [-0.489]. *)
Lemma direction_encoding_scale_dependent_below_floor :
  0 < norm (1e-13, 0, 0) /\ 0 < 10 /\
  exists f1 f2,
    SphericalHarmonicsEncoding_forward (SphericalHarmonicsEncoding_init 4)
      (1e-13, 0, 0) = Some f1 /\
    SphericalHarmonicsEncoding_forward (SphericalHarmonicsEncoding_init 4)
      (vscale 10 (1e-13, 0, 0)) = Some f2 /\
    ~ close_to (1 / 10) f1 f2.
Proof.
  split; [rewrite norm_axis by lra; lra|]. split; [lra|].
  unfold SphericalHarmonicsEncoding_forward.
  rewrite normalize_tiny, normalize_tiny_scaled.
  change (Z.to_nat (output_dim (SphericalHarmonicsEncoding_init 4)))
    with 25%nat.
  change (degree (SphericalHarmonicsEncoding_init 4)) with 4%Z.
  cbn [sh_features Z.leb Z.compare Pos.compare Pos.compare_cont app firstn].
  eexists _, _. split; [reflexivity|]. split; [reflexivity|].
  intros Hc.
  pose proof (close_to_nth _ _ _ Hc 3%nat _ _ eq_refl eq_refl) as Hd.
  match type of Hd with
  | Rabs ?d <= _ => pose proof (Rle_abs d) as Habs
  end.
  lra.
Qed.

End DirectionEncoder.

Section DirectionWidth.

Import InstantNGP.

(** Up to degree 4 the encoder returns [(D + 1)^2] features. *)
Lemma direction_encoding_width_small (D : Z) (v : vec3) :
  (0 <= D <= 4)%Z ->
  exists f,
    SphericalHarmonicsEncoding_forward (SphericalHarmonicsEncoding_init D) v
      = Some f /\
    Z.of_nat (length f) = ((D + 1) ^ 2)%Z.
Proof.
  intros HD.
  assert (Hcase : D = 0%Z \/ D = 1%Z \/ D = 2%Z \/ D = 3%Z \/ D = 4%Z)
    by lia.
  unfold SphericalHarmonicsEncoding_forward.
  destruct (normalize v) as [[x y] z].
  destruct Hcase as [-> | [-> | [-> | [-> | ->]]]];
    eexists; (split; [reflexivity|reflexivity]).
Qed.

(** C8 (code defect).  With maximum degree 5 the encoder announces
    [output_dim = 36] but returns 25 features for every direction: the
    feature list stops at the degree-4 band and the final slice cannot
    lengthen it. *)
Theorem direction_encoding_width_stops_at_25 (v : vec3) :
  output_dim (SphericalHarmonicsEncoding_init 5) = 36%Z /\
  exists f,
    SphericalHarmonicsEncoding_forward (SphericalHarmonicsEncoding_init 5) v
      = Some f /\
    length f = 25%nat.
Proof.
  split; [reflexivity|].
  unfold SphericalHarmonicsEncoding_forward.
  destruct (normalize v) as [[x y] z].
  eexists. split; reflexivity.
Qed.

End DirectionWidth.

(* ------------------------------------------------------------------ *)
(** * Validation at construction *)

Section Construction.

Import InstantNGP.

Lemma post_init_rejects (c : ModelConfig) :
  ModelConfig_post_init c = ValueError <->
  ((network_width c <= 0)%Z \/ (network_depth c <= 0)%Z \/
   (max_samples c <= 0)%Z \/ near_plane c >= far_plane c).
Proof.
  unfold ModelConfig_post_init.
  destruct (network_width c <=? 0)%Z eqn:Ew;
    [split; [intros _; left; lia | reflexivity]|].
  destruct (network_depth c <=? 0)%Z eqn:Ed;
    [split; [intros _; right; left; lia | reflexivity]|].
  destruct (max_samples c <=? 0)%Z eqn:Es;
    [split; [intros _; right; right; left; lia | reflexivity]|].
  destruct (Rge_dec (near_plane c) (far_plane c)) as [Hge | Hlt];
    [split; [intros _; right; right; right; exact Hge | reflexivity]|].
  split; [discriminate|].
  intros [H | [H | [H | H]]]; try lia. contradiction.
Qed.

Lemma forward_without_levels (h : HashEncoding) (p : vec3) :
  resolutions h = [] -> HashEncoding_forward h p = None.
Proof.
  intros Hr. unfold HashEncoding_forward. destruct p as [[x y] z].
  rewrite Hr. reflexivity.
Qed.

(** C7 (amended).  [ModelConfig] rejects at construction exactly a
    non-positive [network_width], [network_depth] or [max_samples] and
    [near_plane >= far_plane].  The hash encoder validates nothing: for
    positive resolutions it is built for every level count, its table
    size is [2 ^ log2_hashmap_size] (a power of two by construction,
    independent of [ModelConfig.hashmap_size]), and with a level count
    below 1 it is built without levels, so that encoding then fails. *)
Theorem construction_checks_config_only
  (c : ModelConfig) (L base maxr : Z) (log2T : nat) (F : Z)
  (randn : list (list R)) :
  (0 < base)%Z -> (0 < maxr < 2 ^ 31)%Z -> (0 <= F)%Z ->
  ((max_samples c <= 0)%Z -> ModelConfig_post_init c = ValueError) /\
  (near_plane c >= far_plane c -> ModelConfig_post_init c = ValueError) /\
  (ModelConfig_post_init c = ValueError <->
   ((network_width c <= 0)%Z \/ (network_depth c <= 0)%Z \/
    (max_samples c <= 0)%Z \/ near_plane c >= far_plane c)) /\
  exists h,
    HashEncoding_init L base maxr log2T F randn = Ok h /\
    InstantNGP.hashmap_size h = (2 ^ Z.of_nat log2T)%Z /\
    length (resolutions h) = Z.to_nat L /\
    ((L < 1)%Z -> forall p, HashEncoding_forward h p = None).
Proof.
  intros _ _ _.
  pose proof (post_init_rejects c) as Hiff.
  split; [intros H; apply Hiff; auto|].
  split; [intros H; apply Hiff; auto|].
  split; [exact Hiff|].
  eexists. split; [reflexivity|].
  cbn [InstantNGP.hashmap_size resolutions].
  split; [reflexivity|].
  split; [rewrite length_map, length_seq; reflexivity|].
  intros HL p. apply forward_without_levels.
  cbn [resolutions]. replace (Z.to_nat L) with 0%nat by lia. reflexivity.
Qed.

Lemma construction_checks_config_only_witness :
  exists h,
    HashEncoding_init 0 16 2048 1 2 [[1; 2]; [3; 4]] = Ok h /\
    InstantNGP.hashmap_size h = (2 ^ Z.of_nat 1)%Z.
Proof.
  destruct (construction_checks_config_only
              (mkModelConfig 64 2 1000 2048 16 19 1024 0.2 1000 true)
              0 16 2048 1 2 [[1; 2]; [3; 4]]
              ltac:(lia) ltac:(lia) ltac:(lia))
    as (_ & _ & _ & h & Hinit & Hsize & _).
  exists h. split; [exact Hinit | exact Hsize].
Defined.

(** C7 as stated fails on two of its four conditions: a configuration
    whose [hashmap_size] is 1000 passes validation and yields a model,
    and an encoder with level count 0 is constructed and only fails
    when a position is encoded. *)
Lemma construction_accepts_bad_table_size_and_level_count :
  let c := mkModelConfig 64 2 1000 2048 16 19 1024 0.2 1000 true in
  ModelConfig_post_init c = Ok c /\
  (exists h, InstantNGP_init c (repeat [0; 0] (Nat.pow 2 19)) = Ok h) /\
  exists h,
    HashEncoding_init 0 16 2048 1 2 [[1; 2]; [3; 4]] = Ok h /\
    HashEncoding_forward h (0, 0, 0) = None.
Proof.
  cbv zeta. split; [|split].
  - unfold ModelConfig_post_init.
    cbn [network_width network_depth max_samples near_plane far_plane
         Z.leb Z.compare].
    destruct (Rge_dec 0.2 1000) as [H | H]; [lra | reflexivity].
  - eexists. reflexivity.
  - eexists. split; [reflexivity|]. reflexivity.
Qed.

End Construction.

(* ------------------------------------------------------------------ *)
(** * Further properties of the integrators *)

Section IntegratorEdges.

Import Spec.

Lemma map2_nil_r {A B C : Type} (f : A -> B -> C) (l : list A) :
  map2 f l [] = [].
Proof. destruct l; reflexivity. Qed.

Lemma dists_short (t_vals : list R) :
  (length t_vals <= 1)%nat -> dists t_vals = [].
Proof.
  destruct t_vals as [|a [|b r]]; cbn [length]; intros H;
    [reflexivity | reflexivity | lia].
Qed.

(** X1.  A ray with at most one sample has no interval: [dists] is
    empty, so whatever the density the plain renderer returns
    accumulated alpha 0 and the bare background. *)
Theorem volume_render_single_sample
  (scene : SceneConfig) (colors : list vec3) (densities t_vals : list R) :
  (length t_vals <= 1)%nat ->
  length densities = length t_vals ->
  length colors = length t_vals ->
  volume_render_row scene colors densities t_vals
  = [flag_background scene; flag_background scene;
     flag_background scene; 0].
Proof.
  intros Hlen _ _. unfold volume_render_row, alpha.
  rewrite (dists_short _ Hlen), map2_nil_r.
  cbn [map2 vsum sum fold_right]. unfold flag_background.
  destruct (use_white_background scene); unfold vadd, vzero;
    repeat f_equal; lra.
Qed.

Lemma volume_render_single_sample_witness :
  volume_render_row (mkSceneConfig (1, 1, 1) false) [(1, 0, 0)] [5] [2]
  = [0; 0; 0; 0].
Proof.
  apply (volume_render_single_sample (mkSceneConfig (1, 1, 1) false)
           [(1, 0, 0)] [5] [2]); cbn [length]; lia.
Defined.

Lemma alpha_length (densities t_vals : list R) :
  (2 <= length t_vals)%nat -> length densities = length t_vals ->
  length (alpha densities t_vals) = length t_vals.
Proof.
  intros H2 Hl. unfold alpha. rewrite map2_length, dists_length by exact H2.
  lia.
Qed.

Lemma map2_mult_ones (al : list R) :
  sum (map2 Rmult al (ones_like al)) = sum al.
Proof.
  induction al as [|a r IH]; [reflexivity|].
  unfold ones_like, full_like in *. cbn [map map2 sum fold_right].
  fold (sum (map2 Rmult r (map (fun _ => 1) r))). fold (sum r).
  rewrite IH. lra.
Qed.

(** X2.  On a ray with at most one sample the early-terminating
    renderer raises: [alpha] has an empty sample axis and
    [alpha[..., 0]] is out of range. *)
Theorem volume_render_optimized_single_sample_raises
  (scene : SceneConfig) (colors : list vec3) (densities t_vals : list R) :
  (length t_vals <= 1)%nat ->
  length densities = length t_vals ->
  InstantNGP.volume_render_optimized_row scene colors densities t_vals
  = None.
Proof.
  intros Hlen _. unfold InstantNGP.volume_render_optimized_row, alpha.
  rewrite (dists_short _ Hlen), map2_nil_r. reflexivity.
Qed.

Lemma volume_render_optimized_single_sample_raises_witness :
  InstantNGP.volume_render_optimized_row (mkSceneConfig (1, 1, 1) false)
    [(1, 0, 0)] [5] [2] = None.
Proof.
  apply (volume_render_optimized_single_sample_raises
           (mkSceneConfig (1, 1, 1) false) [(1, 0, 0)] [5] [2]);
    cbn [length]; lia.
Defined.

(** X3.  On a ray with at least two samples the early-terminating
    renderer returns, and its accumulated alpha is the plain sum of the
    opacities [alpha_i]: no transmittance enters the weights. *)
Theorem volume_render_optimized_sums_opacities
  (scene : SceneConfig) (colors : list vec3) (densities t_vals : list R) :
  (2 <= length t_vals)%nat ->
  length densities = length t_vals ->
  exists row,
    InstantNGP.volume_render_optimized_row scene colors densities t_vals
      = Some row /\
    length row = 4%nat /\
    acc_alpha_of row = sum (alpha densities t_vals).
Proof.
  intros H2 Hl.
  pose proof (alpha_length densities t_vals H2 Hl) as Hal.
  unfold InstantNGP.volume_render_optimized_row.
  rewrite transmittance_optimized_ones.
  destruct (alpha densities t_vals) as [|a r] eqn:Ea;
    [cbn [length] in Hal; lia|].
  rewrite map2_mult_ones.
  destruct (if use_white_background scene then _ else _) as [[x y] z].
  eexists. split; [reflexivity|]. split; reflexivity.
Qed.

Lemma volume_render_optimized_sums_opacities_witness :
  exists row,
    InstantNGP.volume_render_optimized_row (mkSceneConfig (1, 1, 1) false)
      [(1, 0, 0); (0, 1, 0)] [1; 1] [0; 1] = Some row /\
    acc_alpha_of row = sum (alpha [1; 1] [0; 1]).
Proof.
  destruct (volume_render_optimized_sums_opacities
              (mkSceneConfig (1, 1, 1) false)
              [(1, 0, 0); (0, 1, 0)] [1; 1] [0; 1]
              ltac:(cbn [length]; lia) eq_refl)
    as [row [Hrow [_ Hacc]]].
  exists row. split; [exact Hrow | exact Hacc].
Defined.

Lemma weights_telescope (f : R -> R) (eps : R) :
  (forall a, f a = 1 - a + eps) ->
  forall (al : list R) (acc : R),
    sum (map2 Rmult al (running_product f acc al))
    = acc - acc * fold_right Rmult 1 (map f al)
      + eps * sum (running_product f acc al).
Proof.
  intros Hf al; induction al as [|a r IH]; intros acc.
  - cbn. lra.
  - cbn [running_product map2 map sum fold_right].
    fold (sum (map2 Rmult r (running_product f (acc * f a) r))).
    fold (sum (running_product f (acc * f a) r)).
    rewrite IH, Hf. ring.
Qed.

Lemma fold_mult_pos (l : list R) :
  Forall (fun x => 0 < x) l -> 0 < fold_right Rmult 1 l.
Proof.
  induction 1 as [|x r Hx _ IH]; cbn [fold_right]; [lra|].
  apply Rmult_lt_0_compat; assumption.
Qed.

(** X4.  For non-negative densities and ascending distances the
    importance weights are non-negative and their sum is
    [1 - prod_i (1 - alpha_i + 1e-10) + 1e-10 * sum_i transmittance_i]:
    the alpha budget is conserved up to the [1e-10] terms, and the sum
    stays below [1 + 1e-10 * sum_i transmittance_i]. *)
Theorem sample_weights_conserve_alpha (densities t_vals : list R) :
  Forall (fun s => 0 <= s) densities ->
  Sorted Rle t_vals ->
  let al := alpha densities t_vals in
  let w := _compute_sample_weights densities t_vals in
  Forall (fun x => 0 <= x) w /\
  sum w = 1 - fold_right Rmult 1 (map (fun a => 1 - a + trans_eps) al)
          + trans_eps * sum (transmittance al) /\
  0 <= sum w < 1 + trans_eps * sum (transmittance al).
Proof.
  intros Hd Ht al w.
  pose proof (alpha_range densities t_vals Hd Ht) as Hr. fold al in Hr.
  assert (Hfpos : Forall (fun a => 0 < 1 - a + trans_eps) al).
  { eapply Forall_impl; [|exact Hr]. cbv beta. unfold trans_eps.
    intros a Ha. lra. }
  assert (HT : Forall (fun T => 0 < T) (transmittance al)).
  { rewrite transmittance_running_product.
    apply running_product_pos; [exact Hfpos | lra]. }
  assert (Hw : Forall (fun x => 0 <= x) w).
  { unfold w, _compute_sample_weights. fold al.
    apply (map2_Forall _ (fun a => 0 <= a < 1) (fun T => 0 < T));
      [|exact Hr|exact HT].
    intros a T Ha HTp. nra. }
  assert (Hsum : sum w
    = 1 - fold_right Rmult 1 (map (fun a => 1 - a + trans_eps) al)
      + trans_eps * sum (transmittance al)).
  { unfold w, _compute_sample_weights. fold al.
    rewrite transmittance_running_product.
    rewrite (weights_telescope (fun a => 1 - a + trans_eps) trans_eps)
      by reflexivity.
    lra. }
  split; [exact Hw|]. split; [exact Hsum|].
  split.
  - clear Hsum. induction Hw as [|x r Hx _ IH]; cbn [sum fold_right];
      [lra|]. fold (sum r). lra.
  - rewrite Hsum.
    assert (0 < fold_right Rmult 1 (map (fun a => 1 - a + trans_eps) al)).
    { apply fold_mult_pos. rewrite Forall_map. exact Hfpos. }
    lra.
Qed.

Lemma sample_weights_conserve_alpha_witness :
  Forall (fun s => 0 <= s) [1; 1] /\ Sorted Rle [0; 1] /\
  0 <= sum (_compute_sample_weights [1; 1] [0; 1]).
Proof.
  assert (Hd : Forall (fun s => 0 <= s) [1; 1])
    by (repeat constructor; lra).
  assert (Ht : Sorted Rle [0; 1]) by (repeat constructor; lra).
  split; [exact Hd|]. split; [exact Ht|].
  exact (proj1 (proj2 (proj2
    (sample_weights_conserve_alpha [1; 1] [0; 1] Hd Ht)))).
Defined.

End IntegratorEdges.

(* ------------------------------------------------------------------ *)
(** * Further properties of the sampler *)

Section SamplerInterior.












End SamplerInterior.

(* ------------------------------------------------------------------ *)
(** * The stratified distances *)

Section StratifiedRange.

Variables near far : R.
Variable num_samples : nat.
Hypothesis near_lt_far : near < far.
Hypothesis two_samples : (2 <= num_samples)%nat.

Lemma spacing_pos : 0 < (far - near) / (INR num_samples - 1).
Proof.
  pose proof (num_samples_ge_2 num_samples two_samples) as Hs.
  apply Rdiv_lt_0_compat; lra.
Qed.


Lemma linspace_last :
  linspace_entry near far num_samples (num_samples - 1) = far.
Proof.
  unfold linspace_entry.
  pose proof (num_samples_ge_2 num_samples two_samples) as Hs.
  rewrite minus_INR by lia. change (INR 1) with 1. field. lra.
Qed.

Lemma linspace_from_sorted (n : nat) :
  forall k, Sorted Rlt (map (linspace_entry near far num_samples) (seq k n)).
Proof.
  induction n as [|n IH]; intros k; [constructor|].
  cbn [seq map]. constructor; [apply IH|].
  destruct n as [|n]; [constructor|]. cbn [seq map]. constructor.
  rewrite (grid_succ near far num_samples). pose proof spacing_pos. lra.
Qed.

(** X6.  Outside training mode the distances of a ray are the
    linspace itself: [num_samples] strictly ascending values that start
    at [near] and end at [far]; the noise argument is ignored. *)
Theorem eval_samples_span_near_far (rand : list R) :
  let t_vals := forward_t_vals false near far num_samples rand in
  length t_vals = num_samples /\
  nth_error t_vals 0 = Some near /\
  nth_error t_vals (num_samples - 1) = Some far /\
  Sorted Rlt t_vals.
Proof.
  cbv zeta. unfold forward_t_vals, linspace.
  split; [rewrite length_map, length_seq; reflexivity|].
  split; [|split].
  - destruct num_samples as [|n]; [lia|]. cbn [seq map nth_error].
    f_equal. unfold linspace_entry. cbn [INR]. lra.
  - rewrite nth_error_map, nth_error_seq.
    destruct (Nat.ltb_spec (num_samples - 1) num_samples) as [_ | H];
      [|lia].
    cbn [option_map Nat.add]. f_equal. apply linspace_last.
  - apply linspace_from_sorted.
Qed.



End StratifiedRange.

Lemma eval_samples_span_near_far_witness :
  2 < 6 /\ (2 <= 3)%nat /\
  nth_error (forward_t_vals false 2 6 3 []) (3 - 1) = Some 6.
Proof.
  assert (Hnf : 2 < 6) by lra.
  assert (Hn : (2 <= 3)%nat) by lia.
  split; [exact Hnf|]. split; [exact Hn|].
  exact (proj1 (proj2 (proj2
    (eval_samples_span_near_far 2 6 3 Hnf Hn [])))).
Defined.


(* ------------------------------------------------------------------ *)
(** * Further properties of the hash encoder *)

Section HashEncoderTotal.

Import InstantNGP.

Lemma lerp_length (ca cb : list R) (w : R) (W : nat) :
  length ca = W -> length cb = W -> length (lerp ca cb w) = W.
Proof.
  intros Ha Hb. unfold lerp. rewrite map2_length, !length_map. lia.
Qed.

Lemma lerp_same (c : list R) (w : R) : lerp c c w = c.
Proof.
  unfold lerp. induction c as [|a r IH]; [reflexivity|].
  cbn [map map2]. rewrite IH. f_equal. ring.
Qed.

Lemma all_some_map {A B : Type} (g : A -> option B) (P : B -> Prop)
  (l : list A) :
  (forall a, exists b, g a = Some b /\ P b) ->
  exists bs, all_some (map g l) = Some bs /\
             length bs = length l /\ Forall P bs.
Proof.
  intros Hg. induction l as [|a r [bs [Hbs [Hlen HP]]]].
  - exists []. repeat split; constructor.
  - destruct (Hg a) as [b [Hb HPb]]. exists (b :: bs).
    cbn [map all_some]. rewrite Hb, Hbs. cbn [length].
    repeat split; [congruence | constructor; assumption].
Qed.

Lemma concat_uniform_length {A : Type} (W : nat) (ls : list (list A)) :
  Forall (fun r => length r = W) ls ->
  length (concat ls) = (length ls * W)%nat.
Proof.
  induction 1 as [|r rs Hr _ IH]; [reflexivity|].
  cbn [concat length]. rewrite length_app, IH, Hr. lia.
Qed.

(** Every level returns a row of the table's width, for any
    resolution and any position: the eight lookups are in bounds. *)
Lemma forward_level_total
  (L base maxr : Z) (log2T : nat) (F : Z) (randn : list (list R))
  (W : nat) (h : HashEncoding) (res : Z) (p : vec3) :
  HashEncoding_init L base maxr log2T F randn = Ok h ->
  Z.of_nat (length randn) = (2 ^ Z.of_nat log2T)%Z ->
  Forall (fun r => length r = W) randn ->
  exists row, forward_level h res p = Some row /\ length row = W.
Proof.
  intros Hinit Hlen Hwid.
  destruct (init_fields _ _ _ _ _ _ _ Hinit) as (_ & HT & Hlt & Htab).
  assert (Hlook : forall c, exists row,
             index_row (hash_table h) (_hash_position h c res) = Some row).
  { intros c. apply index_row_in_bounds. rewrite Hlt, Hlen, <- HT.
    apply hash_position_range. rewrite HT. apply pow2_pos. }
  assert (Hrows : Forall (fun r => length r = W) (hash_table h)).
  { rewrite Htab. rewrite Forall_forall in *. intros r Hr.
    apply in_map_iff in Hr. destruct Hr as [r0 [<- Hr0]].
    rewrite length_map. auto. }
  destruct p as [[px py] pz]. unfold forward_level.
  cbn [corners_of flat_map map app].
  repeat match goal with
         | |- context [index_row (hash_table h) (_hash_position h ?c res)] =>
             let r := fresh "row" in
             let Hr := fresh "Hrow" in
             destruct (Hlook c) as [r Hr]; rewrite Hr;
             pose proof (index_row_width _ W _ _ Hrows Hr)
         end.
  cbn [all_some _trilinear_interpolate]. eexists. split; [reflexivity|].
  repeat apply lerp_length; assumption.
Qed.

Lemma hash_encoding_forward_rows
  (L base maxr : Z) (log2T : nat) (F : Z) (randn : list (list R))
  (W : nat) (h : HashEncoding) (p : vec3) :
  HashEncoding_init L base maxr log2T F randn = Ok h ->
  Z.of_nat (length randn) = (2 ^ Z.of_nat log2T)%Z ->
  Forall (fun r => length r = W) randn ->
  (1 <= L)%Z ->
  exists rows,
    HashEncoding_forward h p = Some (concat rows) /\
    length rows = Z.to_nat L /\
    Forall (fun row => length row = W) rows.
Proof.
  intros Hinit Hlen Hwid HL.
  assert (Hres : length (resolutions h) = Z.to_nat L).
  { unfold HashEncoding_init in Hinit. injection Hinit as <-.
    cbn [resolutions]. rewrite length_map, length_seq. reflexivity. }
  destruct p as [[x y] z]. unfold HashEncoding_forward.
  destruct (all_some_map
              (fun resolution =>
                 forward_level h resolution
                   ((x + 1) * 0.5, (y + 1) * 0.5, (z + 1) * 0.5))
              (fun row => length row = W) (resolutions h))
    as [rows [Hrows [Hrl HW]]].
  { intros res. eapply forward_level_total; eassumption. }
  rewrite Hrows. exists rows.
  destruct rows as [|f fs]; [cbn [length] in Hrl; lia|].
  split; [reflexivity|]. split; [congruence | exact HW].
Qed.

(** X8.  An encoder with at least one level never raises: for every
    position, inside the unit cube or not, [forward] returns a feature
    vector of [num_levels * W] entries, [W] being the width of the
    table rows. *)
Theorem hash_encoding_forward_total
  (L base maxr : Z) (log2T : nat) (F : Z) (randn : list (list R))
  (W : nat) (h : HashEncoding) (p : vec3) :
  HashEncoding_init L base maxr log2T F randn = Ok h ->
  Z.of_nat (length randn) = (2 ^ Z.of_nat log2T)%Z ->
  Forall (fun r => length r = W) randn ->
  (1 <= L)%Z ->
  exists f,
    HashEncoding_forward h p = Some f /\
    length f = (Z.to_nat L * W)%nat.
Proof.
  intros Hinit Hlen Hwid HL.
  destruct (hash_encoding_forward_rows L base maxr log2T F randn W h p
              Hinit Hlen Hwid HL) as [rows [Hf [Hrl HW]]].
  exists (concat rows). split; [exact Hf|].
  rewrite (concat_uniform_length W) by exact HW.
  rewrite Hrl. reflexivity.
Qed.

Lemma hash_encoding_forward_total_witness :
  exists f,
    HashEncoding_forward
      (mkHashEncoding 2 16 2048 2 (2 ^ Z.of_nat 1)
         (exp ((ln (IZR 2048) - ln (IZR 16)) / IZR (2 - 1)))
         (map (map (fun x => x * 1e-4)) [[1; 2]; [3; 4]])
         (map (fun level =>
                 Z.min (trunc (IZR 16
                                * exp ((ln (IZR 2048) - ln (IZR 16))
                                       / IZR (2 - 1)) ^ level))
                       2048)
              (seq 0 (Z.to_nat 2)))
         (1, 2654435761, 805459861)%Z)
      (5, -7, 0.25) = Some f /\
    length f = (Z.to_nat 2 * 2)%nat.
Proof.
  exact (hash_encoding_forward_total 2 16 2048 1 2 [[1; 2]; [3; 4]] 2 _
           (5, -7, 0.25) eq_refl eq_refl
           ltac:(repeat constructor) ltac:(lia)).
Defined.

(** X9.  Interpolation reproduces constants: when every row of the
    table is the same row, each level returns that row, whatever the
    interpolation weights, for every resolution and every position
    whose scaled coordinates lie in the int64 range (where the floor
    taken by [.long()] is the integer floor). *)
Theorem forward_level_constant_table
  (L base maxr : Z) (log2T : nat) (F : Z) (randn : list (list R))
  (row0 : list R) (h : HashEncoding) (res : Z) (p : vec3) :
  HashEncoding_init L base maxr log2T F randn = Ok h ->
  Z.of_nat (length randn) = (2 ^ Z.of_nat log2T)%Z ->
  Forall (fun r => r = row0) randn ->
  in_long_range res p ->
  forward_level h res p = Some (map (fun x => x * 1e-4) row0).
Proof.
  intros Hinit Hlen Hconst _.
  destruct (init_fields _ _ _ _ _ _ _ Hinit) as (_ & HT & Hlt & Htab).
  assert (Hlook : forall c,
             index_row (hash_table h) (_hash_position h c res)
             = Some (map (fun x => x * 1e-4) row0)).
  { intros c.
    destruct (index_row_in_bounds (hash_table h) (_hash_position h c res))
      as [row Hrow].
    { rewrite Hlt, Hlen, <- HT. apply hash_position_range.
      rewrite HT. apply pow2_pos. }
    rewrite Hrow. f_equal.
    assert (Hin : In row (hash_table h)).
    { unfold index_row in Hrow.
      destruct (0 <=? _hash_position h c res)%Z;
        [eapply nth_error_In; eassumption|].
      destruct (- Z.of_nat (length (hash_table h))
                <=? _hash_position h c res)%Z; [|discriminate].
      eapply nth_error_In; eassumption. }
    rewrite Htab in Hin. apply in_map_iff in Hin.
    destruct Hin as [r0 [<- Hr0]].
    rewrite Forall_forall in Hconst. rewrite (Hconst r0 Hr0). reflexivity. }
  destruct p as [[px py] pz]. unfold forward_level.
  cbn [corners_of flat_map map app]. rewrite !Hlook.
  cbn [all_some _trilinear_interpolate]. rewrite !lerp_same. reflexivity.
Qed.

Lemma forward_level_constant_table_witness :
  forward_level
    (mkHashEncoding 2 16 2048 2 (2 ^ Z.of_nat 1)
       (exp ((ln (IZR 2048) - ln (IZR 16)) / IZR (2 - 1)))
       (map (map (fun x => x * 1e-4)) [[1; 2]; [1; 2]])
       (map (fun level =>
               Z.min (trunc (IZR 16
                              * exp ((ln (IZR 2048) - ln (IZR 16))
                                     / IZR (2 - 1)) ^ level))
                     2048)
            (seq 0 (Z.to_nat 2)))
       (1, 2654435761, 805459861)%Z)
    16 (0.3, 0.9, 0.5)
  = Some (map (fun x => x * 1e-4) [1; 2]).
Proof.
  apply (forward_level_constant_table 2 16 2048 1 2 [[1; 2]; [1; 2]]
           [1; 2] _ 16 (0.3, 0.9, 0.5) eq_refl eq_refl
           ltac:(repeat constructor)).
  unfold in_long_range. change (IZR (16 - 1)) with 15.
  repeat split; lra.
Defined.

End HashEncoderTotal.

Section HashAlongX.

Import InstantNGP.

Open Scope Z_scope.

Lemma land_lxor_distr (a b m : Z) :
  Z.land (Z.lxor a b) m = Z.lxor (Z.land a m) (Z.land b m).
Proof.
  apply Z.bits_inj'. intros n Hn.
  rewrite Z.land_spec, !Z.lxor_spec, !Z.land_spec.
  destruct (Z.testbit a n), (Z.testbit b n), (Z.testbit m n); reflexivity.
Qed.

Lemma lxor_mod_pow2 (a b : Z) (k : nat) :
  Z.lxor a b mod 2 ^ Z.of_nat k
  = Z.lxor (a mod 2 ^ Z.of_nat k) (b mod 2 ^ Z.of_nat k).
Proof.
  rewrite <- !Z.land_ones by lia. apply land_lxor_distr.
Qed.

Lemma lxor_cancel_r (a b c : Z) : Z.lxor a c = Z.lxor b c -> a = b.
Proof.
  intros H. apply (f_equal (fun t => Z.lxor t c)) in H.
  rewrite !Z.lxor_assoc, Z.lxor_nilpotent, !Z.lxor_0_r in H. exact H.
Qed.

Lemma hash_position_x_cancel
  (L base maxr : Z) (log2T : nat) (F : Z) (randn : list (list R))
  (h : HashEncoding) (x1 x2 y z res : Z) :
  HashEncoding_init L base maxr log2T F randn = Ok h ->
  1 <= res < 2 ^ 31 ->
  res <= 2 ^ Z.of_nat log2T ->
  0 <= x1 < res ->
  0 <= x2 < res ->
  _hash_position h (x1, y, z) res = _hash_position h (x2, y, z) res ->
  x1 = x2.
Proof.
  intros Hinit Hres HresT Hx1 Hx2 Heq.
  destruct (init_fields _ _ _ _ _ _ _ Hinit) as (Hp & HT & _ & _).
  unfold _hash_position in Heq. rewrite Hp, HT in Heq.
  rewrite (clampZ_fixed_upper x1), (clampZ_fixed_upper x2) in Heq by lia.
  pose proof (clampZ_range y (res - 1) ltac:(lia)) as Hcy.
  pose proof (clampZ_range z (res - 1) ltac:(lia)) as Hcz.
  rewrite !wrap64_small in Heq by nia.
  rewrite !Z.mul_1_r, !Z.lxor_assoc in Heq.
  rewrite !(lxor_mod_pow2 _ _ log2T) in Heq.
  apply lxor_cancel_r in Heq.
  rewrite !Z.mod_small in Heq by lia. exact Heq.
Qed.

(** X10.  With the first prime equal to 1 the hash is injective along
    the x axis: on a level whose resolution does not exceed the table
    size, two lattice corners that differ only in x never share an
    index. *)
Theorem hash_position_injective_along_x
  (L base maxr : Z) (log2T : nat) (F : Z) (randn : list (list R))
  (h : HashEncoding) (x1 x2 y z res : Z) :
  HashEncoding_init L base maxr log2T F randn = Ok h ->
  1 <= res < 2 ^ 31 ->
  res <= 2 ^ Z.of_nat log2T ->
  0 <= x1 < res ->
  0 <= x2 < res ->
  x1 <> x2 ->
  _hash_position h (x1, y, z) res <> _hash_position h (x2, y, z) res.
Proof.
  intros Hinit Hres HresT Hx1 Hx2 Hne Heq. apply Hne.
  eapply hash_position_x_cancel; eassumption.
Qed.

Lemma hash_position_injective_along_x_witness :
  _hash_position
    (mkHashEncoding 16 16 2048 2 (2 ^ Z.of_nat 4)
       (exp ((ln (IZR 2048) - ln (IZR 16)) / IZR (16 - 1)))
       (map (map (fun x => (x * 1e-4)%R)) [])
       (map (fun level =>
               Z.min (trunc (IZR 16
                              * exp ((ln (IZR 2048) - ln (IZR 16))
                                     / IZR (16 - 1)) ^ level))
                     2048)
            (seq 0 (Z.to_nat 16)))
       (1, 2654435761, 805459861))
    (3, 5, 7) 16
  <> _hash_position
       (mkHashEncoding 16 16 2048 2 (2 ^ Z.of_nat 4)
          (exp ((ln (IZR 2048) - ln (IZR 16)) / IZR (16 - 1)))
          (map (map (fun x => (x * 1e-4)%R)) [])
          (map (fun level =>
                  Z.min (trunc (IZR 16
                                 * exp ((ln (IZR 2048) - ln (IZR 16))
                                        / IZR (16 - 1)) ^ level))
                        2048)
               (seq 0 (Z.to_nat 16)))
          (1, 2654435761, 805459861))
       (4, 5, 7) 16.
Proof.
  exact (hash_position_injective_along_x 16 16 2048 4 2 [] _ 3 4 5 7 16
           eq_refl ltac:(lia) ltac:(simpl; lia) ltac:(lia) ltac:(lia)
           ltac:(lia)).
Defined.

End HashAlongX.

(* ------------------------------------------------------------------ *)
(** * Positions, positional encoding and perceptrons *)

Section PositionNormalization.

Import Networks.

Lemma normalize_axis_range (lo hi x : R) :
  lo < hi -> lo <= x <= hi -> -1 <= 2 * (x - lo) / (hi - lo) - 1 <= 1.
Proof.
  intros Hlh Hx. unfold Rdiv.
  assert (Hi : 0 < / (hi - lo)) by (apply Rinv_0_lt_compat; lra).
  assert (Hone : (hi - lo) * / (hi - lo) = 1) by (apply Rinv_r; lra).
  set (i := / (hi - lo)) in *. clearbody i. split; nra.
Qed.

Lemma normalize_axis_ends (lo hi : R) :
  lo < hi ->
  2 * (lo - lo) / (hi - lo) - 1 = -1 /\ 2 * (hi - lo) / (hi - lo) - 1 = 1.
Proof. intros Hlh. split; field; lra. Qed.

Lemma lattice_cell_range (q : R) (res : Z) :
  -1 <= q <= 1 -> (1 <= res)%Z ->
  (0 <= Int_part ((q + 1) * 0.5 * IZR (res - 1)) <= res - 1)%Z.
Proof.
  intros Hq Hres.
  assert (Hr : 0 <= IZR (res - 1)) by (apply IZR_le; lia).
  set (s := (q + 1) * 0.5 * IZR (res - 1)).
  assert (Hs : 0 <= s <= IZR (res - 1)) by (unfold s; split; nra).
  destruct (base_Int_part s) as [Hle Hgt]. split.
  - assert (H : (-1 < Int_part s)%Z) by (apply lt_IZR; lra). lia.
  - apply le_IZR. lra.
Qed.

(** X11.  For a scene box with [min < max] on every axis, a position
    inside the box is normalized into [[-1, 1]^3], with the minimum
    corner sent to [(-1, -1, -1)] and the maximum corner to
    [(1, 1, 1)]; after the hash encoder's shift to the unit cube its
    lattice cell lies in [[0, N_l - 1]] on every level, so the base
    corner is never clamped. *)
Theorem normalize_positions_in_bounds
  (lx ly lz hx hy hz x y z : R) :
  lx < hx -> ly < hy -> lz < hz ->
  lx <= x <= hx -> ly <= y <= hy -> lz <= z <= hz ->
  let bounds := ((lx, ly, lz), (hx, hy, hz)) in
  normalize_positions bounds (lx, ly, lz) = (-1, -1, -1) /\
  normalize_positions bounds (hx, hy, hz) = (1, 1, 1) /\
  exists qx qy qz,
    normalize_positions bounds (x, y, z) = (qx, qy, qz) /\
    -1 <= qx <= 1 /\ -1 <= qy <= 1 /\ -1 <= qz <= 1 /\
    forall res : Z, (1 <= res)%Z ->
      (0 <= Int_part ((qx + 1) * 0.5 * IZR (res - 1)) <= res - 1)%Z /\
      (0 <= Int_part ((qy + 1) * 0.5 * IZR (res - 1)) <= res - 1)%Z /\
      (0 <= Int_part ((qz + 1) * 0.5 * IZR (res - 1)) <= res - 1)%Z.
Proof.
  intros Hx Hy Hz Bx By Bz bounds. unfold bounds, normalize_positions.
  destruct (normalize_axis_ends lx hx Hx) as [Hx0 Hx1].
  destruct (normalize_axis_ends ly hy Hy) as [Hy0 Hy1].
  destruct (normalize_axis_ends lz hz Hz) as [Hz0 Hz1].
  split; [rewrite Hx0, Hy0, Hz0; reflexivity|].
  split; [rewrite Hx1, Hy1, Hz1; reflexivity|].
  pose proof (normalize_axis_range lx hx x Hx Bx) as Rx.
  pose proof (normalize_axis_range ly hy y Hy By) as Ry.
  pose proof (normalize_axis_range lz hz z Hz Bz) as Rz.
  eexists _, _, _. split; [reflexivity|].
  split; [exact Rx|]. split; [exact Ry|]. split; [exact Rz|].
  intros res Hres. repeat split; apply lattice_cell_range; assumption.
Qed.

Lemma normalize_positions_in_bounds_witness :
  normalize_positions ((-2, -2, -2), (2, 2, 2)) (2, 2, 2) = (1, 1, 1).
Proof.
  exact (proj1 (proj2
    (normalize_positions_in_bounds (-2) (-2) (-2) 2 2 2 0 1 (-1)
       ltac:(lra) ltac:(lra) ltac:(lra)
       ltac:(lra) ltac:(lra) ltac:(lra)))).
Defined.

End PositionNormalization.

Section PositionalEncodingWidth.

Import Networks.

Lemma linspace_length (a b : R) (n : nat) : length (linspace a b n) = n.
Proof. unfold linspace. rewrite length_map, length_seq. reflexivity. Qed.

Lemma bands_length (coords : list R) (fb : list R) :
  length (concat (flat_map (fun freq =>
                    [map (fun c => sin (c * freq)) coords;
                     map (fun c => cos (c * freq)) coords]) fb))
  = (2 * length coords * length fb)%nat.
Proof.
  induction fb as [|f r IH]; [cbn; lia|].
  cbn [flat_map app concat length].
  rewrite !length_app, !length_map, IH. lia.
Qed.

Lemma bands_bounded (coords : list R) (fb : list R) :
  Forall (fun v => -1 <= v <= 1)
    (concat (flat_map (fun freq =>
               [map (fun c => sin (c * freq)) coords;
                map (fun c => cos (c * freq)) coords]) fb)).
Proof.
  induction fb as [|f r IH]; [constructor|].
  cbn [flat_map app concat]. rewrite !Forall_app. repeat split.
  - apply Forall_forall. intros v Hv. apply in_map_iff in Hv.
    destruct Hv as [c [<- _]]. apply SIN_bound.
  - apply Forall_forall. intros v Hv. apply in_map_iff in Hv.
    destruct Hv as [c [<- _]]. apply COS_bound.
  - exact IH.
Qed.

Lemma positional_encoding_forward_total
  (d : Z) (L : nat) (inc : bool) (coords : list R) :
  Z.of_nat (length coords) = d ->
  inc = true \/ (1 <= L)%nat ->
  exists out,
    PositionalEncoding_forward (PositionalEncoding_init d L inc) coords
      = Some out /\
    Z.of_nat (length out) = output_dim (PositionalEncoding_init d L inc).
Proof.
  intros Hd Hne. unfold PositionalEncoding_forward.
  set (pe := PositionalEncoding_init d L inc).
  assert (Hfb : length (freq_bands pe) = L)
    by (cbn [pe PositionalEncoding_init freq_bands];
        rewrite length_map; apply linspace_length).
  pose proof (bands_length coords (freq_bands pe)) as Hbl.
  set (bands := flat_map (fun freq =>
                  [map (fun c => sin (c * freq)) coords;
                   map (fun c => cos (c * freq)) coords]) (freq_bands pe))
    in *.
  assert (Hwidth : Z.of_nat (length (concat
                     ((if include_input pe then [coords] else []) ++ bands)))
                   = output_dim pe).
  { rewrite concat_app, length_app, Hbl, Hfb.
    cbn [pe PositionalEncoding_init include_input output_dim].
    destruct inc; cbn [concat app length]; rewrite ?length_app; cbn [length];
      lia. }
  destruct ((if include_input pe then [coords] else []) ++ bands)
    as [|e es] eqn:Eenc.
  - exfalso. apply app_eq_nil in Eenc. destruct Eenc as [Hi Hb].
    destruct Hne as [-> | HL]; [discriminate|].
    unfold bands in Hb. destruct (freq_bands pe); [cbn in Hfb; lia|].
    discriminate.
  - eexists. split; [reflexivity | exact Hwidth].
Qed.

(** X12.  The positional encoder returns exactly the width it
    announces: for coordinates of width [input_dim], and unless both
    the input is excluded and there are no levels, [forward] returns
    [output_dim] entries.  With [include_input] the first [input_dim]
    entries are the coordinates themselves and all later entries lie in
    [[-1, 1]]. *)
Theorem positional_encoding_width
  (d : Z) (L : nat) (inc : bool) (coords : list R) :
  Z.of_nat (length coords) = d ->
  inc = true \/ (1 <= L)%nat ->
  let pe := PositionalEncoding_init d L inc in
  exists out,
    PositionalEncoding_forward pe coords = Some out /\
    Z.of_nat (length out) = output_dim pe /\
    (inc = true ->
     firstn (length coords) out = coords /\
     Forall (fun v => -1 <= v <= 1) (skipn (length coords) out)).
Proof.
  intros Hd Hne pe. unfold PositionalEncoding_forward.
  assert (Hfb : length (freq_bands pe) = L)
    by (cbn [pe PositionalEncoding_init freq_bands];
        rewrite length_map; apply linspace_length).
  pose proof (bands_length coords (freq_bands pe)) as Hbl.
  pose proof (bands_bounded coords (freq_bands pe)) as Hbb.
  change (include_input pe) with inc.
  change (output_dim pe)
    with ((if inc then d else 0) + 2 * d * Z.of_nat L)%Z.
  destruct inc.
  - cbn [app concat]. eexists. split; [reflexivity|]. split.
    + rewrite length_app, Hbl, Hfb. lia.
    + intros _. split.
      * rewrite firstn_app, Nat.sub_diag, firstn_all. cbn [firstn].
        apply app_nil_r.
      * rewrite skipn_app, Nat.sub_diag, skipn_all. cbn [skipn app].
        exact Hbb.
  - destruct Hne as [Hc | HL]; [discriminate|].
    destruct (freq_bands pe) as [|f r] eqn:Ef;
      [cbn [length] in Hfb; lia|].
    cbn [app flat_map]. eexists. split; [reflexivity|]. split.
    + change (map (fun c => sin (c * f)) coords
              :: map (fun c => cos (c * f)) coords
              :: flat_map (fun freq =>
                    [map (fun c => sin (c * freq)) coords;
                     map (fun c => cos (c * freq)) coords]) r)
        with (flat_map (fun freq =>
                    [map (fun c => sin (c * freq)) coords;
                     map (fun c => cos (c * freq)) coords]) (f :: r)).
      rewrite Hbl, Hfb. lia.
    + discriminate.
Qed.

Lemma positional_encoding_width_witness :
  exists out,
    PositionalEncoding_forward (PositionalEncoding_init 3 10 true)
      [0.5; 0; -1] = Some out /\
    Z.of_nat (length out) = 63%Z.
Proof.
  destruct (positional_encoding_width 3 10 true [0.5; 0; -1]
              eq_refl (or_introl eq_refl)) as [out [Hout [Hlen _]]].
  exists out. split; [exact Hout | exact Hlen].
Defined.

(** X13.  The frequency bands are the powers of two
    [1, 2, 4, ..., 2^(L-1)]. *)
Theorem positional_encoding_bands_are_powers_of_two
  (d : Z) (L : nat) (inc : bool) :
  freq_bands (PositionalEncoding_init d L inc)
  = map (fun i => 2 ^ i) (seq 0 L).
Proof.
  cbn [PositionalEncoding_init freq_bands]. unfold linspace.
  rewrite map_map. apply map_ext_in. intros i Hi.
  apply in_seq in Hi.
  assert (He : linspace_entry 0 (IZR (Z.of_nat L - 1)) L i = INR i).
  { unfold linspace_entry. rewrite minus_IZR, <- INR_IZR_INZ.
    destruct (Req_dec (INR L - 1) 0) as [Hz | Hnz].
    - assert (HL : L = 1%nat).
      { apply INR_eq. change (INR 1) with 1. lra. }
      assert (i = 0%nat) by lia. subst i. cbn [INR]. lra.
    - change (IZR 1) with 1. field. exact Hnz. }
  rewrite He. apply Rpower_pow. lra.
Qed.

End PositionalEncodingWidth.

Section PerceptronShapes.

Import Networks.

Variables din dout hid n : nat.
Variable skips_opt : option (list nat).
Variable act : activation_fn.

Lemma well_shaped_tail (k : nat) (wb : list (list R) * list R)
  (ps : list (list (list R) * list R)) :
  well_shaped dout hid n k (wb :: ps) ->
  well_shaped dout hid n (S k) ps.
Proof.
  intros H j w b Hj. replace (S k + j)%nat with (k + S j)%nat by lia.
  apply H. exact Hj.
Qed.

Lemma forward_from_shapes (m : MLP) (input_x : list R) :
  skip_connections m = or_empty skips_opt ->
  length input_x = din ->
  forall (ps : list (list (list R) * list R)) (k : nat) (x : list R),
    (k + length ps = n)%nat ->
    well_shaped dout hid n k ps ->
    length x = (if (k =? 0)%nat then din else hid) ->
    exists y,
      MLP_forward_from m input_x k
        (map2 (fun i wb =>
                 mkLinear (layer_input_dim din hid (or_empty skips_opt) i)
                          (layer_output_dim dout hid n i)
                          (fst wb) (snd wb))
              (seq k (length ps)) ps) x = Some y /\
      length y = (if (length ps =? 0)%nat then length x else dout).
Proof.
  intros Hskips Hin ps. induction ps as [|[w b] ps IH]; intros k x Hk Hws Hx.
  - exists x. split; reflexivity.
  - cbn [length seq map2 MLP_forward_from fst snd].
    set (x1 := if existsb (Nat.eqb k) (skip_connections m) && (0 <? k)%nat
               then x ++ input_x else x).
    assert (Hx1 : length x1 = layer_input_dim din hid (or_empty skips_opt) k).
    { unfold x1, layer_input_dim. rewrite Hskips.
      destruct k as [|k].
      - change (0 <? 0)%nat with false. rewrite andb_false_r. exact Hx.
      - change (0 <? S k)%nat with true. rewrite andb_true_r.
        change (S k =? 0)%nat with false in Hx |- *. cbv iota in Hx |- *.
        destruct (existsb (Nat.eqb (S k)) (or_empty skips_opt));
          [rewrite length_app; lia | exact Hx]. }
    unfold Linear_forward. cbn [in_features weight bias].
    rewrite Hx1, Nat.eqb_refl.
    destruct (Hws 0%nat w b eq_refl) as [Hw Hb].
    rewrite Nat.add_0_r in Hw, Hb.
    set (y0 := map2 (fun row b0 => dot x1 row + b0) w b).
    assert (Hy0 : length y0 = layer_output_dim dout hid n k)
      by (unfold y0; rewrite map2_length; lia).
    set (y1 := if (S k <? length (layers m))%nat
               then map (apply_activation (activation m)) y0 else y0).
    assert (Hy1 : length y1 = layer_output_dim dout hid n k)
      by (unfold y1; destruct (S k <? length (layers m))%nat;
          [rewrite length_map|]; exact Hy0).
    destruct ps as [|wb' ps'].
    + exists y1. split; [reflexivity|]. cbn [length Nat.eqb] in *.
      rewrite Hy1. unfold layer_output_dim.
      replace (n - 1)%nat with k by lia. rewrite Nat.eqb_refl. reflexivity.
    + destruct (IH (S k) y1) as [y [Hy Hly]].
      * cbn [length] in *. lia.
      * eapply well_shaped_tail, Hws.
      * rewrite Hy1. unfold layer_output_dim. cbn [length] in Hk.
        destruct (Nat.eqb_spec k (n - 1)) as [E | _]; [lia|reflexivity].
      * exists y. split; [exact Hy|]. cbn [length Nat.eqb] in Hly |- *.
        exact Hly.
Qed.

Lemma mlp_forward_total
  (params : list (list (list R) * list R)) (x : list R) :
  length params = n ->
  (1 <= n)%nat ->
  well_shaped dout hid n 0 params ->
  length x = din ->
  exists y,
    MLP_forward (MLP_init din dout hid n skips_opt act params) x = Some y /\
    length y = dout.
Proof.
  intros Hlen Hn Hws Hx. unfold MLP_forward.
  destruct (forward_from_shapes
              (MLP_init din dout hid n skips_opt act params) x
              eq_refl Hx params 0 x ltac:(lia) Hws Hx) as [y [Hy Hly]].
  exists y. split.
  - rewrite <- Hy. cbn [MLP_init layers]. rewrite Hlen. reflexivity.
  - destruct params; cbn [length Nat.eqb] in *; [lia | exact Hly].
Qed.

(** X14.  A perceptron built by [MLP.__init__] is shape-consistent for
    every list of skip connections: given parameters of the shapes the
    layers declare, [forward] on an input of width [input_dim] passes
    every layer and returns [output_dim] entries; a perceptron without
    layers returns its input unchanged. *)
Theorem mlp_forward_shapes
  (params : list (list (list R) * list R)) (x : list R) :
  length params = n ->
  well_shaped dout hid n 0 params ->
  length x = din ->
  exists y,
    MLP_forward (MLP_init din dout hid n skips_opt act params) x = Some y /\
    length y = (if (n =? 0)%nat then din else dout) /\
    (n = 0%nat -> y = x).
Proof.
  intros Hlen Hws Hx. unfold MLP_forward.
  destruct params as [|wb ps].
  - cbn [length] in Hlen. subst n. exists x.
    split; [reflexivity|]. split; [exact Hx | reflexivity].
  - destruct (forward_from_shapes
                (MLP_init din dout hid n skips_opt act (wb :: ps)) x
                eq_refl Hx (wb :: ps) 0 x ltac:(lia) Hws Hx)
      as [y [Hy Hly]].
    exists y. cbn [length Nat.eqb] in Hly, Hlen.
    split; [|split].
    + rewrite <- Hy. cbn [MLP_init layers length]. rewrite Hlen.
      reflexivity.
    + rewrite Hly. destruct n; [lia | reflexivity].
    + intros Hn. lia.
Qed.

End PerceptronShapes.

Lemma mlp_forward_shapes_witness :
  exists y,
    Networks.MLP_forward
      (Networks.MLP_init 2 1 3 2 None Networks.Relu
         [([[1; 0]; [0; 1]; [1; 1]], [0; 0; 0]); ([[1; 1; 1]], [0])])
      [1; 2] = Some y /\
    length y = 1%nat /\ (2%nat = 0%nat -> y = [1; 2]).
Proof.
  apply (mlp_forward_shapes 2 1 3 2 None Networks.Relu
           [([[1; 0]; [0; 1]; [1; 1]], [0; 0; 0]); ([[1; 1; 1]], [0])]
           [1; 2]).
  - reflexivity.
  - intros j w b Hj. destruct j as [|[|j]]; cbn in Hj.
    + injection Hj as <- <-. split; reflexivity.
    + injection Hj as <- <-. split; reflexivity.
    + destruct j; discriminate.
  - reflexivity.
Defined.

Section DensityQuery.

Import Networks.

(** X15.  The density query of the plain model composes without a
    shape error: for a model built by [NerfModel.__init__] with at
    least one density layer, parameters of the declared shapes and a
    scene box of non-zero extent on every axis,
    [query_density_features] returns [network_width + 1] values for
    every position, and the first one, the density, is non-negative. *)
Theorem query_density_features_shape
  (config : ModelConfig) (arch : NerfArch) (bounds : vec3 * vec3)
  (density_params color_params : list (list (list R) * list R))
  (positions : vec3) :
  nondegenerate bounds ->
  (1 <= network_depth config)%Z ->
  (1 <= network_width config)%Z ->
  length density_params = Z.to_nat (network_depth config) ->
  well_shaped (Z.to_nat (network_width config) + 1)
    (Z.to_nat (network_width config))
    (Z.to_nat (network_depth config)) 0 density_params ->
  exists out,
    query_density_features
      (NerfModel_init config arch bounds density_params color_params)
      positions = Some out /\
    length out = (Z.to_nat (network_width config) + 1)%nat /\
    0 <= nth 0 out 0.
Proof.
  intros _ Hdepth Hwidth Hlen Hws. unfold query_density_features.
  cbn [NerfModel_init scene_bounds pos_encoding density_network].
  destruct (normalize_positions bounds positions) as [[x y] z].
  destruct (positional_encoding_forward_total 3 (positional_encoding_levels arch)
              true [x; y; z] eq_refl (or_introl eq_refl))
    as [enc [Henc Hel]].
  rewrite Henc.
  destruct (mlp_forward_total
              (Z.to_nat (output_dim (PositionalEncoding_init 3
                           (positional_encoding_levels arch) true)))
              (Z.to_nat (network_width config) + 1)
              (Z.to_nat (network_width config))
              (Z.to_nat (network_depth config))
              (Some (skips arch)) Relu density_params enc
              Hlen ltac:(lia) Hws ltac:(lia))
    as [df [Hdf Hdl]].
  rewrite Hdf. eexists. split; [reflexivity|].
  destruct df as [|d0 rest]; [cbn [length] in Hdl; lia|].
  cbn [firstn skipn map app length nth]. split; [exact Hdl|].
  apply Rmax_l.
Qed.

Lemma query_density_features_shape_witness :
  exists out,
    query_density_features
      (NerfModel_init
         (mkModelConfig 1 1 524288 2048 16 19 1024 0.2 1000 false)
         (mkNerfArch 0 0 [4%nat]) ((-1, -1, -1), (1, 1, 1))
         [([[1; 1; 1]; [0; 1; 0]], [0; 0])] [])
      (0, 0, 0) = Some out /\
    length out = 2%nat.
Proof.
  destruct (query_density_features_shape
              (mkModelConfig 1 1 524288 2048 16 19 1024 0.2 1000 false)
              (mkNerfArch 0 0 [4%nat]) ((-1, -1, -1), (1, 1, 1))
              [([[1; 1; 1]; [0; 1; 0]], [0; 0])] [] (0, 0, 0)
              ltac:(repeat split; lra)
              ltac:(simpl; lia) ltac:(simpl; lia) eq_refl)
    as [out [Hout [Hlen _]]].
  - intros j w b Hj. destruct j as [|j]; cbn in Hj.
    + injection Hj as <- <-. split; reflexivity.
    + destruct j; discriminate.
  - exists out. split; [exact Hout | exact Hlen].
Defined.

End DensityQuery.

Section ColorQuery.

Import Networks.

Lemma sigmoid_range (x : R) : 0 < sigmoid x < 1.
Proof.
  unfold sigmoid. pose proof (exp_pos (- x)) as He.
  assert (Hd : 0 < 1 + exp (- x)) by lra.
  assert (Hq : 1 / (1 + exp (- x)) * (1 + exp (- x)) = 1) by (field; lra).
  set (q := 1 / (1 + exp (- x))) in *. clearbody q. split; nra.
Qed.

(** X16.  The colour query of the plain model composes without a
    shape error when the view direction is supplied exactly as the
    model is configured: for features of width [network_width] and
    colour parameters of the declared shapes it returns three values,
    each between 0 and 1. *)
Theorem query_colors_in_unit_interval
  (config : ModelConfig) (arch : NerfArch) (bounds : vec3 * vec3)
  (density_params color_params : list (list (list R) * list R))
  (features : list R) (direction : vec3) :
  length features = Z.to_nat (network_width config) ->
  length color_params = 2%nat ->
  well_shaped 3 (Z.to_nat (network_width config / 2)) 2 0 color_params ->
  exists colors,
    query_colors
      (NerfModel_init config arch bounds density_params color_params)
      features
      (if use_viewdirs config then Some direction else None)
    = Some colors /\
    length colors = 3%nat /\
    Forall (fun c => 0 <= c <= 1) colors.
Proof.
  intros Hf Hlen Hws. unfold query_colors.
  cbn [NerfModel_init dir_encoding color_network Networks.config].
  destruct direction as [[x y] z].
  destruct (use_viewdirs config) eqn:Ev.
  - destruct (positional_encoding_forward_total 3 (direction_encoding_levels arch)
                true [x; y; z] eq_refl (or_introl eq_refl))
      as [enc [Henc Hel]].
    rewrite Henc.
    destruct (mlp_forward_total
                (Z.to_nat (network_width config)
                 + Z.to_nat (output_dim (PositionalEncoding_init 3
                               (direction_encoding_levels arch) true)))
                3 (Z.to_nat (network_width config / 2)) 2 None Relu
                color_params (features ++ enc) Hlen ltac:(lia) Hws
                ltac:(rewrite length_app; lia))
      as [cs [Hcs Hcl]].
    rewrite Hcs. eexists. split; [reflexivity|].
    split; [rewrite length_map; exact Hcl|].
    apply Forall_forall. intros c Hc. apply in_map_iff in Hc.
    destruct Hc as [c0 [<- _]]. pose proof (sigmoid_range c0). lra.
  - destruct (mlp_forward_total
                (Z.to_nat (network_width config))
                3 (Z.to_nat (network_width config / 2)) 2 None Relu
                color_params features Hlen ltac:(lia) Hws Hf)
      as [cs [Hcs Hcl]].
    rewrite Hcs. eexists. split; [reflexivity|].
    split; [rewrite length_map; exact Hcl|].
    apply Forall_forall. intros c Hc. apply in_map_iff in Hc.
    destruct Hc as [c0 [<- _]]. pose proof (sigmoid_range c0). lra.
Qed.

Lemma query_colors_in_unit_interval_witness :
  exists colors,
    query_colors
      (NerfModel_init
         (mkModelConfig 2 1 524288 2048 16 19 1024 0.2 1000 false)
         (mkNerfArch 0 0 [4%nat]) ((-1, -1, -1), (1, 1, 1)) []
         [([[1; 1]], [0]); ([[1]; [2]; [3]], [0; 0; 0])])
      [0.5; 0.25] None = Some colors /\
    length colors = 3%nat.
Proof.
  destruct (query_colors_in_unit_interval
              (mkModelConfig 2 1 524288 2048 16 19 1024 0.2 1000 false)
              (mkNerfArch 0 0 [4%nat]) ((-1, -1, -1), (1, 1, 1)) []
              [([[1; 1]], [0]); ([[1]; [2]; [3]], [0; 0; 0])]
              [0.5; 0.25] (0, 0, 1) eq_refl eq_refl)
    as [colors [Hc [Hl _]]].
  - intros j w b Hj. destruct j as [|[|j]]; cbn in Hj.
    + injection Hj as <- <-. split; reflexivity.
    + injection Hj as <- <-. split; reflexivity.
    + destruct j; discriminate.
  - exists colors. split; [exact Hc | exact Hl].
Defined.

(** X17.  A model configured with view directions cannot be queried
    without one: the colour network was sized for features plus the
    encoded direction, so [query_colors(features)] (what
    [forward(use_viewdirs=False)] calls) raises in the first layer. *)
Theorem query_colors_without_direction_raises
  (config : ModelConfig) (arch : NerfArch) (bounds : vec3 * vec3)
  (density_params color_params : list (list (list R) * list R))
  (features : list R) :
  use_viewdirs config = true ->
  length features = Z.to_nat (network_width config) ->
  length color_params = 2%nat ->
  query_colors
    (NerfModel_init config arch bounds density_params color_params)
    features None = None.
Proof.
  intros Hv Hf Hlen. unfold query_colors.
  cbn [NerfModel_init dir_encoding color_network]. rewrite Hv.
  destruct color_params as [|[w0 b0] [|[w1 b1] rest]];
    cbn [length] in Hlen; try lia.
  unfold MLP_forward. cbn [MLP_init layers seq map2 MLP_forward_from
    skip_connections or_empty existsb andb fst snd].
  unfold Linear_forward. cbn [in_features layer_input_dim Nat.eqb].
  rewrite Hf.
  cbn [PositionalEncoding_init output_dim].
  destruct (Nat.eqb_spec (Z.to_nat (network_width config))
              (Z.to_nat (network_width config)
               + Z.to_nat (3 + 2 * 3
                               * Z.of_nat (direction_encoding_levels arch))))
    as [E | _]; [lia | reflexivity].
Qed.

Lemma query_colors_without_direction_raises_witness :
  query_colors
    (NerfModel_init
       (mkModelConfig 2 1 524288 2048 16 19 1024 0.2 1000 true)
       (mkNerfArch 0 4 [4%nat]) ((-1, -1, -1), (1, 1, 1)) []
       [([[1; 1]], [0]); ([[1]; [2]; [3]], [0; 0; 0])])
    [0.5; 0.25] None = None.
Proof.
  exact (query_colors_without_direction_raises
           (mkModelConfig 2 1 524288 2048 16 19 1024 0.2 1000 true)
           (mkNerfArch 0 4 [4%nat]) ((-1, -1, -1), (1, 1, 1)) []
           [([[1; 1]], [0]); ([[1]; [2]; [3]], [0; 0; 0])]
           [0.5; 0.25] eq_refl eq_refl eq_refl).
Defined.

End ColorQuery.

(* ------------------------------------------------------------------ *)
(** * Quality presets and training configuration *)

Section SettingsFacts.

Import String.
Import Settings.

(** X18.  [set_quality] accepts exactly the three preset names:
    "low", "medium" and "high" set [max_samples] to 32, 64 and 128 and
    change nothing else, and every other name raises [ValueError].
    Whatever it returns for a configuration that passed validation
    passes validation again. *)
Theorem set_quality_keeps_config_valid (quality : string) (c : ModelConfig) :
  ModelConfig_post_init c = Ok c ->
  (quality = "low"%string ->
   set_quality quality c = Ok (with_max_samples c 32)) /\
  (quality = "medium"%string ->
   set_quality quality c = Ok (with_max_samples c 64)) /\
  (quality = "high"%string ->
   set_quality quality c = Ok (with_max_samples c 128)) /\
  (quality <> "low"%string -> quality <> "medium"%string ->
   quality <> "high"%string ->
   set_quality quality c = ValueError) /\
  (forall c', set_quality quality c = Ok c' ->
     ModelConfig_post_init c' = Ok c').
Proof.
  intros Hvalid.
  assert (Hkeep : forall n : Z, (0 < n)%Z ->
            ModelConfig_post_init (with_max_samples c n)
            = Ok (with_max_samples c n)).
  { intros n Hn. unfold ModelConfig_post_init in *.
    cbn [with_max_samples network_width network_depth max_samples
         near_plane far_plane].
    destruct (network_width c <=? 0)%Z; [discriminate|].
    destruct (network_depth c <=? 0)%Z; [discriminate|].
    destruct (max_samples c <=? 0)%Z; [discriminate|].
    destruct (Rge_dec (near_plane c) (far_plane c)); [discriminate|].
    destruct (n <=? 0)%Z eqn:E; [apply Z.leb_le in E; lia|reflexivity]. }
  unfold set_quality.
  split; [intros ->; reflexivity|].
  split; [intros ->; reflexivity|].
  split; [intros ->; reflexivity|].
  split.
  - intros Hl Hm Hh.
    destruct (String.eqb_spec quality "low"); [contradiction|].
    destruct (String.eqb_spec quality "medium"); [contradiction|].
    destruct (String.eqb_spec quality "high"); [contradiction|].
    reflexivity.
  - intros c' Hset.
    destruct (quality =? "low")%string;
      [injection Hset as <-; apply Hkeep; lia|].
    destruct (quality =? "medium")%string;
      [injection Hset as <-; apply Hkeep; lia|].
    destruct (quality =? "high")%string;
      [injection Hset as <-; apply Hkeep; lia|].
    discriminate.
Qed.

Lemma set_quality_keeps_config_valid_witness :
  set_quality "medium"
    (mkModelConfig 64 2 524288 2048 16 19 1024 0.2 1000 true)
  = Ok (with_max_samples
          (mkModelConfig 64 2 524288 2048 16 19 1024 0.2 1000 true) 64) /\
  set_quality "ultra"
    (mkModelConfig 64 2 524288 2048 16 19 1024 0.2 1000 true)
  = ValueError.
Proof.
  assert (Hv : ModelConfig_post_init
                 (mkModelConfig 64 2 524288 2048 16 19 1024 0.2 1000 true)
               = Ok (mkModelConfig 64 2 524288 2048 16 19 1024 0.2 1000
                       true)).
  { unfold ModelConfig_post_init.
    cbn [network_width network_depth max_samples near_plane far_plane
         Z.leb Z.compare].
    destruct (Rge_dec 0.2 1000) as [H | H]; [lra | reflexivity]. }
  split.
  - exact (proj1 (proj2 (set_quality_keeps_config_valid "medium" _ Hv))
             eq_refl).
  - apply (proj1 (proj2 (proj2 (proj2
             (set_quality_keeps_config_valid "ultra" _ Hv)))));
      discriminate.
Defined.

(** X19.  A [TrainingConfig] is rejected exactly when [batch_size],
    [learning_rate] or [max_epochs] is not positive.  When it is
    accepted its device is never left at "auto": that value is resolved
    to "cuda" if CUDA is available, else to "mps" if MPS is available,
    else to "cpu", and any other device name is kept. *)
Theorem training_config_resolves_device
  (cuda mps : bool) (c : TrainingConfig) :
  (TrainingConfig_post_init cuda mps c = ValueError <->
   ((batch_size c <= 0)%Z \/ learning_rate c <= 0 \/ (max_epochs c <= 0)%Z))
  /\
  forall c',
    TrainingConfig_post_init cuda mps c = Ok c' ->
    device c' <> "auto"%string /\
    (device c <> "auto"%string -> device c' = device c) /\
    (device c = "auto"%string ->
     device c' = if cuda then "cuda"%string
                 else if mps then "mps"%string else "cpu"%string) /\
    max_epochs c' = max_epochs c /\ batch_size c' = batch_size c /\
    learning_rate c' = learning_rate c.
Proof.
  unfold TrainingConfig_post_init.
  cbn [max_epochs batch_size learning_rate device].
  split.
  - destruct (batch_size c <=? 0)%Z eqn:Eb;
      [split; [intros _; left; apply Z.leb_le; exact Eb | reflexivity]|].
    destruct (Rle_dec (learning_rate c) 0) as [Hl | Hl];
      [split; [intros _; right; left; exact Hl | reflexivity]|].
    destruct (max_epochs c <=? 0)%Z eqn:Ee;
      [split; [intros _; right; right; apply Z.leb_le; exact Ee
              | reflexivity]|].
    apply Z.leb_gt in Eb, Ee.
    split; [discriminate|]. intros [H | [H | H]]; [lia | contradiction | lia].
  - intros c' Hok.
    destruct (batch_size c <=? 0)%Z; [discriminate|].
    destruct (Rle_dec (learning_rate c) 0); [discriminate|].
    destruct (max_epochs c <=? 0)%Z; [discriminate|].
    injection Hok as <-. cbn [max_epochs batch_size learning_rate device].
    destruct (String.eqb_spec (device c) "auto") as [E | E].
    + repeat split; try congruence.
      destruct cuda; [discriminate|]. destruct mps; discriminate.
    + repeat split; try congruence.
Qed.

End SettingsFacts.

Section TrainingConfigWitness.

Import String.

Lemma training_config_resolves_device_witness :
  Settings.TrainingConfig_post_init false true
    (Settings.mkTrainingConfig 100 4096 5e-4 "auto"%string)
  = Ok (Settings.mkTrainingConfig 100 4096 5e-4 "mps"%string) /\
  Settings.device (Settings.mkTrainingConfig 100 4096 5e-4 "mps"%string)
  <> "auto"%string.
Proof.
  assert (Hok : Settings.TrainingConfig_post_init false true
                  (Settings.mkTrainingConfig 100 4096 5e-4 "auto"%string)
                = Ok (Settings.mkTrainingConfig 100 4096 5e-4 "mps"%string)).
  { unfold Settings.TrainingConfig_post_init.
    cbn [Settings.max_epochs Settings.batch_size Settings.learning_rate
         Settings.device String.eqb Ascii.eqb Bool.eqb Z.leb Z.compare].
    destruct (Rle_dec 5e-4 0) as [H | H]; [lra | reflexivity]. }
  split; [exact Hok|].
  exact (proj1 (proj2 (training_config_resolves_device false true
                         (Settings.mkTrainingConfig 100 4096 5e-4
                            "auto"%string)) _ Hok)).
Defined.

End TrainingConfigWitness.

Section ImageSize.

Import Settings.

Lemma trunc_nonneg_range (x : R) (n : Z) :
  0 <= x <= IZR n -> (0 <= InstantNGP.trunc x <= n)%Z.
Proof.
  intros [Hx0 Hxn]. unfold InstantNGP.trunc.
  destruct (Rle_dec 0 x) as [_ | H]; [|contradiction].
  destruct (base_Int_part x) as [Hle Hgt]. split.
  - assert (Hlt : (-1 < Int_part x)%Z) by (apply lt_IZR; lra). lia.
  - apply le_IZR. lra.
Qed.

(** X20.  For a resize factor in [[0, 1]] the effective image size is
    never negative and never exceeds the configured size, and the
    factor 1 leaves the size unchanged. *)
Theorem image_size_within_original (w h : Z) (f : R) :
  (0 <= w)%Z -> (0 <= h)%Z -> 0 <= f <= 1 ->
  let '(w', h') := get_image_size w h f in
  (0 <= w' <= w)%Z /\ (0 <= h' <= h)%Z /\
  get_image_size w h 1 = (w, h).
Proof.
  intros Hw Hh Hf. unfold get_image_size.
  pose proof (IZR_le _ _ Hw) as Hw'. pose proof (IZR_le _ _ Hh) as Hh'.
  split; [apply trunc_nonneg_range; split; nra|].
  split; [apply trunc_nonneg_range; split; nra|].
  unfold InstantNGP.trunc. rewrite !Rmult_1_r.
  destruct (Rle_dec 0 (IZR w)) as [_ | H]; [|contradiction].
  destruct (Rle_dec 0 (IZR h)) as [_ | H]; [|contradiction].
  rewrite !Int_part_IZR. reflexivity.
Qed.

Lemma image_size_within_original_witness :
  get_image_size 800 600 1 = (800, 600)%Z.
Proof.
  exact (proj2 (proj2 (image_size_within_original 800 600 0.5
                         ltac:(lia) ltac:(lia) ltac:(lra)))).
Defined.

End ImageSize.

(* ------------------------------------------------------------------ *)
(** * Scene geometry *)

Section SceneFacts.

Import SceneGeometry.

(** X21.  For a unit quaternion the matrix of [_quat_to_rotmat] is
    orthogonal: its rows have unit length and are pairwise
    perpendicular. *)
Theorem quat_to_rotmat_orthogonal (w x y z : R) :
  w * w + x * x + y * y + z * z = 1 ->
  let '(r0, r1, r2) := _quat_to_rotmat (w, x, y, z) in
  vdot r0 r0 = 1 /\ vdot r1 r1 = 1 /\ vdot r2 r2 = 1 /\
  vdot r0 r1 = 0 /\ vdot r0 r2 = 0 /\ vdot r1 r2 = 0.
Proof.
  intros H. unfold _quat_to_rotmat, vdot.
  assert (E0 : 1 - 2*y*y - 2*z*z = w*w + x*x - y*y - z*z) by lra.
  assert (E1 : 1 - 2*x*x - 2*z*z = w*w - x*x + y*y - z*z) by lra.
  assert (E2 : 1 - 2*x*x - 2*y*y = w*w - x*x - y*y + z*z) by lra.
  rewrite E0, E1, E2.
  assert (Hsq : (w*w + x*x + y*y + z*z) * (w*w + x*x + y*y + z*z) = 1)
    by (rewrite H; ring).
  repeat split; try (rewrite <- Hsq; ring); ring.
Qed.

Lemma quat_to_rotmat_orthogonal_witness :
  vdot (1 - 2*0*0 - 2*1*1, 2*0*0 - 2*1*0, 2*0*1 + 2*0*0)
       (1 - 2*0*0 - 2*1*1, 2*0*0 - 2*1*0, 2*0*1 + 2*0*0) = 1.
Proof.
  exact (proj1 (quat_to_rotmat_orthogonal 0 0 0 1 ltac:(lra))).
Defined.

Lemma vle_refl (a : vec3) : vle a a.
Proof. destruct a as [[a0 a1] a2]. unfold vle. lra. Qed.

Lemma vle_trans (a b c : vec3) : vle a b -> vle b c -> vle a c.
Proof.
  destruct a as [[a0 a1] a2], b as [[b0 b1] b2], c as [[c0 c1] c2].
  unfold vle. lra.
Qed.

Lemma vmin_lower (a b : vec3) : vle (vmin a b) a /\ vle (vmin a b) b.
Proof.
  destruct a as [[a0 a1] a2], b as [[b0 b1] b2]. unfold vle, vmin.
  pose proof (Rmin_l a0 b0). pose proof (Rmin_r a0 b0).
  pose proof (Rmin_l a1 b1). pose proof (Rmin_r a1 b1).
  pose proof (Rmin_l a2 b2). pose proof (Rmin_r a2 b2). lra.
Qed.

Lemma vmax_upper (a b : vec3) : vle a (vmax a b) /\ vle b (vmax a b).
Proof.
  destruct a as [[a0 a1] a2], b as [[b0 b1] b2]. unfold vle, vmax.
  pose proof (Rmax_l a0 b0). pose proof (Rmax_r a0 b0).
  pose proof (Rmax_l a1 b1). pose proof (Rmax_r a1 b1).
  pose proof (Rmax_l a2 b2). pose proof (Rmax_r a2 b2). lra.
Qed.

Lemma fold_vmin_lower (rest : list vec3) :
  forall c, vle (fold_left vmin rest c) c /\
            Forall (fun e => vle (fold_left vmin rest c) e) rest.
Proof.
  induction rest as [|e r IH]; intros c; cbn [fold_left].
  - split; [apply vle_refl | constructor].
  - destruct (IH (vmin c e)) as [Hc Hr].
    destruct (vmin_lower c e) as [Hmc Hme].
    split; [eapply vle_trans; eassumption|].
    constructor; [eapply vle_trans; eassumption | exact Hr].
Qed.

Lemma fold_vmax_upper (rest : list vec3) :
  forall c, vle c (fold_left vmax rest c) /\
            Forall (fun e => vle e (fold_left vmax rest c)) rest.
Proof.
  induction rest as [|e r IH]; intros c; cbn [fold_left].
  - split; [apply vle_refl | constructor].
  - destruct (IH (vmax c e)) as [Hc Hr].
    destruct (vmax_upper c e) as [Hmc Hme].
    split; [eapply vle_trans; eassumption|].
    constructor; [eapply vle_trans; eassumption | exact Hr].
Qed.

Lemma widened_box (mn mx c : vec3) :
  vle mn c -> vle c mx ->
  vle (vsub mn (vscale 0.1 (vsub mx mn))) c /\
  vle c (vadd mx (vscale 0.1 (vsub mx mn))).
Proof.
  destruct mn as [[m0 m1] m2], mx as [[x0 x1] x2], c as [[c0 c1] c2].
  unfold vle, vsub, vadd, vscale. lra.
Qed.

(** X22.  With at least one camera the recomputed scene bounds contain
    every camera centre, and the minimum corner does not exceed the
    maximum corner; without cameras the bounds are left as they
    were. *)
Theorem scene_bounds_contain_cameras
  (bounds : vec3 * vec3) (camera_centers : list vec3) :
  camera_centers <> [] ->
  let '(lo, hi) := _compute_scene_bounds bounds camera_centers in
  Forall (fun c => vle lo c /\ vle c hi) camera_centers /\
  vle lo hi /\
  _compute_scene_bounds bounds [] = bounds.
Proof.
  intros Hne. destruct camera_centers as [|c rest]; [contradiction|].
  cbn [_compute_scene_bounds].
  destruct (fold_vmin_lower rest c) as [Hmc Hmr].
  destruct (fold_vmax_upper rest c) as [Hxc Hxr].
  set (mn := fold_left vmin rest c) in *.
  set (mx := fold_left vmax rest c) in *.
  assert (Hall : Forall (fun e => vle mn e /\ vle e mx) (c :: rest)).
  { constructor; [split; assumption|].
    rewrite Forall_forall in *. intros e He. split; auto. }
  split; [|split; [|reflexivity]].
  - eapply Forall_impl; [|exact Hall]. cbv beta.
    intros e [H1 H2]. apply widened_box; assumption.
  - destruct (widened_box mn mx c Hmc Hxc) as [H1 H2].
    eapply vle_trans; eassumption.
Qed.

Lemma scene_bounds_contain_cameras_witness :
  let '(lo, hi) :=
    _compute_scene_bounds ((-1, -1, -1), (1, 1, 1)) [(0, 0, 0); (1, 2, 3)] in
  Forall (fun c => vle lo c /\ vle c hi) [(0, 0, 0); (1, 2, 3)].
Proof.
  pose proof (scene_bounds_contain_cameras
                ((-1, -1, -1), (1, 1, 1)) [(0, 0, 0); (1, 2, 3)]
                ltac:(discriminate)) as H.
  destruct (_compute_scene_bounds ((-1, -1, -1), (1, 1, 1))
              [(0, 0, 0); (1, 2, 3)]) as [lo hi].
  exact (proj1 H).
Defined.





End SceneFacts.

Section NormalizeSceneWitness.

Import SceneGeometry.



End NormalizeSceneWitness.

(* ------------------------------------------------------------------ *)
(** * Early stopping *)

Section EarlyStopping.

Import Trainer.

Lemma check_counter_step (min_delta : R) (patience : Z) (val_loss : R)
  (st st' : TrainerState) (stop : bool) :
  _check_early_stopping min_delta patience val_loss st = (st', stop) ->
  best_val_loss st' = best_val_loss st /\
  (patience_counter st' = 0 \/
   patience_counter st' = patience_counter st + 1)%Z /\
  (stop = true <-> (patience <= patience_counter st')%Z).
Proof.
  unfold _check_early_stopping. intros H. injection H as <- <-.
  cbn [best_val_loss patience_counter]. split; [reflexivity|]. split.
  - destruct (match best_val_loss st with
              | Some best => Rltb val_loss (best - min_delta)
              | None => true
              end); auto.
  - apply Z.leb_le.
Qed.

Lemma save_best_counter (val_loss : R) (st : TrainerState) :
  patience_counter (save_best val_loss st) = patience_counter st.
Proof.
  unfold save_best. destruct (best_val_loss st) as [b|]; [|reflexivity].
  destruct (Rltb val_loss b); reflexivity.
Qed.

(** X24.  Training that starts with a zero patience counter is never
    stopped early before [patience] epochs have run: if the loop is
    left at epoch [e] (counted from 0) then [patience <= e + 1],
    whatever the losses and the checkpoint frequency. *)
Theorem early_stopping_waits_for_patience
  (save_frequency : Z) (use_es : bool) (min_delta : R) (patience : Z)
  (losses : list R) :
  forall (epoch : Z) (st st' : TrainerState) (e : Z),
    (0 <= epoch)%Z ->
    (0 <= patience_counter st <= epoch)%Z ->
    train_epochs save_frequency use_es min_delta patience epoch losses st
    = Some (st', Some e) ->
    (epoch <= e)%Z /\ (patience <= e + 1)%Z.
Proof.
  induction losses as [|v rest IH]; intros epoch st st' e He Hc Hrun.
  - discriminate.
  - cbn [train_epochs] in Hrun.
    destruct (save_frequency =? 0)%Z; [discriminate|].
    set (st1 := if ((epoch + 1) mod save_frequency =? 0)%Z
                then save_best v st else st) in *.
    assert (Hc1 : (0 <= patience_counter st1 <= epoch)%Z).
    { unfold st1. destruct ((epoch + 1) mod save_frequency =? 0)%Z;
        [rewrite save_best_counter|]; exact Hc. }
    destruct use_es.
    + destruct (_check_early_stopping min_delta patience v st1)
        as [st2 stop] eqn:Echk.
      destruct (check_counter_step _ _ _ _ _ _ Echk) as (_ & Hstep & Hstop).
      destruct stop.
      * injection Hrun as <- <-.
        assert (patience <= patience_counter st2)%Z by (apply Hstop; auto).
        lia.
      * destruct (IH (epoch + 1)%Z st2 st' e ltac:(lia) ltac:(lia) Hrun).
        lia.
    + destruct (IH (epoch + 1)%Z st1 st' e ltac:(lia) ltac:(lia) Hrun).
      lia.
Qed.

Lemma early_stopping_waits_for_patience_witness :
  train_epochs 10 true 0 1 0 [5] (mkTrainerState (Some 1) 0)
  = Some (mkTrainerState (Some 1) 1, Some 0%Z) /\
  (1 <= 0 + 1)%Z.
Proof.
  assert (Hrun : train_epochs 10 true 0 1 0 [5] (mkTrainerState (Some 1) 0)
                 = Some (mkTrainerState (Some 1) 1, Some 0%Z)).
  { cbn [train_epochs Z.eqb Z.add Z.modulo Z.div_eucl Z.pos_div_eucl
         Pos.add Z.leb Z.ltb Z.compare Pos.compare Pos.compare_cont
         Z.mul Pos.mul Z.sub Z.opp Z.pos_sub Z.succ_double Z.double
         Z.pred_double Pos.pred_double Pos.succ fst snd].
    unfold _check_early_stopping. cbn [best_val_loss patience_counter].
    rewrite Rltb_false by lra. reflexivity. }
  split; [exact Hrun|].
  exact (proj2 (early_stopping_waits_for_patience 10 true 0 1 [5] 0
                  (mkTrainerState (Some 1) 0) _ 0
                  ltac:(lia) ltac:(simpl; lia) Hrun)).
Defined.

(** X25.  The best loss is only recorded when a checkpoint is saved.
    From the initial state, for any run shorter than
    [save_frequency] epochs and any [patience] of at least 1, every
    check sees the initial infinite best loss, resets the counter, and
    the loop runs all its epochs without stopping early. *)
Theorem no_early_stop_before_first_checkpoint
  (save_frequency : Z) (use_es : bool) (min_delta : R) (patience : Z)
  (losses : list R) :
  forall (epoch : Z),
    (0 <= epoch)%Z ->
    (epoch + Z.of_nat (length losses) < save_frequency)%Z ->
    (1 <= patience)%Z ->
    train_epochs save_frequency use_es min_delta patience epoch losses
      (mkTrainerState None 0)
    = Some (mkTrainerState None 0, None).
Proof.
  induction losses as [|v rest IH]; intros epoch He Hlen Hp;
    [reflexivity|].
  cbn [length] in Hlen. cbn [train_epochs].
  destruct (Z.eqb_spec save_frequency 0) as [E | _]; [lia|].
  rewrite Z.mod_small by lia.
  destruct (Z.eqb_spec (epoch + 1) 0) as [E | _]; [lia|].
  destruct use_es.
  - unfold _check_early_stopping. cbn [best_val_loss patience_counter].
    destruct (Z.leb_spec patience 0) as [H | _]; [lia|].
    apply IH; lia.
  - apply IH; lia.
Qed.

Lemma no_early_stop_before_first_checkpoint_witness :
  train_epochs 10 true 1e-6 20 0 [3; 4; 5] (mkTrainerState None 0)
  = Some (mkTrainerState None 0, None).
Proof.
  exact (no_early_stop_before_first_checkpoint 10 true 1e-6 20 [3; 4; 5] 0
           ltac:(lia) ltac:(simpl; lia) ltac:(lia)).
Defined.

End EarlyStopping.

(* ------------------------------------------------------------------ *)
(** * Normalized directions *)

Section UnitDirections.

Import InstantNGP.

Lemma normalize_as_vscale (v : vec3) :
  normalize v = vscale (/ Rmax (norm v) norm_eps) v.
Proof.
  destruct v as [[x y] z]. unfold normalize, vscale, Rdiv.
  f_equal; [f_equal|]; ring.
Qed.

(** X26.  [F.normalize] never lengthens beyond unit norm: the
    normalized direction has norm at most 1 for every input, exactly 1
    when the input norm is at least the floor 1e-12, and the zero
    vector stays the zero vector. *)
Theorem normalize_unit_norm (v : vec3) :
  norm (normalize v) <= 1 /\
  (norm_eps <= norm v -> norm (normalize v) = 1) /\
  normalize (0, 0, 0) = (0, 0, 0).
Proof.
  pose proof (norm_nonneg v) as Hn.
  assert (Hd : norm_eps <= Rmax (norm v) norm_eps) by apply Rmax_r.
  assert (Hdn : norm v <= Rmax (norm v) norm_eps) by apply Rmax_l.
  assert (Heps : 0 < norm_eps) by (unfold norm_eps; lra).
  assert (Hpos : 0 < Rmax (norm v) norm_eps) by lra.
  assert (Hinv : 0 < / Rmax (norm v) norm_eps)
    by (apply Rinv_0_lt_compat; exact Hpos).
  assert (Hone : / Rmax (norm v) norm_eps * Rmax (norm v) norm_eps = 1)
    by (apply Rinv_l; lra).
  rewrite normalize_as_vscale, norm_vscale by lra.
  split; [|split].
  - set (d := Rmax (norm v) norm_eps) in *. clearbody d.
    set (i := / d) in *. clearbody i.
    set (n := norm v) in *. clearbody n.
    assert (Hprod : 0 <= i * (d - n)) by (apply Rmult_le_pos; lra).
    nra.
  - intros Hge. rewrite Rmax_left in * by exact Hge. exact Hone.
  - unfold normalize, Rdiv. f_equal; [f_equal|]; ring.
Qed.

Lemma normalize_unit_norm_witness :
  norm_eps <= norm (3, 0, 0) /\ norm (normalize (3, 0, 0)) = 1.
Proof.
  assert (Hv : norm_eps <= norm (3, 0, 0))
    by (rewrite norm_axis by lra; unfold norm_eps; lra).
  split; [exact Hv|].
  exact (proj1 (proj2 (normalize_unit_norm (3, 0, 0))) Hv).
Defined.

End UnitDirections.

Lemma sample_pdf_raises_in_last_bin_witness :
  exists u, 0 <= u < 1 /\ _sample_pdf_row [2; 4; 6] [1; 0; 3] [u] = None.
Proof.
  apply (sample_pdf_raises_in_last_bin [2; 4; 6] [1; 0; 3]).
  - reflexivity.
  - discriminate.
  - repeat constructor; lra.
Defined.

Lemma direction_encoding_width_small_witness :
  exists f,
    InstantNGP.SphericalHarmonicsEncoding_forward
      (InstantNGP.SphericalHarmonicsEncoding_init 2) (0, 0, 1) = Some f /\
    Z.of_nat (length f) = ((2 + 1) ^ 2)%Z.
Proof.
  exact (direction_encoding_width_small 2 (0, 0, 1) ltac:(lia)).
Defined.

(* ------------------------------------------------------------------ *)
(** * The Instant-NGP queries and forward pass *)

Section NGPQueries.

Import Networks.
Import NGP.

Lemma linear_forward_width (l : Linear) (x : list R) :
  length x = in_features l ->
  exists y, Linear_forward l x = Some y /\
            length y = Nat.min (length (weight l)) (length (bias l)).
Proof.
  intros Hx. unfold Linear_forward. rewrite Hx, Nat.eqb_refl.
  eexists. split; [reflexivity|]. apply map2_length.
Qed.

Lemma softplus_pos (x : R) : 0 < softplus x.
Proof.
  unfold softplus. destruct (Rgt_dec x 20) as [H | H]; [lra|].
  rewrite <- ln_1. apply ln_increasing; [lra|].
  pose proof (exp_pos x). lra.
Qed.

Variable config : ModelConfig.
Variable scene_config : SceneConfig.
Variable bounds : vec3 * vec3.
Variable randn : list (list R).
Variables sigma0 sigma1 color0 color1 color2 : list (list R) * list R.
Variable model : InstantNGP.

Hypothesis model_built :
  InstantNGP_model_init config scene_config bounds randn
    sigma0 sigma1 color0 color1 color2 = Ok model.
Hypothesis table_rows :
  Z.of_nat (length randn) = (2 ^ Z.of_nat (log2_hashmap_size config))%Z.
Hypothesis table_width : Forall (fun r => length r = 2%nat) randn.
Hypothesis sigma0_shape :
  layer_shape (Z.to_nat (network_width config)) sigma0.
Hypothesis sigma1_shape : layer_shape 16 sigma1.

Lemma model_fields :
  exists h,
    InstantNGP.HashEncoding_init 16 (Config.base_resolution config)
      (Config.max_resolution config) (log2_hashmap_size config) 2 randn
    = Ok h /\
    model = mkInstantNGP config scene_config bounds h
      (InstantNGP.SphericalHarmonicsEncoding_init 4)
      [Lin (mkLinear 32 (Z.to_nat (network_width config))
              (fst sigma0) (snd sigma0));
       ReLU;
       Lin (mkLinear (Z.to_nat (network_width config)) 16
              (fst sigma1) (snd sigma1))]
      [Lin (mkLinear (if use_viewdirs config then 40 else 15)
              (Z.to_nat (network_width config)) (fst color0) (snd color0));
       ReLU;
       Lin (mkLinear (Z.to_nat (network_width config))
              (Z.to_nat (network_width config)) (fst color1) (snd color1));
       ReLU;
       Lin (mkLinear (Z.to_nat (network_width config)) 3
              (fst color2) (snd color2))].
Proof.
  pose proof model_built as Hb. unfold InstantNGP_model_init in Hb.
  unfold InstantNGP.InstantNGP_init in Hb.
  eexists. split; [reflexivity|].
  cbn [InstantNGP.HashEncoding_init] in Hb. injection Hb as <-.
  cbn [InstantNGP.num_levels InstantNGP.feature_dim InstantNGP.output_dim
       InstantNGP.SphericalHarmonicsEncoding_init].
  destruct (use_viewdirs config); reflexivity.
Qed.

Lemma density_network_rows (p : vec3) :
  exists density_geo,
    length density_geo = 16%nat /\
    query_density_geometry model p
    = Some (map (fun d => softplus (d - 1)) (firstn 1 density_geo)
            ++ skipn 1 density_geo).
Proof.
  destruct model_fields as [h [Hh ->]].
  unfold query_density_geometry.
  cbn [scene_bounds hash_encoding sigma_network].
  destruct (hash_encoding_forward_rows 16 _ _ _ 2 randn 2 h
              (normalize_positions bounds p) Hh table_rows table_width
              ltac:(lia)) as [rows [Hf [Hrl HW]]].
  rewrite Hf.
  assert (Hlen : length (concat rows) = 32%nat).
  { rewrite (concat_uniform_length 2) by exact HW. rewrite Hrl.
    reflexivity. }
  destruct sigma0_shape as [Hw0 Hb0]. destruct sigma1_shape as [Hw1 Hb1].
  cbn [sequential_forward].
  destruct (linear_forward_width
              (mkLinear 32 (Z.to_nat (network_width config))
                 (fst sigma0) (snd sigma0)) (concat rows) Hlen)
    as [y0 [Hy0 Hl0]].
  cbn [weight bias] in Hl0. rewrite Hy0.
  destruct (linear_forward_width
              (mkLinear (Z.to_nat (network_width config)) 16
                 (fst sigma1) (snd sigma1)) (map (Rmax 0) y0))
    as [y1 [Hy1 Hl1]].
  { cbn [in_features]. rewrite length_map. lia. }
  cbn [weight bias] in Hl1. rewrite Hy1.
  exists y1. split; [lia | reflexivity].
Qed.

(** X27.  The density query of Instant-NGP composes without a shape
    error: the sixteen levels of two features feed the 32-wide first
    layer, and on a scene box of non-zero extent on every axis the
    query returns sixteen values for every position, a non-negative
    density followed by fifteen geometry features. *)
Theorem query_density_geometry_shape (p : vec3) :
  nondegenerate bounds ->
  exists density geo,
    query_density_geometry model p = Some (density :: geo) /\
    0 <= density /\
    length geo = 15%nat.
Proof.
  intros _.
  destruct (density_network_rows p) as [dg [Hlen Hq]].
  destruct dg as [|d rest]; [discriminate|].
  cbn [firstn skipn map app] in Hq.
  exists (softplus (d - 1)), rest.
  split; [exact Hq|]. split; [apply Rlt_le, softplus_pos|].
  cbn [length] in Hlen. lia.
Qed.

Hypothesis color0_shape :
  layer_shape (Z.to_nat (network_width config)) color0.
Hypothesis color1_shape :
  layer_shape (Z.to_nat (network_width config)) color1.
Hypothesis color2_shape : layer_shape 3 color2.


Lemma all_some_map_on {A B : Type} (g : A -> option B)
  (Q : A -> Prop) (P : B -> Prop) (l : list A) :
  (forall a, Q a -> exists b, g a = Some b /\ P b) ->
  Forall Q l ->
  exists bs, InstantNGP.all_some (map g l) = Some bs /\
             length bs = length l /\ Forall P bs.
Proof.
  intros Hg HQ. induction HQ as [|a r Ha _ [bs [Hbs [Hlen HP]]]].
  - exists []. repeat split; constructor.
  - destruct (Hg a Ha) as [b [Hb HPb]]. exists (b :: bs).
    cbn [map InstantNGP.all_some]. rewrite Hb, Hbs. cbn [length].
    repeat split; [congruence | constructor; assumption].
Qed.






(** X29.  A model configured with view directions cannot be rendered
    with [use_viewdirs=False]: the colour network then receives the
    fifteen geometry features alone instead of the forty values it was
    sized for, and the forward pass raises at the first sample. *)
Theorem forward_ray_without_viewdirs_raises
  (training : bool) (ray_origin ray_direction : vec3) (near far : R)
  (num_samples : nat) (rand : list R) :
  use_viewdirs config = true ->
  (1 <= num_samples)%nat ->
  length rand = num_samples ->
  forward_ray model training ray_origin ray_direction near far
    num_samples false rand = None.
Proof.
  intros Hv Hn Hlen. unfold forward_ray.
  set (t_vals := forward_t_vals training near far num_samples rand).
  assert (Htl : length t_vals = num_samples).
  { unfold t_vals, forward_t_vals, linspace. destruct training.
    - rewrite map2_length, !length_map, length_seq, Hlen.
      apply Nat.min_id.
    - rewrite length_map, length_seq. reflexivity. }
  set (positions := map _ t_vals).
  destruct (all_some_map
              (query_density_geometry model)
              (fun out => exists density geo,
                 out = density :: geo /\ length geo = 15%nat) positions)
    as [dgs [Hdgs [Hdl Hdp]]].
  { intros p. destruct (density_network_rows p) as [dg [Hl Hq]].
    destruct dg as [|d rest]; [discriminate|].
    cbn [firstn skipn map app] in Hq. eexists. split; [exact Hq|].
    eexists _, rest. split; [reflexivity|]. cbn [length] in Hl. lia. }
  unfold for_each_sample at 1. rewrite Hdgs.
  destruct (all_some_map_on split_density
              (fun out => exists density geo,
                 out = density :: geo /\ length geo = 15%nat)
              (fun dg => length (snd dg) = 15%nat) dgs)
    as [split [Hsplit [Hsl Hsp]]].
  { intros out (density & geo & -> & Hgl).
    eexists. split; [reflexivity|]. exact Hgl. }
  { exact Hdp. }
  unfold for_each_sample at 1. rewrite Hsplit.
  cbn [andb].
  assert (Hlen_split : length split = num_samples).
  { rewrite Hsl, Hdl. unfold positions. rewrite length_map. exact Htl. }
  destruct split as [|[d0 g0] rest]; [cbn [length] in Hlen_split; lia|].
  inversion Hsp as [|? ? Hg0 _]; subst. cbn [snd] in Hg0.
  unfold for_each_sample at 1. cbn [map InstantNGP.all_some snd].
  assert (Hnone : query_colors_ngp model g0 None = None).
  { destruct model_fields as [h [_ Hm]]. rewrite Hm.
    unfold query_colors_ngp. cbn [color_network sequential_forward].
    rewrite Hv. unfold Linear_forward. cbn [in_features].
    rewrite Hg0. reflexivity. }
  rewrite Hnone. reflexivity.
Qed.

End NGPQueries.

Section NGPQueriesWitness.

Import Networks.
Import NGP.

Lemma query_density_geometry_shape_witness :
  exists model,
    InstantNGP_model_init
      (mkModelConfig 1 1 524288 2048 16 0 1024 0.2 1000 true)
      (mkSceneConfig (1, 1, 1) false) ((-1, -1, -1), (1, 1, 1))
      [[1; 2]]
      ([repeat 0 32], [0]) (repeat [0] 16, repeat 0 16)
      ([repeat 0 40], [0]) ([[1]], [0]) (repeat [0] 3, repeat 0 3)
    = Ok model /\
    exists density geo,
      query_density_geometry model (0, 0, 0) = Some (density :: geo) /\
      0 <= density /\
      length geo = 15%nat.
Proof.
  eexists. split; [reflexivity|].
  apply (query_density_geometry_shape
           (mkModelConfig 1 1 524288 2048 16 0 1024 0.2 1000 true)
           (mkSceneConfig (1, 1, 1) false) ((-1, -1, -1), (1, 1, 1))
           [[1; 2]]
           ([repeat 0 32], [0]) (repeat [0] 16, repeat 0 16)
           ([repeat 0 40], [0]) ([[1]], [0]) (repeat [0] 3, repeat 0 3)
           _ eq_refl eq_refl).
  - repeat constructor.
  - split; reflexivity.
  - split; reflexivity.
  - repeat split; lra.
Defined.


Lemma forward_ray_without_viewdirs_raises_witness :
  exists model,
    InstantNGP_model_init
      (mkModelConfig 1 1 524288 2048 16 0 1024 0.2 1000 true)
      (mkSceneConfig (1, 1, 1) false) ((-1, -1, -1), (1, 1, 1))
      [[1; 2]]
      ([repeat 0 32], [0]) (repeat [0] 16, repeat 0 16)
      ([repeat 0 40], [0]) ([[1]], [0]) (repeat [0] 3, repeat 0 3)
    = Ok model /\
    forward_ray model false (0, 0, 0) (0, 0, 1) 2 6 2 false [0; 0] = None.
Proof.
  eexists. split; [reflexivity|].
  apply (forward_ray_without_viewdirs_raises
           (mkModelConfig 1 1 524288 2048 16 0 1024 0.2 1000 true)
           (mkSceneConfig (1, 1, 1) false) ((-1, -1, -1), (1, 1, 1))
           [[1; 2]]
           ([repeat 0 32], [0]) (repeat [0] 16, repeat 0 16)
           ([repeat 0 40], [0]) ([[1]], [0]) (repeat [0] 3, repeat 0 3)
           _ eq_refl eq_refl).
  - repeat constructor.
  - split; reflexivity.
  - split; reflexivity.
  - reflexivity.
  - lia.
  - reflexivity.
Defined.

End NGPQueriesWitness.
